(** * Layout engine of the job-post image generator

    A shallow embedding of the text layout functions of
    [src/JobPostImageGenerator.jsx]: [tokenizeWords], [wrapByWidth],
    [measureParagraph], [fitFontBinaryParagraph], [fitFontBinaryTable] and the
    line parser at the top of [drawOne], followed by the properties the
    specification states about them.

    Modelling choices.
    - A JavaScript string is its sequence of UTF-16 code units ([list N]).
      [for (const ch of t)] walks a string by code points, which [codePoints]
      reproduces (a high surrogate followed by a low one is one step).
    - The canvas context is the record [Ctx]; the only part of it the layout
      code reads or writes is the current font.  [ctx.measureText(s).width] is
      the host's measurer applied to the current font and [s]; the measurer is
      a section variable, so every theorem holds for every measurer.
    - Font sizes, line counts and pixel heights are integers ([Z]); measured
      widths are rationals ([Q]).  A product with a decimal constant
      ([mid * lineGap], [lh * 0.35], [s * 0.06]) is computed as the code
      computes it, in IEEE 754 double precision: the constant is the double
      nearest to the decimal, the product is rounded to the nearest double,
      ties to even ([double]), and [Math.ceil], [Math.round] or [Math.floor]
      is taken of that double.  So [Math.ceil(25 * 1.12)] is 29 and
      [Math.round(90 * 0.35)] is 31, as in the browser.
    - The [while] loops are defined by well-founded recursion on the width of
      the interval [lo .. hi], so the fitters are total functions.
    - The text part of [drawOne] is [drawOneText]: the zones computed from the
      canvas size, the three fits, and the list of [fillText] calls in call
      order, each with its font, alignment, position and line height.  The
      background gradient, the rounded frame and the logo image draw no text
      and are left out; the logo only enters through the height it
      reserves. *)

From Stdlib Require Import String Ascii.
From Stdlib Require Import List ZArith NArith QArith Qround Qpower Bool Lia.
From Equations Require Import Equations.
Import ListNotations.

Set Implicit Arguments.
Local Open Scope Z_scope.

(** ** Strings *)

Definition jsstring := list N.

Definition truthy (s : jsstring) : bool :=
  match s with [] => false | _ :: _ => true end.

(** Code units of a plain ASCII literal, for readable examples. *)
Fixpoint js (s : string) : jsstring :=
  match s with
  | EmptyString => []
  | String c s' => N_of_ascii c :: js s'
  end.

(** The class [\s] of a JavaScript regular expression, which is also the set
    [String.prototype.trim] strips: WhiteSpace and LineTerminator. *)
Definition isSpace (c : N) : bool :=
  ((9 <=? c) && (c <=? 13) || (c =? 32) || (c =? 160) || (c =? 5760)
   || (8192 <=? c) && (c <=? 8202)
   || (c =? 8232) || (c =? 8233) || (c =? 8239) || (c =? 8287)
   || (c =? 12288) || (c =? 65279))%N.

Definition notSpace (c : N) : bool := negb (isSpace c).

Definition SPACE : N := 32.
Definition LF : N := 10.
Definition CR : N := 13.

(** [s.split(/\s+/)]: the pieces between maximal runs of white space, empty
    pieces at either end included.  [inRun] tells that the previous code unit
    was white space, [cur] is the piece being read. *)
Fixpoint splitSpaces (inRun : bool) (cur s : jsstring) : list jsstring :=
  match s with
  | [] => [cur]
  | c :: s' =>
      if isSpace c
      then if inRun then splitSpaces true [] s'
           else cur :: splitSpaces true [] s'
      else splitSpaces false (cur ++ [c]) s'
  end.

(** [text.split(/\s+/).filter(Boolean)], on [text] or the empty string. *)
Definition tokenizeWords (text : jsstring) : list jsstring :=
  filter truthy (splitSpaces false [] text).

Definition isHighSurrogate (c : N) : bool := ((55296 <=? c) && (c <=? 56319))%N.
Definition isLowSurrogate (c : N) : bool := ((56320 <=? c) && (c <=? 57343))%N.

(** The steps of the string iterator: one code point each. *)
Fixpoint codePoints (s : jsstring) : list jsstring :=
  match s with
  | [] => []
  | c :: s' =>
      match s' with
      | d :: s'' =>
          if isHighSurrogate c && isLowSurrogate d
          then [c; d] :: codePoints s''
          else [c] :: codePoints s'
      | [] => [[c]]
      end
  end.

(** ** Parsing the input text (top of [drawOne]) *)

(** [s.replace(/\r/g, ...)] with the empty string: every CR deleted. *)
Definition removeCR (s : jsstring) : jsstring :=
  filter (fun c => negb (c =? CR)%N) s.

(** [s.split("\n")] *)
Fixpoint splitLines (cur s : jsstring) : list jsstring :=
  match s with
  | [] => [cur]
  | c :: s' =>
      if (c =? LF)%N then cur :: splitLines [] s'
      else splitLines (cur ++ [c]) s'
  end.

Fixpoint dropSpaces (s : jsstring) : jsstring :=
  match s with
  | [] => []
  | c :: s' => if isSpace c then dropSpaces s' else s
  end.

(** [l.trim()] *)
Definition trim (l : jsstring) : jsstring :=
  rev (dropSpaces (rev (dropSpaces l))).

(** The lines of the input: CR deleted, split at LF, each piece trimmed,
    the empty ones filtered out ([.filter(Boolean)]). *)
Definition parseLines (inputText : jsstring) : list jsstring :=
  filter truthy (map trim (splitLines [] (removeCR inputText))).

Record Row := mkRow { key : jsstring; value : jsstring }.

(** [for (let i = 2; i < lines.length; i += 2)]; [lines[i]] with its default,
    the empty string, is [nth i lines []]: [undefined] and the empty string
    both give the empty string. *)
Equations? pairLoop (lines : list jsstring) (i : nat) (pairs : list Row)
    : list Row by wf (length lines - i)%nat lt :=
  pairLoop lines i pairs with lt_dec i (length lines) := {
    | left _ =>
        let k := nth i lines [] in
        let v := nth (i + 1) lines [] in
        pairLoop lines (i + 2)
          (if truthy k || truthy v then pairs ++ [mkRow k v] else pairs)
    | right _ => pairs }.
Proof. lia. Qed.

Record ContentModel := mkContent {
  title : jsstring;
  subtitle : jsstring;
  pairs : list Row
}.

Definition parseContent (inputText : jsstring) : ContentModel :=
  let lines := parseLines inputText in
  mkContent (nth 0 lines []) (nth 1 lines []) (pairLoop lines 2 []).

(** The pairing as the specification words it: the lines two at a time, in
    order, a pair kept when either side is non-empty. *)
Fixpoint pairsOfLines (l : list jsstring) : list Row :=
  match l with
  | k :: v :: rest => mkRow k v :: pairsOfLines rest
  | [k] => [mkRow k []]
  | [] => []
  end.

Definition keepPair (r : Row) : bool := truthy (key r) || truthy (value r).

(** The raw text as the specification reads it: lines, separated by LF. *)
Fixpoint joinLines (raw : list jsstring) : jsstring :=
  match raw with
  | [] => []
  | l :: rest =>
      match rest with
      | [] => l
      | _ :: _ => l ++ [LF] ++ joinLines rest
      end
  end.

(** The non-empty trimmed lines of a list of raw lines, in the specification's
    words and without the parser's functions: a line of white space only is
    skipped; any other line is a text [t] that neither begins nor ends with
    white space, between two runs of white space, and counts as [t]. *)
Inductive contentLines : list jsstring -> list jsstring -> Prop :=
| contentLines_nil : contentLines [] []
| contentLines_blank (l : jsstring) (raw ls : list jsstring) :
    forallb isSpace l = true ->
    contentLines raw ls -> contentLines (l :: raw) ls
| contentLines_line (a t b : jsstring) (raw ls : list jsstring) :
    forallb isSpace a = true -> forallb isSpace b = true ->
    isSpace (hd SPACE t) = false -> isSpace (last t SPACE) = false ->
    contentLines raw ls -> contentLines ((a ++ t ++ b) :: raw) (t :: ls).

(** ** Canvas context *)

Record Font := mkFont {
  fontWeight : option Z;     (* [Some 600] for a leading "600 ", else [None] *)
  fontSize : Z;              (* the number before "px" *)
  fontFamily : jsstring      (* the family, already quoted *)
}.

Record Ctx := mkCtx { font : Font }.

Definition setFont (f : Font) (_ : Ctx) : Ctx := mkCtx f.

Definition QUOTE : N := 34.

(** [quoteFontName] is declared twice in the component (lines 90 and 284);
    both are function declarations of one scope, so the second is in force. *)
Definition quoteFontName (name : jsstring) : jsstring :=
  if truthy name
  then if existsb (N.eqb SPACE) name then [QUOTE] ++ name ++ [QUOTE] else name
  else [QUOTE] ++ js "Noto Sans" ++ [QUOTE].

(** ** Numbers

    A JavaScript number is an IEEE 754 double.  A double is written here as
    its value, a rational; integers below 2^53 are doubles, and their sums,
    differences and products below 2^53 are exact.  A decimal literal such as
    [1.12] stands for the double nearest to it, and the product of two doubles
    is the double nearest to the exact product. *)

(** The floor of the binary logarithm of a positive rational. *)
Definition ilog2 (q : Q) : Z :=
  if Qle_bool 1 q then Z.log2 (Qfloor q) else - Z.log2_up (Qceiling (/ q)).

(** The nearest integer, the even one of two that are equally near. *)
Definition roundEven (q : Q) : Z :=
  let f := Qfloor q in
  match (q - inject_Z f ?= 1 # 2)%Q with
  | Lt => f
  | Gt => f + 1
  | Eq => if Z.even f then f else f + 1
  end.

(** The double nearest to a positive rational: a significand of 53 bits
    (fewer below 2^-1022, where the exponent stays at -1074), rounded to
    nearest, ties to even.  Overflow to [Infinity] (beyond 1.79e308) is left
    out: no size, height or width of the program comes near it. *)
Definition doublePos (q : Q) : Q :=
  let e := Z.max (ilog2 q - 52) (-1074) in
  (inject_Z (roundEven (q * 2 ^ (- e))) * 2 ^ e)%Q.

(** The double nearest to a rational; rounding is symmetric about zero. *)
Definition double (q : Q) : Q :=
  match (q ?= 0)%Q with
  | Eq => 0%Q
  | Gt => doublePos q
  | Lt => (- doublePos (- q))%Q
  end.

(** [Math.round(x)]: the nearest integer, the larger one of two that are
    equally near, which is the floor of [x] plus one half. *)
Definition mathRound (x : Q) : Z := Qfloor (x + (1 # 2)).

(** ** Arithmetic of the fitters *)

(** [Math.ceil(px * lineGap)], for an integer [px] and a double [lineGap]. *)
Definition ceilMul (px : Z) (lineGap : Q) : Z :=
  Qceiling (double (inject_Z px * lineGap)).

(** [Math.round(lh * 0.35)] *)
Definition rowGap (lh : Z) : Z :=
  mathRound (double (inject_Z lh * double (35 # 100))).

(** ** Word wrapper and fitters, over the host's measurer *)

Section Layout.

(** Width in pixels of a string drawn in a font: [ctx.measureText(s).width]
    once [ctx.font] is set. *)
Variable measureText : Font -> jsstring -> Q.

Definition fitsWidth (ctx : Ctx) (s : jsstring) (maxW : Q) : bool :=
  Qle_bool (measureText (font ctx) s) maxW.

(** One turn of [for (const ch of t)]; the state is [(lines, chunk)]. *)
Definition splitStep (ctx : Ctx) (maxW : Q)
    (st : list jsstring * jsstring) (ch : jsstring) : list jsstring * jsstring :=
  let '(lines, chunk) := st in
  let test2 := chunk ++ ch in
  if fitsWidth ctx test2 maxW then (lines, test2)
  else ((if truthy chunk then lines ++ [chunk] else lines), ch).

(** One turn of [for (let i = 0; i < tokens.length; i++)]; the state is
    [(lines, line)]. *)
Definition wrapStep (ctx : Ctx) (maxW : Q)
    (st : list jsstring * jsstring) (t : jsstring) : list jsstring * jsstring :=
  let '(lines, line) := st in
  let test := if truthy line then line ++ [SPACE] ++ t else t in
  if fitsWidth ctx test maxW then (lines, test)
  else if truthy line then (lines ++ [line], t)
  else
    let '(lines', chunk) := fold_left (splitStep ctx maxW) (codePoints t) (lines, []) in
    (lines', if truthy chunk then chunk else []).

Definition wrapByWidth (ctx : Ctx) (text : jsstring) (maxW : Q) : list jsstring :=
  if truthy text then
    let '(lines, line) := fold_left (wrapStep ctx maxW) (tokenizeWords text) ([], []) in
    if truthy line then lines ++ [line] else lines
  else [].

Definition measureParagraph (ctx : Ctx) (text : jsstring) (maxW : Q) (lineHeight : Z)
    : list jsstring * Z :=
  let lines := wrapByWidth ctx text maxW in
  (lines, Z.of_nat (length lines) * lineHeight).

Record FitResult := mkFit {
  fontPx : Z;
  lineHeight : Z;
  lines : list jsstring
}.

(** The [while (lo <= hi)] loop of [fitFontBinaryParagraph]; the state is
    [ctx.font], [lo], [hi], [best] and [bestLines]. *)
Equations? paragraphLoop (text : jsstring) (maxW : Q) (maxH : Z) (quoted : jsstring)
    (lineGap : Q) (ctx : Ctx) (lo hi best : Z) (bestLines : list jsstring)
    : Ctx * Z * list jsstring by wf (Z.to_nat (hi - lo + 1)) lt :=
  paragraphLoop text maxW maxH quoted lineGap ctx lo hi best bestLines
    with Z_le_gt_dec lo hi := {
    | left _ =>
        let mid := (lo + hi) / 2 in
        let ctx' := setFont (mkFont None mid quoted) ctx in
        let lh := ceilMul mid lineGap in
        let m := measureParagraph ctx' text maxW lh in
        if snd m <=? maxH
        then paragraphLoop text maxW maxH quoted lineGap ctx' (mid + 1) hi mid (fst m)
        else paragraphLoop text maxW maxH quoted lineGap ctx' lo (mid - 1) best bestLines
    | right _ => (ctx, best, bestLines) }.
Proof.
  all: assert (lo <= (lo + hi) / 2 <= hi)
    by (split; [apply Z.div_le_lower_bound | apply Z.div_le_upper_bound]; lia); lia.
Qed.

Definition fitFontBinaryParagraph (ctx : Ctx) (text : jsstring) (maxW : Q) (maxH : Z)
    (minPx maxPx : Z) (fontFamilyName : jsstring) (lineGap : Q) : FitResult * Ctx :=
  let quoted := quoteFontName fontFamilyName in
  let '(ctx1, best, _) :=
    paragraphLoop text maxW maxH quoted lineGap ctx minPx maxPx minPx [] in
  let lh := ceilMul best lineGap in
  let ctx2 := setFont (mkFont None best quoted) ctx1 in
  let final := measureParagraph ctx2 text maxW lh in
  (mkFit best lh (fst final), ctx2).

Record WrappedRow := mkWrapped {
  left : list jsstring;
  right : list jsstring;
  rowH : Z
}.

(** The table result has the fields [fontPx], [lineHeight] and [wrapped]; the
    first two carry a prefix here, the paragraph result owns the plain names. *)
Record TableFitResult := mkTableFit {
  tableFontPx : Z;
  tableLineHeight : Z;
  wrapped : list WrappedRow
}.

Definition lengthZ {A : Type} (l : list A) : Z := Z.of_nat (length l).

(** One turn of [for (const r of rows)] at the candidate size [mid]; the state
    is [ctx.font], [totalH] and [wrapped]. *)
Definition tableRowStep (colLeftW colRightW : Q) (quoted : jsstring) (mid lh : Z)
    (st : Ctx * Z * list WrappedRow) (r : Row) : Ctx * Z * list WrappedRow :=
  let '(ctx, totalH, wrapped) := st in
  let ctx1 := setFont (mkFont (Some 600) mid quoted) ctx in
  let leftLines := wrapByWidth ctx1 (key r) colLeftW in
  let ctx2 := setFont (mkFont None mid quoted) ctx1 in
  let rightLines := wrapByWidth ctx2 (value r) colRightW in
  let rowH := Z.max (lengthZ leftLines) (lengthZ rightLines) * lh in
  (ctx2, totalH + (rowH + rowGap lh), wrapped ++ [mkWrapped leftLines rightLines rowH]).

(** The body of the table loop up to the comparison with [maxH]: the rows
    wrapped at [mid] and [totalH] after [if (totalH > 0) totalH -= gap]. *)
Definition tableAt (rows : list Row) (colLeftW colRightW : Q) (quoted : jsstring)
    (lineGap : Q) (ctx : Ctx) (mid : Z) : Ctx * Z * list WrappedRow :=
  let lh := ceilMul mid lineGap in
  let '(ctx', totalH, wrapped) :=
    fold_left (tableRowStep colLeftW colRightW quoted mid lh) rows (ctx, 0, []) in
  (ctx', (if totalH >? 0 then totalH - rowGap lh else totalH), wrapped).

(** The [while (lo <= hi)] loop of [fitFontBinaryTable]; the state is
    [ctx.font], [lo], [hi], [best] and [bestResult] ([None] for [null]). *)
Equations? tableLoop (rows : list Row) (colLeftW colRightW : Q) (maxH : Z)
    (quoted : jsstring) (lineGap : Q) (ctx : Ctx) (lo hi best : Z)
    (bestResult : option TableFitResult)
    : Ctx * Z * option TableFitResult by wf (Z.to_nat (hi - lo + 1)) lt :=
  tableLoop rows colLeftW colRightW maxH quoted lineGap ctx lo hi best bestResult
    with Z_le_gt_dec lo hi := {
    | Specif.left _ =>
        let mid := (lo + hi) / 2 in
        let lh := ceilMul mid lineGap in
        let t := tableAt rows colLeftW colRightW quoted lineGap ctx mid in
        if snd (fst t) <=? maxH
        then tableLoop rows colLeftW colRightW maxH quoted lineGap (fst (fst t))
               (mid + 1) hi mid (Some (mkTableFit mid lh (snd t)))
        else tableLoop rows colLeftW colRightW maxH quoted lineGap (fst (fst t))
               lo (mid - 1) best bestResult
    | Specif.right _ => (ctx, best, bestResult) }.
Proof.
  all: assert (lo <= (lo + hi) / 2 <= hi)
    by (split; [apply Z.div_le_lower_bound | apply Z.div_le_upper_bound]; lia); lia.
Qed.

(** [rows.map(...)] of the fallback: both cells wrapped in the font the
    context holds at that point, [rowH] the larger line count, at least 1. *)
Definition fallbackRow (colLeftW colRightW : Q) (ctx : Ctx) (r : Row) : WrappedRow :=
  mkWrapped (wrapByWidth ctx (key r) colLeftW) (wrapByWidth ctx (value r) colRightW)
    (Z.max 1 (Z.max (lengthZ (wrapByWidth ctx (key r) colLeftW))
                    (lengthZ (wrapByWidth ctx (value r) colRightW)))).

Definition fitFontBinaryTable (ctx : Ctx) (rows : list Row) (colLeftW colRightW : Q)
    (maxH : Z) (minPx maxPx : Z) (fontFamilyName : jsstring) (lineGap : Q)
    : TableFitResult * Ctx :=
  let quoted := quoteFontName fontFamilyName in
  let '(ctx1, _, bestResult) :=
    tableLoop rows colLeftW colRightW maxH quoted lineGap ctx minPx maxPx minPx None in
  match bestResult with
  | Some r => (r, ctx1)
  | None =>
      let fallbackLh := ceilMul minPx lineGap in
      (mkTableFit minPx fallbackLh (map (fallbackRow colLeftW colRightW ctx1) rows), ctx1)
  end.

(** Height of the paragraph at a candidate size, as the loop computes it
    after setting the font: line count times [Math.ceil(size * lineGap)]. *)
Definition paragraphHeight (text : jsstring) (maxW : Q) (quoted : jsstring)
    (lineGap : Q) (size : Z) : Z :=
  snd (measureParagraph (mkCtx (mkFont None size quoted)) text maxW (ceilMul size lineGap)).

(** The test of the paragraph loop at a candidate size. *)
Definition paragraphFits (text : jsstring) (maxW : Q) (maxH : Z) (quoted : jsstring)
    (lineGap : Q) (size : Z) : bool :=
  paragraphHeight text maxW quoted lineGap size <=? maxH.

(** [totalH] and [wrapped] of the table at a candidate size. *)
Definition tableHeight (rows : list Row) (colLeftW colRightW : Q) (quoted : jsstring)
    (lineGap : Q) (size : Z) : Z :=
  snd (fst (tableAt rows colLeftW colRightW quoted lineGap
              (mkCtx (mkFont None size quoted)) size)).

Definition tableRows (rows : list Row) (colLeftW colRightW : Q) (quoted : jsstring)
    (lineGap : Q) (size : Z) : list WrappedRow :=
  snd (tableAt rows colLeftW colRightW quoted lineGap
         (mkCtx (mkFont None size quoted)) size).

(** The test of the table loop at a candidate size, and the result the loop
    records when the test succeeds. *)
Definition tableFits (rows : list Row) (colLeftW colRightW : Q) (maxH : Z)
    (quoted : jsstring) (lineGap : Q) (size : Z) : bool :=
  tableHeight rows colLeftW colRightW quoted lineGap size <=? maxH.

Definition tableResultAt (rows : list Row) (colLeftW colRightW : Q) (quoted : jsstring)
    (lineGap : Q) (size : Z) : TableFitResult :=
  mkTableFit size (ceilMul size lineGap)
    (tableRows rows colLeftW colRightW quoted lineGap size).

(** What [drawOne] advances [rowY] by over the rows of a table result. *)
Definition drawnTableHeight (t : TableFitResult) : Z :=
  fold_left (fun rowY wRow => rowY + (rowH wRow + rowGap (tableLineHeight t)))
    (wrapped t) 0.

End Layout.

(** The search both [while] loops perform, on the sizes alone: [ok] tells
    whether a candidate size fits. *)
Equations? searchBest (ok : Z -> bool) (lo hi best : Z) : Z
    by wf (Z.to_nat (hi - lo + 1)) lt :=
  searchBest ok lo hi best with Z_le_gt_dec lo hi := {
    | Specif.left _ =>
        if ok ((lo + hi) / 2)
        then searchBest ok ((lo + hi) / 2 + 1) hi ((lo + hi) / 2)
        else searchBest ok lo ((lo + hi) / 2 - 1) best
    | Specif.right _ => best }.
Proof.
  all: assert (lo <= (lo + hi) / 2 <= hi)
    by (split; [apply Z.div_le_lower_bound | apply Z.div_le_upper_bound]; lia); lia.
Qed.

Definition sumZ (l : list Z) : Z := fold_right Z.add 0 l.

(** The row the table loop pushes for [r] at a candidate size: the key wrapped
    in weight 600, the value in the regular face, [rowH] the larger line count
    times the line height. *)
Definition wrappedRowAt (measureText : Font -> jsstring -> Q) (colLeftW colRightW : Q)
    (quoted : jsstring) (size lh : Z) (r : Row) : WrappedRow :=
  let leftLines :=
    wrapByWidth measureText (mkCtx (mkFont (Some 600) size quoted)) (key r) colLeftW in
  let rightLines :=
    wrapByWidth measureText (mkCtx (mkFont None size quoted)) (value r) colRightW in
  mkWrapped leftLines rightLines (Z.max (lengthZ leftLines) (lengthZ rightLines) * lh).

(** The visible characters of a cell or of a wrapped cell. *)
Definition visible (s : jsstring) : jsstring := filter notSpace s.

(** The cells of a table result, stripped of white space. *)
Definition visibleCells (w : WrappedRow) : jsstring * jsstring :=
  (visible (concat (left w)), visible (concat (right w))).

(** The lines of wrapped rows in the order a table shows them, row after row,
    the lines of the key before those of the value, each line with the mark
    of its column. *)
Definition cellLines {A : Type} (onKey onValue : A) (ws : list WrappedRow)
    : list (A * jsstring) :=
  concat (map (fun w => map (pair onKey) (left w) ++ map (pair onValue) (right w)) ws).

(** The integers [lo], [lo + 1], ..., [n] of them. *)
Definition sizesFrom (lo : Z) (n : nat) : list Z := map (fun i => lo + Z.of_nat i) (seq 0 n).

(** ** Drawing the text ([drawOne])

    [drawOne] fills the background, draws the card and the logo, and then
    draws the text with [ctx.fillText].  The model keeps the part that places
    text: the zones of the canvas, the three fits and the [fillText] calls, in
    the order of the source.  The gradient, the rounded rectangle and
    [drawImage] draw no text and leave [ctx.font] alone; of the logo only its
    presence matters here, since it moves the text down. *)

(** [Math.round(n * c)] and [Math.floor(n * c)], for an integer [n] and a
    decimal literal [c]. *)
Definition roundMul (n : Z) (c : Q) : Z := mathRound (double (inject_Z n * double c)).
Definition floorMul (n : Z) (c : Q) : Z := Qfloor (double (inject_Z n * double c)).

(** The values [drawOne] computes before it draws text: [x], [contentW], the
    top ([y] at that point) and height of the title, subtitle and table
    bands, the columns and the three font ceilings. *)
Record Zones := mkZones {
  contentX : Z;
  contentW : Z;
  titleTop : Z;
  titleBoxH : Z;
  subTop : Z;
  subBoxH : Z;
  tableTop : Z;
  tableBoxH : Z;
  colGap : Z;
  colLeftW : Z;
  colRightW : Z;
  maxTitlePx : Z;
  maxSubPx : Z;
  maxTablePx : Z
}.

Definition zones (w h : Z) (hasLogo : bool) : Zones :=
  let s := Z.min w h in
  let pad := roundMul s (6 # 100) in
  let inner := roundMul s (45 # 1000) in
  let cardX := pad in
  let cardY := pad in
  let cardW := w - pad * 2 in
  let cardH := h - pad * 2 in
  let y0 := cardY + inner in
  let x := cardX + inner in
  let contentW := cardW - inner * 2 in
  let y1 := if hasLogo then y0 + (roundMul s (12 # 100) + roundMul s (2 # 100)) else y0 in
  let titleBoxH := roundMul cardH (20 # 100) in
  let subBoxH := roundMul cardH (12 # 100) in
  let tableBoxH := cardH - (y1 - cardY) - titleBoxH - subBoxH - inner in
  let colGap := roundMul s (2 # 100) in
  let colLeftW := floorMul contentW (36 # 100) in
  let colRightW := contentW - colLeftW - colGap in
  mkZones x contentW y1 titleBoxH (y1 + titleBoxH) subBoxH
    (y1 + titleBoxH + subBoxH) tableBoxH colGap colLeftW colRightW
    (Z.max 14 (floorMul s (10 # 100)))
    (Z.max 12 (floorMul s (65 # 1000)))
    (Z.max 10 (floorMul s (55 # 1000))).

Inductive TextAlign := AlignCenter | AlignLeft.

(** One call [ctx.fillText(text, x, y)], with the font and the alignment in
    force. *)
Record FillText := mkFillText {
  ftFont : Font;
  ftAlign : TextAlign;
  ftText : jsstring;
  ftX : Q;
  ftY : Z
}.

(** [for (const ln of lines) { ctx.fillText(ln, x, ty); ty += lineHeight; }] *)
Fixpoint fillLines (f : Font) (align : TextAlign) (x : Q) (ty lh : Z)
    (lns : list jsstring) : list FillText :=
  match lns with
  | [] => []
  | ln :: rest => mkFillText f align ln x ty :: fillLines f align x (ty + lh) lh rest
  end.

(** The title and the subtitle: the lines of the fit from
    [y + Math.max(0, Math.floor((boxH - lines.length * lineHeight) / 2))]
    down, centred on [x + contentW / 2]. *)
Definition fillParagraph (f : Font) (x contentWidth y boxH : Z) (fit : FitResult)
    : list FillText :=
  let ty := y + Z.max 0 ((boxH - lengthZ (lines fit) * lineHeight fit) / 2) in
  fillLines f AlignCenter (inject_Z x + inject_Z contentWidth / 2) ty (lineHeight fit)
    (lines fit).

(** The table: [for (let i = 0; i < tableFit.wrapped.length; i++)], the keys
    in weight 700 at [x], the values in the regular face at
    [x + colLeftW + colGap], the next row [rowH] and a gap further down. *)
Fixpoint fillRows (quoted : jsstring) (size lh : Z) (x rightX : Z) (rowY : Z)
    (wrappedRows : list WrappedRow) : list FillText :=
  match wrappedRows with
  | [] => []
  | wRow :: rest =>
      fillLines (mkFont (Some 700) size quoted) AlignLeft (inject_Z x) rowY lh (left wRow)
      ++ fillLines (mkFont None size quoted) AlignLeft (inject_Z rightX) rowY lh (right wRow)
      ++ fillRows quoted size lh x rightX (rowY + (rowH wRow + rowGap lh)) rest
  end.

(** The three fits of [drawOne] and its [fillText] calls, the title's first,
    then the subtitle's, then the table's. *)
Record TextDrawing := mkTextDrawing {
  titleFit : FitResult;
  titleDraw : list FillText;
  subFit : FitResult;
  subDraw : list FillText;
  tableFit : TableFitResult;
  tableDraw : list FillText
}.

Definition drawOneText (measureText : Font -> jsstring -> Q) (ctx : Ctx) (w h : Z)
    (hasLogo : bool) (fFam inputText : jsstring) : TextDrawing :=
  let z := zones w h hasLogo in
  let c := parseContent inputText in
  let quoted := quoteFontName fFam in
  let '(titleFit, ctx1) :=
    fitFontBinaryParagraph measureText ctx (title c) (inject_Z (contentW z)) (titleBoxH z)
      12 (maxTitlePx z) fFam (double (118 # 100)) in
  let titleFont := mkFont (Some 700) (fontPx titleFit) quoted in
  let ctx2 := setFont titleFont ctx1 in
  let titleDraw :=
    fillParagraph titleFont (contentX z) (contentW z) (titleTop z) (titleBoxH z) titleFit in
  let '(subFit, ctx3) :=
    fitFontBinaryParagraph measureText ctx2 (subtitle c) (inject_Z (contentW z)) (subBoxH z)
      10 (maxSubPx z) fFam (double (118 # 100)) in
  let subFont := mkFont (Some 600) (fontPx subFit) quoted in
  let ctx4 := setFont subFont ctx3 in
  let subDraw :=
    fillParagraph subFont (contentX z) (contentW z) (subTop z) (subBoxH z) subFit in
  let '(tableFit, _) :=
    fitFontBinaryTable measureText ctx4 (pairs c) (inject_Z (colLeftW z))
      (inject_Z (colRightW z)) (tableBoxH z) 9 (maxTablePx z) fFam (double (112 # 100)) in
  let tableDraw :=
    fillRows quoted (tableFontPx tableFit) (tableLineHeight tableFit) (contentX z)
      (contentX z + colLeftW z + colGap z) (tableTop z) (wrapped tableFit) in
  mkTextDrawing titleFit titleDraw subFit subDraw tableFit tableDraw.

(** Every [fillText] call of [drawOne], in order. *)
Definition allDraw (d : TextDrawing) : list FillText :=
  titleDraw d ++ subDraw d ++ tableDraw d.

(** Words joined by single blanks, the way [wrapByWidth] builds a line out of
    tokens ([`${line} ${t}`]). *)
Definition joinSpaces (tokens : list jsstring) : jsstring :=
  match tokens with
  | [] => []
  | t :: rest => fold_left (fun line t' => line ++ [SPACE] ++ t') rest t
  end.

(** A measurer for examples: every code unit is [10 * size / 16] pixels wide,
    whatever the weight and family. *)
Definition monoMeasure (f : Font) (s : jsstring) : Q :=
  (inject_Z (Z.of_nat (length s) * 10 * fontSize f) / 16)%Q.

Definition ctx16 : Ctx := mkCtx (mkFont None 16 (js "Arial")).

(** A measurer in whose 2px face every code unit is 8 pixels wide, wider than
    in the 3px face; one pixel per px of font size otherwise. *)
Definition bumpyMeasure (f : Font) (s : jsstring) : Q :=
  inject_Z (Z.of_nat (length s) * (if fontSize f =? 2 then 8 else fontSize f)).

Definition rows2 : list Row :=
  [mkRow (js "Age limit") (js "Maximum Age: 25 years"); mkRow (js "Salary") (js "30,000")].

(** A text with three rows whose values take three lines each around 50px on
    the 1080 by 1080 canvas. *)
Definition steps3 : jsstring :=
  js "BEL Recruitment 2025" ++ [LF] ++ js "Trainees" ++ [LF]
  ++ js "Step 1" ++ [LF] ++ js "Applications Registration Certificates" ++ [LF]
  ++ js "Step 2" ++ [LF] ++ js "Applications Registration Certificates" ++ [LF]
  ++ js "Step 3" ++ [LF] ++ js "Applications Registration Certificates".

(** * Properties *)

(** ** The embedding on small inputs *)

Example tokenizeWords_ex :
  tokenizeWords (js "  hello   world foo ") = [js "hello"; js "world"; js "foo"].
Proof. reflexivity. Qed.

Example splitSpaces_ex :
  splitSpaces false [] (js " a  b ") = [[]; js "a"; js "b"; []].
Proof. reflexivity. Qed.

Example codePoints_ex :
  codePoints [97; 55357; 56832; 98]%N = [[97]; [55357; 56832]; [98]]%N.
Proof. reflexivity. Qed.

(** Eleven code units of 10 pixels fit in 110 pixels, fifteen do not. *)
Example wrapByWidth_ex :
  wrapByWidth monoMeasure ctx16 (js "  hello   world foo ") 110
  = [js "hello world"; js "foo"].
Proof. reflexivity. Qed.

(** A first token that is too wide is cut into chunks that fit. *)
Example wrapByWidth_split_ex :
  wrapByWidth monoMeasure ctx16 (js "abcdefgh ij") 30 = [js "abc"; js "def"; js "gh"; js "ij"].
Proof. reflexivity. Qed.

Example fitFontBinaryParagraph_ex :
  fst (fitFontBinaryParagraph monoMeasure ctx16 (js "hello big world") 60 100 4 40
         (js "Noto Sans") (double (118 # 100)))
  = mkFit 21 25 [js "hell"; js "o"; js "big"; js "world"].
Proof. reflexivity. Qed.

Example fitFontBinaryTable_ex :
  fst (fitFontBinaryTable monoMeasure ctx16 rows2 100 200 120 9 40 (js "Noto Sans") (double (112 # 100)))
  = mkTableFit 26 30
      [mkWrapped [js "Age"; js "limit"] [js "Maximum Age:"; js "25 years"] 60;
       mkWrapped [js "Salary"] [js "30,000"] 30].
Proof. reflexivity. Qed.

Example parseContent_ex :
  parseContent (js "Title" ++ [CR; LF] ++ js "  Sub  " ++ [LF; LF] ++ js "k1" ++ [LF]
                ++ js "v1" ++ [LF] ++ js "k2")
  = mkContent (js "Title") (js "Sub") [mkRow (js "k1") (js "v1"); mkRow (js "k2") []].
Proof. reflexivity. Qed.

(** A short text on the 1080 by 1080 canvas, with a measurer of 10/16 pixel
    per code unit and px of size: the title takes two lines at 80px, which
    fill its band of 190 pixels exactly (line height 95). *)
Example drawOneText_ex :
  let d := drawOneText monoMeasure ctx16 1080 1080 false (js "Noto Sans")
             (js "BEL Recruitment 2025" ++ [LF] ++ js "Trainees" ++ [LF]
              ++ js "Age limit" ++ [LF] ++ js "25 years") in
  map (fun c => (ftText c, ftY c)) (allDraw d)
  = [(js "BEL Recruitment", 114); (js "2025", 209); (js "Trainees", 319);
     (js "Age", 418); (js "limit", 485); (js "25 years", 418)]
  /\ (fontPx (titleFit d), fontPx (subFit d), tableFontPx (tableFit d)) = (80, 70, 59).
Proof. split; reflexivity. Qed.

Example zones_ex :
  zones 1200 627 true
  = mkZones 66 1068 154 110 264 66 330 231 13 384 671 62 40 34.
Proof. reflexivity. Qed.

(** On the 1080 by 1080 canvas the table band is 548 pixels high and the
    search over 9 .. 59 probes 34, 47, 53, 50, 48 and 49.  At 50px a line is
    [Math.ceil(50 * 1.12)] = 57 pixels high, nine lines and two gaps of 20
    make 553 pixels, and the size is turned down; 49 is chosen (55 pixels a
    line, 533 in all). *)
Example drawOneText_double_ex :
  let d := drawOneText monoMeasure ctx16 1080 1080 false (js "Noto Sans") steps3 in
  map (tableHeight monoMeasure (pairs (parseContent steps3)) 306 524
         (quoteFontName (js "Noto Sans")) (double (112 # 100))) [34; 47; 53; 50; 48; 49]
  = [379; 515; 582; 553; 524; 533]
  /\ (tableFontPx (tableFit d), tableLineHeight (tableFit d), map rowH (wrapped (tableFit d)))
     = (49, 55, [165; 165; 165])
  /\ map ftY (tableDraw d) = [418; 418; 473; 528; 602; 602; 657; 712; 786; 786; 841; 896].
Proof. vm_compute. repeat split. Qed.

(** ** Numbers *)

(** Products the exact arithmetic gets wrong: 1.12 is a double a little above
    the decimal and 0.35 one a little below, so that [25 * 1.12] is above 28
    and [90 * 0.35] is below 31.5; 1.18 is a double below the decimal. *)
Example ceilMul_ex :
  map (fun px => ceilMul px (double (112 # 100))) [9; 24; 25; 26; 50] = [11; 27; 29; 30; 57]
  /\ map (fun px => ceilMul px (double (118 # 100))) [12; 25; 50; 100] = [15; 30; 59; 118]
  /\ map rowGap [11; 29; 90] = [4; 10; 31].
Proof. vm_compute. repeat split. Qed.

(** The table fitter sees these heights: at 25px a line is 29 pixels high,
    the two rows are 58 + 10 + 29 = 97 pixels and do not fit 95, so the search
    over 24 .. 26 settles on 24 (27 pixels a line, 54 + 9 + 27 = 90); with
    28 pixels a line the size 25 would have fitted. *)
Example fitFontBinaryTable_double_ex :
  let quoted := quoteFontName (js "Noto Sans") in
  map (tableHeight monoMeasure rows2 100 200 quoted (double (112 # 100))) [24; 25; 26]
  = [90; 97; 101]
  /\ fst (fitFontBinaryTable monoMeasure ctx16 rows2 100 200 95 24 26 (js "Noto Sans")
            (double (112 # 100)))
     = mkTableFit 24 27
         [mkWrapped [js "Age"; js "limit"] [js "Maximum Age:"; js "25 years"] 54;
          mkWrapped [js "Salary"] [js "30,000"] 27].
Proof. vm_compute. split; reflexivity. Qed.

Lemma roundEven_floor (q : Q) : Qfloor q <= roundEven q.
Proof.
  unfold roundEven. destruct (q - inject_Z (Qfloor q) ?= 1 # 2)%Q; [|lia|lia].
  destruct (Z.even (Qfloor q)); lia.
Qed.

Lemma doublePos_nonneg (q : Q) : (0 <= q)%Q -> (0 <= doublePos q)%Q.
Proof.
  intros Hq. unfold doublePos. set (e := Z.max (ilog2 q - 52) (-1074)).
  apply Qmult_le_0_compat; [|apply Qpower_0_le; discriminate].
  change 0%Q with (inject_Z 0). rewrite <- Zle_Qle.
  etransitivity; [|apply roundEven_floor].
  change 0 with (Qfloor 0). apply Qfloor_resp_le.
  apply Qmult_le_0_compat; [exact Hq|apply Qpower_0_le; discriminate].
Qed.

(** Rounding to a double keeps the sign. *)
Lemma double_nonneg (q : Q) : (0 <= q)%Q -> (0 <= double q)%Q.
Proof.
  intros Hq. unfold double. destruct (q ?= 0)%Q eqn:E.
  - apply Qle_refl.
  - apply Qlt_alt in E. exfalso. exact (Qlt_not_le _ _ E Hq).
  - now apply doublePos_nonneg.
Qed.

(** A number from 1 on stays there when rounded to a double: its significand
    is at least 2^52 and its exponent is that of the number. *)
Lemma double_ge_1 (q : Q) : (1 <= q)%Q -> (1 <= double q)%Q.
Proof.
  intros Hq. unfold double.
  assert (Hpos : (0 < q)%Q) by (eapply Qlt_le_trans; [|exact Hq]; reflexivity).
  apply Qgt_alt in Hpos. rewrite Hpos.
  unfold doublePos, ilog2. rewrite (proj2 (Qle_bool_iff 1 q) Hq).
  set (k := Z.log2 (Qfloor q)).
  assert (Hf : 1 <= Qfloor q) by (change 1 with (Qfloor 1); now apply Qfloor_resp_le).
  assert (Hk : 0 <= k) by apply Z.log2_nonneg.
  assert (Hpow : 2 ^ k <= Qfloor q) by (apply Z.log2_spec; lia).
  rewrite Z.max_l by lia.
  assert (H2k : (2 ^ k <= q)%Q).
  { change (2%Q) with (inject_Z 2). rewrite <- Zpower_Qpower by exact Hk.
    eapply Qle_trans; [|apply Qfloor_le]. now rewrite <- Zle_Qle. }
  assert (Hm : 2 ^ 52 <= roundEven (q * 2 ^ (- (k - 52)))).
  { etransitivity; [|apply roundEven_floor].
    rewrite <- (Qfloor_Z (2 ^ 52)). apply Qfloor_resp_le.
    rewrite Zpower_Qpower by lia. change (inject_Z 2) with 2%Q.
    replace 52 with (k + - (k - 52)) at 1 by lia.
    rewrite Qpower_plus by discriminate.
    apply Qmult_le_compat_r; [exact H2k|apply Qpower_0_le; discriminate]. }
  apply (Qle_trans _ (2 ^ k)); [apply Qpower_1_le; [discriminate|exact Hk]|].
  replace k with (52 + (k - 52)) at 1 by lia.
  rewrite Qpower_plus by discriminate.
  apply Qmult_le_compat_r; [|apply Qpower_0_le; discriminate].
  change (2%Q) with (inject_Z 2). rewrite <- Zpower_Qpower by lia.
  now rewrite <- Zle_Qle.
Qed.

Lemma mathRound_nonneg (x : Q) : (0 <= x)%Q -> 0 <= mathRound x.
Proof.
  intros Hx. unfold mathRound. change 0 with (Qfloor 0). apply Qfloor_resp_le.
  apply (Qle_trans _ (x + 0)); [now rewrite Qplus_0_r|].
  apply Qplus_le_r. discriminate.
Qed.

(** The gap between rows is not negative. *)
Lemma rowGap_nonneg (lh : Z) : 0 <= lh -> 0 <= rowGap lh.
Proof.
  intros H. unfold rowGap. apply mathRound_nonneg, double_nonneg.
  apply Qmult_le_0_compat; [|apply double_nonneg; discriminate].
  change 0%Q with (inject_Z 0). now rewrite <- Zle_Qle.
Qed.

(** A size of at least one pixel and a line gap of at least 1 give a line
    height of at least one pixel. *)
Lemma ceilMul_pos (px : Z) (c : Q) : 1 <= px -> (1 <= c)%Q -> 0 < ceilMul px c.
Proof.
  intros Hpx Hc. unfold ceilMul.
  assert (H1 : (1 <= inject_Z px * c)%Q).
  { apply (Qle_trans _ (inject_Z px * 1)).
    - rewrite Qmult_1_r. change 1%Q with (inject_Z 1). now rewrite <- Zle_Qle.
    - apply Qmult_le_l; [|exact Hc].
      change 0%Q with (inject_Z 0). rewrite <- Zlt_Qlt. lia. }
  apply double_ge_1 in H1.
  pose proof (Qle_ceiling (double (inject_Z px * c))) as H2.
  assert (H3 : (inject_Z 1 <= inject_Z (Qceiling (double (inject_Z px * c))))%Q)
    by (eapply Qle_trans; [exact H1|exact H2]).
  rewrite <- Zle_Qle in H3. lia.
Qed.

Lemma lineGaps_ge_1 : (1 <= double (118 # 100))%Q /\ (1 <= double (112 # 100))%Q.
Proof. split; vm_compute; discriminate. Qed.

(** ** Tokens *)

Lemma concat_filter_truthy (l : list jsstring) :
  concat (filter truthy l) = concat l.
Proof.
  induction l as [|x l IH]; simpl; [reflexivity|].
  destruct x; simpl; [assumption|]. now rewrite IH.
Qed.

Lemma filter_notSpace_app (a b : jsstring) :
  filter notSpace (a ++ b) = filter notSpace a ++ filter notSpace b.
Proof. apply filter_app. Qed.

Lemma filter_notSpace_id (t : jsstring) :
  forallb notSpace t = true -> filter notSpace t = t.
Proof.
  induction t as [|c t IH]; simpl; [reflexivity|].
  intros H. apply andb_prop in H as [Hc Ht]. rewrite Hc, IH; auto.
Qed.

(** The pieces of [split(/\s+/)], glued back, are the text without its white
    space. *)
Lemma splitSpaces_concat (s : jsstring) : forall inRun cur,
  (inRun = true -> cur = []) ->
  concat (splitSpaces inRun cur s) = cur ++ filter notSpace s.
Proof.
  induction s as [|c s IH]; intros inRun cur Hrun; simpl.
  - now rewrite !app_nil_r.
  - unfold notSpace at 1. destruct (isSpace c); simpl.
    + destruct inRun.
      * rewrite IH by reflexivity. now rewrite Hrun.
      * simpl. now rewrite IH by reflexivity.
    + rewrite IH by discriminate. now rewrite <- app_assoc.
Qed.

Lemma splitSpaces_notSpace (s : jsstring) : forall inRun cur,
  forallb notSpace cur = true ->
  Forall (fun t => forallb notSpace t = true) (splitSpaces inRun cur s).
Proof.
  induction s as [|c s IH]; intros inRun cur Hcur; simpl.
  - constructor; [assumption|constructor].
  - destruct (isSpace c) eqn:Hc.
    + destruct inRun; [apply IH; reflexivity|].
      constructor; [assumption|apply IH; reflexivity].
    + apply IH. rewrite forallb_app, Hcur. simpl. unfold notSpace. now rewrite Hc.
Qed.

Lemma tokenizeWords_concat (text : jsstring) :
  concat (tokenizeWords text) = filter notSpace text.
Proof.
  unfold tokenizeWords. rewrite concat_filter_truthy.
  now rewrite splitSpaces_concat by discriminate.
Qed.

(** A token is not empty and holds no white space. *)
Lemma tokenizeWords_tokens (text : jsstring) :
  Forall (fun t => truthy t = true /\ forallb notSpace t = true) (tokenizeWords text).
Proof.
  unfold tokenizeWords. apply Forall_forall. intros t Ht.
  apply filter_In in Ht as [Hin Htr]. split; [assumption|].
  pose proof (splitSpaces_notSpace text false [] eq_refl) as H.
  rewrite Forall_forall in H. now apply H.
Qed.

(** X23: [tokenizeWords] never returns an empty token nor a token that holds
    white space, and it returns no token at all exactly for a text without
    visible characters. *)
Theorem tokenizeWords_clean (text : jsstring) :
  Forall (fun t => t <> [] /\ forallb notSpace t = true) (tokenizeWords text)
  /\ (tokenizeWords text = [] <-> filter notSpace text = []).
Proof.
  pose proof (tokenizeWords_tokens text) as Htok. split.
  - eapply Forall_impl; [|exact Htok]. cbn beta. intros t [Htr Ht].
    split; [now destruct t|exact Ht].
  - rewrite <- tokenizeWords_concat. split; [now intros ->|].
    intros Hc. destruct (tokenizeWords text) as [|t ts]; [reflexivity|].
    inversion Htok as [|? ? [Htr _] _]; subst. destruct t; discriminate.
Qed.

(** The iterator steps of a string, glued back, are the string. *)
Lemma codePoints_cons2 (c d : N) (t : jsstring) :
  codePoints (c :: d :: t) =
  if isHighSurrogate c && isLowSurrogate d
  then [c; d] :: codePoints t else [c] :: codePoints (d :: t).
Proof. reflexivity. Qed.

Lemma codePoints_concat (s : jsstring) : concat (codePoints s) = s.
Proof.
  assert (H : forall n (t : jsstring), (length t <= n)%nat -> concat (codePoints t) = t).
  { induction n as [|n IH]; intros t Hn.
    - destruct t; [reflexivity|simpl in Hn; lia].
    - destruct t as [|c [|d t]]; [reflexivity|reflexivity|].
      rewrite codePoints_cons2. destruct (isHighSurrogate c && isLowSurrogate d).
      + cbn [concat app]. rewrite IH; [reflexivity|simpl in *; lia].
      + cbn [concat app]. rewrite IH; [reflexivity|simpl in *; lia]. }
  now apply (H (length s)).
Qed.

(** An iterator step of a string is one step when iterated itself. *)
Lemma codePoints_single (s : jsstring) :
  forall ch, In ch (codePoints s) -> codePoints ch = [ch].
Proof.
  assert (H : forall n (t : jsstring), (length t <= n)%nat ->
            forall ch, In ch (codePoints t) -> codePoints ch = [ch]).
  { induction n as [|n IH]; intros t Hn ch Hin.
    - destruct t; [contradiction|simpl in Hn; lia].
    - destruct t as [|c [|d t]]; [contradiction| |].
      + destruct Hin as [<-|[]]. reflexivity.
      + rewrite codePoints_cons2 in Hin.
        destruct (isHighSurrogate c && isLowSurrogate d) eqn:Hpair.
        * destruct Hin as [<-|Hin].
          -- rewrite codePoints_cons2, Hpair. reflexivity.
          -- apply (IH t); [simpl in *; lia|assumption].
        * destruct Hin as [<-|Hin]; [reflexivity|].
          apply (IH (d :: t)); [simpl in *; lia|assumption]. }
  now apply (H (length s)).
Qed.

Lemma codePoints_notSpace (t : jsstring) :
  forallb notSpace t = true ->
  forall ch, In ch (codePoints t) -> forallb notSpace ch = true.
Proof.
  intros Ht ch Hch. apply forallb_forall. intros c Hc.
  rewrite forallb_forall in Ht. apply Ht.
  rewrite <- (codePoints_concat t). apply in_concat. now exists ch.
Qed.

(** A string without white space is its own single token. *)
Lemma splitSpaces_token (t : jsstring) : forall inRun cur,
  forallb notSpace t = true -> splitSpaces inRun cur t = [cur ++ t].
Proof.
  induction t as [|c t IH]; intros inRun cur Ht; simpl.
  - now rewrite app_nil_r.
  - simpl in Ht. apply andb_prop in Ht as [Hc Ht].
    unfold notSpace in Hc. destruct (isSpace c); [discriminate|].
    rewrite IH by assumption. now rewrite <- app_assoc.
Qed.

Lemma tokenizeWords_token (t : jsstring) :
  truthy t = true -> forallb notSpace t = true -> tokenizeWords t = [t].
Proof.
  intros Htr Ht. unfold tokenizeWords. rewrite splitSpaces_token by assumption.
  simpl. now rewrite Htr.
Qed.

(** A blank and a token more at the end of a string: one token more. *)
Lemma splitSpaces_snoc (t : jsstring) :
  truthy t = true -> forallb notSpace t = true ->
  forall a inRun cur, (inRun = true -> cur = []) ->
  filter truthy (splitSpaces inRun cur (a ++ SPACE :: t))
  = filter truthy (splitSpaces inRun cur a) ++ [t].
Proof.
  intros Htr Ht. induction a as [|c a IH]; intros inRun cur Hrun.
  - cbn [app splitSpaces]. change (isSpace SPACE) with true. cbv iota.
    rewrite splitSpaces_token by assumption. cbn [app].
    destruct inRun.
    + rewrite (Hrun eq_refl). simpl. now rewrite Htr.
    + simpl. rewrite Htr. now destruct (truthy cur).
  - cbn [app splitSpaces]. destruct (isSpace c).
    + destruct inRun; [now apply IH|].
      cbn [filter]. destruct (truthy cur); cbn [app]; now rewrite IH.
    + apply IH. discriminate.
Qed.

Lemma tokenizeWords_snoc (a t : jsstring) :
  truthy t = true -> forallb notSpace t = true ->
  tokenizeWords (a ++ SPACE :: t) = tokenizeWords a ++ [t].
Proof.
  intros Htr Ht. unfold tokenizeWords. now apply splitSpaces_snoc.
Qed.

(** X4: cutting into words undoes joining with blanks: a list of non-empty
    words without white space, joined by single blanks and tokenized, is that
    list again. *)
Theorem tokenizeWords_joinSpaces (tokens : list jsstring)
    (Htokens : Forall (fun t => truthy t = true /\ forallb notSpace t = true) tokens) :
  tokenizeWords (joinSpaces tokens) = tokens.
Proof.
  destruct tokens as [|t rest]; [reflexivity|].
  inversion Htokens as [|? ? [Htr Ht] Hrest]; subst. unfold joinSpaces.
  assert (H : forall acc, tokenizeWords
                (fold_left (fun line t' => line ++ [SPACE] ++ t') rest acc)
              = tokenizeWords acc ++ rest).
  { clear Htokens Htr Ht. induction rest as [|u rest IH]; intros acc; cbn [fold_left].
    - now rewrite app_nil_r.
    - inversion Hrest as [|? ? [Hu1 Hu2] Hrest']; subst.
      rewrite (IH Hrest'). cbn [app]. rewrite tokenizeWords_snoc by assumption.
      now rewrite <- app_assoc. }
  rewrite H. now rewrite (tokenizeWords_token t) by assumption.
Qed.

Lemma tokenizeWords_joinSpaces_witness :
  Forall (fun t => truthy t = true /\ forallb notSpace t = true) [js "ab"; js "c"; js "def"] /\
  tokenizeWords (joinSpaces [js "ab"; js "c"; js "def"]) = [js "ab"; js "c"; js "def"].
Proof.
  assert (H : Forall (fun t => truthy t = true /\ forallb notSpace t = true)
                [js "ab"; js "c"; js "def"])
    by (repeat constructor).
  split; [exact H|]. exact (tokenizeWords_joinSpaces H).
Defined.

(** ** Word wrapper *)

Section WrapperProperties.

Variable measureText : Font -> jsstring -> Q.
Variable ctx : Ctx.
Variable maxW : Q.

Let nonEmpty (l : jsstring) : Prop := l <> [].

Lemma truthy_nonEmpty (l : jsstring) : truthy l = true -> l <> [].
Proof. destruct l; [discriminate|discriminate]. Qed.

(** The character loop only pushes chunks it has tested for emptiness, and
    moves code units from the token to the lines without loss. *)
Lemma splitStep_fold (cps : list jsstring) : forall lines chunk lines' chunk',
  fold_left (splitStep measureText ctx maxW) cps (lines, chunk) = (lines', chunk') ->
  (Forall nonEmpty lines -> Forall nonEmpty lines') /\
  concat lines' ++ chunk' = concat lines ++ chunk ++ concat cps.
Proof.
  induction cps as [|ch cps IH]; intros lines chunk lines' chunk' H; simpl in H.
  - injection H as <- <-. split; [auto|]. simpl. now rewrite app_nil_r.
  - destruct (fitsWidth measureText ctx (chunk ++ ch) maxW).
    + apply IH in H as [HF HC]. split; [assumption|].
      rewrite HC. simpl. now rewrite <- !app_assoc.
    + destruct (truthy chunk) eqn:Hchunk.
      * apply IH in H as [HF HC]. split.
        -- intros HL. apply HF. apply Forall_app. split; [assumption|].
           constructor; [now apply truthy_nonEmpty|constructor].
        -- rewrite HC, concat_app. simpl. now rewrite app_nil_r, <- !app_assoc.
      * apply IH in H as [HF HC]. split; [assumption|].
        rewrite HC. destruct chunk; [reflexivity|discriminate].
Qed.

(** One token more: the lines stay non-empty, and the lines with the pending
    line hold the token after what they held. *)
Lemma wrapStep_inv (t : jsstring) lines line lines' line' :
  wrapStep measureText ctx maxW (lines, line) t = (lines', line') ->
  forallb notSpace t = true ->
  (Forall nonEmpty lines -> Forall nonEmpty lines') /\
  filter notSpace (concat lines' ++ line') = filter notSpace (concat lines ++ line) ++ t.
Proof.
  intros H Ht. unfold wrapStep in H.
  destruct (fitsWidth measureText ctx _ maxW) in H.
  - injection H as <- <-. split; [auto|].
    destruct line as [|c line]; simpl truthy; cbv iota.
    + now rewrite app_nil_r, !filter_notSpace_app, (filter_notSpace_id t Ht).
    + rewrite !filter_notSpace_app.
      change (filter notSpace (SPACE :: t)) with (filter notSpace t).
      now rewrite (filter_notSpace_id t Ht), app_assoc.
  - destruct (truthy line) eqn:Hline.
    + injection H as <- <-. split.
      * intros HL. apply Forall_app. split; [assumption|].
        constructor; [now apply truthy_nonEmpty|constructor].
      * rewrite concat_app. simpl. rewrite app_nil_r.
        now rewrite !filter_notSpace_app, (filter_notSpace_id t Ht).
    + destruct (fold_left (splitStep measureText ctx maxW) (codePoints t) (lines, []))
        as [ls chunk] eqn:Hfold.
      apply splitStep_fold in Hfold as [HF HC].
      rewrite codePoints_concat in HC. simpl in HC.
      assert (Hl' : line' = chunk) by (injection H as _ <-; now destruct chunk).
      injection H as <- _. subst line'. split; [assumption|].
      rewrite HC. destruct line; [|discriminate].
      now rewrite app_nil_r, !filter_notSpace_app, (filter_notSpace_id t Ht).
Qed.

Lemma wrapStep_fold (tokens : list jsstring) : forall lines line lines' line',
  fold_left (wrapStep measureText ctx maxW) tokens (lines, line) = (lines', line') ->
  Forall (fun t => forallb notSpace t = true) tokens ->
  (Forall nonEmpty lines -> Forall nonEmpty lines') /\
  filter notSpace (concat lines' ++ line') =
    filter notSpace (concat lines ++ line) ++ concat tokens.
Proof.
  induction tokens as [|t tokens IH]; intros lines line lines' line' H Htok;
    cbn [fold_left] in H.
  - injection H as <- <-. split; [auto|]. simpl. now rewrite app_nil_r.
  - inversion Htok as [|? ? Ht Hrest]; subst.
    destruct (wrapStep measureText ctx maxW (lines, line) t) as [l1 ln1] eqn:Hstep.
    apply wrapStep_inv in Hstep as [HF1 HC1]; [|assumption].
    apply IH in H as [HF HC]; [|assumption]. split; [auto|].
    rewrite HC, HC1. simpl. now rewrite <- app_assoc.
Qed.

(** C10: every line the word wrapper returns is a non-empty string, whatever
    the text, the width and the measurer. *)
Theorem wrapByWidth_lines_nonempty (text : jsstring) :
  Forall (fun l => l <> []) (wrapByWidth measureText ctx text maxW).
Proof.
  unfold wrapByWidth. destruct (truthy text); [|constructor].
  destruct (fold_left (wrapStep measureText ctx maxW) (tokenizeWords text) ([], []))
    as [lines line] eqn:Hfold.
  apply wrapStep_fold in Hfold as [HF _].
  - specialize (HF (Forall_nil _)). destruct (truthy line) eqn:Hline; [|assumption].
    apply Forall_app. split; [assumption|].
    constructor; [now apply truthy_nonEmpty|constructor].
  - eapply Forall_impl; [|apply tokenizeWords_tokens]. now intros t [_ Ht].
Qed.

(** C4: the word wrapper drops no character: the lines, glued together and
    stripped of the blanks that join words, are the tokens of the text glued
    together, that is the text without its white space, in the same order. *)
Theorem wrapByWidth_keeps_characters (text : jsstring) :
  filter notSpace (concat (wrapByWidth measureText ctx text maxW))
    = concat (tokenizeWords text)
  /\ concat (tokenizeWords text) = filter notSpace text.
Proof.
  split; [|apply tokenizeWords_concat].
  unfold wrapByWidth. destruct (truthy text) eqn:Htext.
  - destruct (fold_left (wrapStep measureText ctx maxW) (tokenizeWords text) ([], []))
      as [lines line] eqn:Hfold.
    apply wrapStep_fold in Hfold as [_ HC].
    + simpl in HC. rewrite <- HC. destruct (truthy line) eqn:Hline.
      * rewrite concat_app. simpl. now rewrite app_nil_r.
      * destruct line; [now rewrite app_nil_r|discriminate].
    + eapply Forall_impl; [|apply tokenizeWords_tokens]. now intros t [_ Ht].
  - destruct text; [reflexivity|discriminate].
Qed.

(** Widths.  A line is accounted for when it fits, or is a single code point,
    or is one of the tokens [rest] taken whole. *)
Let accounted (rest : list jsstring) (l : jsstring) : Prop :=
  fitsWidth measureText ctx l maxW = true \/ codePoints l = [l] \/ In l rest.

Lemma splitStep_fold_widths (rest cps : list jsstring) : forall lines chunk lines' chunk',
  fold_left (splitStep measureText ctx maxW) cps (lines, chunk) = (lines', chunk') ->
  (forall ch, In ch cps -> codePoints ch = [ch]) ->
  Forall (accounted rest) lines -> (chunk = [] \/ accounted rest chunk) ->
  Forall (accounted rest) lines' /\ (chunk' = [] \/ accounted rest chunk').
Proof.
  induction cps as [|ch cps IH]; intros lines chunk lines' chunk' H Hcps HL HC;
    cbn [fold_left] in H.
  - injection H as <- <-. now split.
  - assert (Hch : codePoints ch = [ch]) by (apply Hcps; now left).
    assert (Hcps' : forall c, In c cps -> codePoints c = [c])
      by (intros c Hc; apply Hcps; now right).
    unfold splitStep at 2 in H.
    destruct (fitsWidth measureText ctx (chunk ++ ch) maxW) eqn:Hfit.
    + apply (IH _ _ _ _ H Hcps' HL). right. now left.
    + apply (IH _ _ _ _ H Hcps').
      * destruct (truthy chunk) eqn:Htr; [|assumption].
        apply Forall_app. split; [assumption|]. constructor; [|constructor].
        destruct HC as [->|HC]; [discriminate|assumption].
      * right. right. now left.
Qed.

Lemma wrapStep_widths (rest : list jsstring) (t : jsstring) lines line lines' line' :
  wrapStep measureText ctx maxW (lines, line) t = (lines', line') ->
  (line = [] \/ In t rest) ->
  Forall (accounted rest) lines -> (line = [] \/ accounted rest line) ->
  Forall (accounted rest) lines' /\ (line' = [] \/ accounted rest line').
Proof.
  intros H Ht HL HC. unfold wrapStep in H.
  destruct (fitsWidth measureText ctx _ maxW) eqn:Hfit in H.
  - injection H as <- <-. split; [assumption|]. right. now left.
  - destruct (truthy line) eqn:Hline.
    + injection H as <- <-.
      assert (line <> []) by now apply truthy_nonEmpty.
      split.
      * apply Forall_app. split; [assumption|]. constructor; [|constructor].
        destruct HC; [contradiction|assumption].
      * right. right. right. destruct Ht; [contradiction|assumption].
    + destruct (fold_left (splitStep measureText ctx maxW) (codePoints t) (lines, []))
        as [ls chunk] eqn:Hfold.
      apply (splitStep_fold_widths (rest:=rest)) in Hfold as [HL' HC'];
        [|apply codePoints_single|assumption|now left].
      assert (Hl' : line' = chunk) by (injection H as _ <-; now destruct chunk).
      injection H as <- _. subst line'. now split.
Qed.

Lemma wrapStep_fold_widths (rest tokens : list jsstring) : forall lines line lines' line',
  fold_left (wrapStep measureText ctx maxW) tokens (lines, line) = (lines', line') ->
  (forall t, In t tokens -> In t rest) ->
  Forall (accounted rest) lines -> (line = [] \/ accounted rest line) ->
  Forall (accounted rest) lines' /\ (line' = [] \/ accounted rest line').
Proof.
  induction tokens as [|t tokens IH]; intros lines line lines' line' H Hin HL HC;
    cbn [fold_left] in H.
  - injection H as <- <-. now split.
  - destruct (wrapStep measureText ctx maxW (lines, line) t) as [l1 ln1] eqn:Hstep.
    apply (wrapStep_widths (rest:=rest)) in Hstep as [HL1 HC1];
      [|right; apply Hin; now left|assumption|assumption].
    apply (IH _ _ _ _ H); [|assumption|assumption].
    intros u Hu. apply Hin. now right.
Qed.

(** X1: what the wrapper does guarantee about widths, for every measurer:
    every line it returns fits the width, or is a single code point, or is a
    whole token of the text other than the first one. *)
Lemma wrapByWidth_line_widths (text : jsstring) :
  Forall (fun l => fitsWidth measureText ctx l maxW = true
                   \/ codePoints l = [l]
                   \/ In l (tl (tokenizeWords text)))
    (wrapByWidth measureText ctx text maxW).
Proof.
  unfold wrapByWidth. destruct (truthy text); [|constructor].
  destruct (fold_left (wrapStep measureText ctx maxW) (tokenizeWords text) ([], []))
    as [lines line] eqn:Hfold.
  assert (Hinv : Forall (accounted (tl (tokenizeWords text))) lines /\
                 (line = [] \/ accounted (tl (tokenizeWords text)) line)).
  { destruct (tokenizeWords text) as [|t1 rest]; cbn [fold_left tl] in *.
    - injection Hfold as <- <-. split; [constructor|now left].
    - destruct (wrapStep measureText ctx maxW ([], []) t1) as [l1 ln1] eqn:Hstep.
      apply (wrapStep_widths (rest:=rest)) in Hstep as [HL1 HC1];
        [|now left|constructor|now left].
      eapply wrapStep_fold_widths; [exact Hfold|auto|assumption|assumption]. }
  destruct Hinv as [HL HC]. destruct (truthy line) eqn:Hline; [|exact HL].
  apply Forall_app. split; [exact HL|]. constructor; [|constructor].
  destruct HC as [->|HC]; [discriminate|exact HC].
Qed.

(** Re-wrapping.  A line replays when wrapping it alone runs through the
    token loop with nothing pushed and the line itself pending. *)
Let replays (l : jsstring) : Prop :=
  truthy l = true /\
  fold_left (wrapStep measureText ctx maxW) (tokenizeWords l) ([], []) = ([], l).

Lemma replays_wrap (l : jsstring) :
  replays l -> wrapByWidth measureText ctx l maxW = [l].
Proof.
  intros [Htr Hfold]. unfold wrapByWidth. now rewrite Htr, Hfold, Htr.
Qed.

Lemma replays_token (t : jsstring) :
  truthy t = true -> forallb notSpace t = true ->
  fitsWidth measureText ctx t maxW = true -> replays t.
Proof.
  intros Htr Ht Hfit. split; [assumption|].
  rewrite tokenizeWords_token by assumption. cbn [fold_left]. unfold wrapStep.
  cbn [truthy]. now rewrite Hfit.
Qed.

Lemma replays_codePoint (c : jsstring) :
  truthy c = true -> forallb notSpace c = true -> codePoints c = [c] -> replays c.
Proof.
  intros Htr Hc Hone.
  destruct (fitsWidth measureText ctx c maxW) eqn:Hfit; [now apply replays_token|].
  split; [assumption|].
  rewrite tokenizeWords_token by assumption. cbn [fold_left]. unfold wrapStep.
  cbn [truthy]. rewrite Hfit, Hone. cbn [fold_left]. unfold splitStep.
  cbn [app truthy]. now rewrite Hfit, Htr.
Qed.

Lemma replays_snoc (line t : jsstring) :
  replays line -> truthy t = true -> forallb notSpace t = true ->
  fitsWidth measureText ctx (line ++ [SPACE] ++ t) maxW = true ->
  replays (line ++ [SPACE] ++ t).
Proof.
  intros [Hline Hfold] Htr Ht Hfit. split; [now destruct line|].
  cbn [app]. rewrite tokenizeWords_snoc by assumption.
  rewrite fold_left_app, Hfold. cbn [fold_left]. unfold wrapStep.
  now rewrite Hline, Hfit.
Qed.

(** A line is settled when it replays, or begins with one of the tokens
    [rest] that does not fit by itself. *)
Let settled (rest : list jsstring) (l : jsstring) : Prop :=
  replays l \/
  exists t more, In t rest /\ fitsWidth measureText ctx t maxW = false /\ l = t ++ more.

Let chunkOk (c : jsstring) : Prop :=
  truthy c = true /\ forallb notSpace c = true /\
  (fitsWidth measureText ctx c maxW = true \/ codePoints c = [c]).

Lemma chunkOk_replays (c : jsstring) : chunkOk c -> replays c.
Proof.
  intros (Htr & Hc & [Hfit|Hone]); [now apply replays_token|now apply replays_codePoint].
Qed.

Lemma splitStep_fold_rewrap (rest cps : list jsstring) : forall lines chunk lines' chunk',
  fold_left (splitStep measureText ctx maxW) cps (lines, chunk) = (lines', chunk') ->
  (forall ch, In ch cps -> codePoints ch = [ch] /\ forallb notSpace ch = true) ->
  Forall (settled rest) lines -> (chunk = [] \/ chunkOk chunk) ->
  Forall (settled rest) lines' /\ (chunk' = [] \/ chunkOk chunk').
Proof.
  induction cps as [|ch cps IH]; intros lines chunk lines' chunk' H Hcps HL HC;
    cbn [fold_left] in H.
  - injection H as <- <-. now split.
  - destruct (Hcps ch (or_introl eq_refl)) as [Hone Hch].
    assert (Htr : truthy ch = true) by (destruct ch; [discriminate|reflexivity]).
    assert (Hcps' : forall c, In c cps -> codePoints c = [c] /\ forallb notSpace c = true)
      by (intros c Hc; apply Hcps; now right).
    unfold splitStep at 2 in H.
    destruct (fitsWidth measureText ctx (chunk ++ ch) maxW) eqn:Hfit.
    + apply (IH _ _ _ _ H Hcps' HL). right. split; [|split].
      * destruct chunk; [exact Htr|reflexivity].
      * rewrite forallb_app, Hch.
        destruct HC as [->|(_ & Hc & _)]; [reflexivity|now rewrite Hc].
      * now left.
    + apply (IH _ _ _ _ H Hcps').
      * destruct (truthy chunk) eqn:Hchunk; [|assumption].
        apply Forall_app. split; [assumption|]. constructor; [|constructor].
        left. apply chunkOk_replays. destruct HC as [->|HC]; [discriminate|assumption].
      * right. split; [assumption|]. split; [assumption|now right].
Qed.

Lemma wrapStep_rewrap (rest : list jsstring) (t : jsstring) lines line lines' line' :
  wrapStep measureText ctx maxW (lines, line) t = (lines', line') ->
  truthy t = true -> forallb notSpace t = true ->
  (line = [] \/ In t rest) ->
  Forall (settled rest) lines -> (line = [] \/ settled rest line) ->
  Forall (settled rest) lines' /\ (line' = [] \/ settled rest line').
Proof.
  intros H Htr Ht Hin HL HC. unfold wrapStep in H.
  destruct (truthy line) eqn:Hline.
  - assert (Hne : line <> []) by now apply truthy_nonEmpty.
    destruct HC as [HC|HC]; [contradiction|].
    destruct Hin as [Hin|Hin]; [contradiction|].
    destruct (fitsWidth measureText ctx (line ++ [SPACE] ++ t) maxW) eqn:Hfit.
    + injection H as <- <-. split; [assumption|]. right.
      destruct HC as [Hrep|(t0 & more & Ht0 & Hwide & ->)].
      * left. now apply replays_snoc.
      * right. exists t0, (more ++ [SPACE] ++ t). now rewrite <- app_assoc.
    + injection H as <- <-. split.
      * apply Forall_app. split; [assumption|]. now constructor.
      * right. destruct (fitsWidth measureText ctx t maxW) eqn:Hfit'.
        -- left. now apply replays_token.
        -- right. exists t, []. now rewrite app_nil_r.
  - destruct (fitsWidth measureText ctx t maxW) eqn:Hfit.
    + injection H as <- <-. split; [assumption|]. right. left. now apply replays_token.
    + destruct (fold_left (splitStep measureText ctx maxW) (codePoints t) (lines, []))
        as [ls chunk] eqn:Hfold.
      apply (splitStep_fold_rewrap (rest:=rest)) in Hfold as [HL' HC'];
        [| |assumption|now left].
      * assert (Hl' : line' = chunk) by (injection H as _ <-; now destruct chunk).
        injection H as <- _. subst line'. split; [assumption|].
        destruct HC' as [->|HC']; [now left|]. right. left. now apply chunkOk_replays.
      * intros ch Hch. split; [now apply (codePoints_single t)|].
        now apply (codePoints_notSpace t).
Qed.

Lemma wrapStep_fold_rewrap (rest tokens : list jsstring) : forall lines line lines' line',
  fold_left (wrapStep measureText ctx maxW) tokens (lines, line) = (lines', line') ->
  (forall t, In t tokens ->
     In t rest /\ truthy t = true /\ forallb notSpace t = true) ->
  Forall (settled rest) lines -> (line = [] \/ settled rest line) ->
  Forall (settled rest) lines' /\ (line' = [] \/ settled rest line').
Proof.
  induction tokens as [|t tokens IH]; intros lines line lines' line' H Hin HL HC;
    cbn [fold_left] in H.
  - injection H as <- <-. now split.
  - destruct (wrapStep measureText ctx maxW (lines, line) t) as [l1 ln1] eqn:Hstep.
    destruct (Hin t (or_introl eq_refl)) as (Hrest & Htr & Ht).
    apply (wrapStep_rewrap (rest:=rest)) in Hstep as [HL1 HC1];
      [|assumption|assumption|now right|assumption|assumption].
    apply (IH _ _ _ _ H); [|assumption|assumption].
    intros u Hu. apply Hin. now right.
Qed.

(** X2: what the wrapper does guarantee about wrapping again, for every
    measurer: a returned line, wrapped as a paragraph of its own, comes back
    as that one line, unless it begins with a token, not the first of the
    text, that does not fit by itself. *)
Lemma wrapByWidth_rewrap (text : jsstring) :
  Forall (fun l => wrapByWidth measureText ctx l maxW = [l]
                   \/ exists t more, In t (tl (tokenizeWords text))
                         /\ fitsWidth measureText ctx t maxW = false /\ l = t ++ more)
    (wrapByWidth measureText ctx text maxW).
Proof.
  assert (Hgoal : Forall (settled (tl (tokenizeWords text)))
                    (wrapByWidth measureText ctx text maxW)).
  { unfold wrapByWidth. destruct (truthy text); [|constructor].
    destruct (fold_left (wrapStep measureText ctx maxW) (tokenizeWords text) ([], []))
      as [lines line] eqn:Hfold.
    assert (Hinv : Forall (settled (tl (tokenizeWords text))) lines /\
                   (line = [] \/ settled (tl (tokenizeWords text)) line)).
    { pose proof (tokenizeWords_tokens text) as Htok. rewrite Forall_forall in Htok.
      destruct (tokenizeWords text) as [|t1 rest]; cbn [fold_left tl] in *.
      - injection Hfold as <- <-. split; [constructor|now left].
      - destruct (wrapStep measureText ctx maxW ([], []) t1) as [l1 ln1] eqn:Hstep.
        destruct (Htok t1 (or_introl eq_refl)) as [Htr1 Ht1].
        apply (wrapStep_rewrap (rest:=rest)) in Hstep as [HL1 HC1];
          [|assumption|assumption|now left|constructor|now left].
        eapply wrapStep_fold_rewrap; [exact Hfold| |assumption|assumption].
        intros u Hu. split; [assumption|]. apply Htok. now right. }
    destruct Hinv as [HL HC]. destruct (truthy line) eqn:Hline; [|exact HL].
    apply Forall_app. split; [exact HL|]. constructor; [|constructor].
    destruct HC as [->|HC]; [discriminate|exact HC]. }
  eapply Forall_impl; [|exact Hgoal].
  intros l [Hrep|Hwide]; [left; now apply replays_wrap|now right].
Qed.

(** The two facts the fitters and the drawing code need of the wrapper, in
    the form they are used there. *)
Lemma wrapByWidth_chars (text : jsstring) :
  filter notSpace (concat (wrapByWidth measureText ctx text maxW)) = filter notSpace text.
Proof.
  rewrite <- (tokenizeWords_concat text).
  unfold wrapByWidth. destruct (truthy text) eqn:Htext.
  - destruct (fold_left (wrapStep measureText ctx maxW) (tokenizeWords text) ([], []))
      as [lines line] eqn:Hfold.
    apply wrapStep_fold in Hfold as [_ HC].
    + simpl in HC. rewrite <- HC. destruct (truthy line) eqn:Hline.
      * rewrite concat_app. simpl. now rewrite app_nil_r.
      * destruct line; [now rewrite app_nil_r|discriminate].
    + eapply Forall_impl; [|apply tokenizeWords_tokens]. now intros t [_ Ht].
  - destruct text; [reflexivity|discriminate].
Qed.

Lemma wrapByWidth_truthy (text : jsstring) :
  Forall (fun l => truthy l = true) (wrapByWidth measureText ctx text maxW).
Proof.
  unfold wrapByWidth. destruct (truthy text); [|constructor].
  destruct (fold_left (wrapStep measureText ctx maxW) (tokenizeWords text) ([], []))
    as [lines line] eqn:Hfold.
  apply wrapStep_fold in Hfold as [HF _].
  - specialize (HF (Forall_nil _)).
    assert (HT : Forall (fun l => truthy l = true) lines).
    { eapply Forall_impl; [|exact HF]. intros l Hl. destruct l; [now elim Hl|reflexivity]. }
    destruct (truthy line) eqn:Hline; [|exact HT].
    apply Forall_app. split; [exact HT|]. now constructor.
  - eapply Forall_impl; [|apply tokenizeWords_tokens]. now intros t [_ Ht].
Qed.

(** A text of white space only has no token, hence no line. *)
Lemma wrapByWidth_blank (text : jsstring) :
  filter notSpace text = [] -> wrapByWidth measureText ctx text maxW = [].
Proof.
  intros H. unfold wrapByWidth. destruct (truthy text); [|reflexivity].
  assert (Htok : tokenizeWords text = []).
  { pose proof (tokenizeWords_concat text) as Hc. rewrite H in Hc.
    pose proof (tokenizeWords_tokens text) as Ht.
    destruct (tokenizeWords text) as [|t ts]; [reflexivity|].
    inversion Ht as [|? ? [Htr _] _]; subst.
    destruct t; [discriminate|discriminate]. }
  rewrite Htok. reflexivity.
Qed.

(** X5: the wrapper returns no line exactly when the text holds no character
    other than white space (the empty string included). *)
Theorem wrapByWidth_no_lines_iff (text : jsstring) :
  wrapByWidth measureText ctx text maxW = [] <-> filter notSpace text = [].
Proof.
  split.
  - intros H. rewrite <- wrapByWidth_chars, H. reflexivity.
  - apply wrapByWidth_blank.
Qed.

(** Words that fit.  The state of the token loop when every token fits by
    itself: the lines fit, the pending line fits, and lines and pending line,
    cut into tokens again, are the tokens consumed. *)
Lemma wrapStep_fold_words (tokens : list jsstring) : forall lines line lines' line',
  fold_left (wrapStep measureText ctx maxW) tokens (lines, line) = (lines', line') ->
  Forall (fun t => truthy t = true /\ forallb notSpace t = true
                   /\ fitsWidth measureText ctx t maxW = true) tokens ->
  Forall (fun l => fitsWidth measureText ctx l maxW = true) lines ->
  (line = [] \/ fitsWidth measureText ctx line maxW = true) ->
  Forall (fun l => fitsWidth measureText ctx l maxW = true) lines' /\
  (line' = [] \/ fitsWidth measureText ctx line' maxW = true) /\
  concat (map tokenizeWords lines') ++ tokenizeWords line'
    = (concat (map tokenizeWords lines) ++ tokenizeWords line) ++ tokens.
Proof.
  induction tokens as [|t tokens IH]; intros lines line lines' line' H Htok HL HC;
    cbn [fold_left] in H.
  - injection H as <- <-. now rewrite app_nil_r.
  - inversion Htok as [|? ? (Htr & Ht & Hfit) Hrest]; subst.
    destruct (wrapStep measureText ctx maxW (lines, line) t) as [l1 ln1] eqn:Hstep.
    assert (Hone : Forall (fun l => fitsWidth measureText ctx l maxW = true) l1 /\
                   (ln1 = [] \/ fitsWidth measureText ctx ln1 maxW = true) /\
                   concat (map tokenizeWords l1) ++ tokenizeWords ln1
                   = (concat (map tokenizeWords lines) ++ tokenizeWords line) ++ [t]).
    { unfold wrapStep in Hstep. destruct (truthy line) eqn:Hline.
      - destruct (fitsWidth measureText ctx (line ++ [SPACE] ++ t) maxW) eqn:Hjoin.
        + injection Hstep as <- <-. split; [assumption|]. split; [now right|].
          cbn [app]. rewrite tokenizeWords_snoc by assumption. now rewrite app_assoc.
        + injection Hstep as <- <-. split.
          * apply Forall_app. split; [assumption|]. constructor; [|constructor].
            destruct HC as [->|HC]; [discriminate|assumption].
          * split; [now right|].
            rewrite map_app, concat_app. cbn [map concat].
            rewrite app_nil_r. rewrite (tokenizeWords_token t) by assumption. reflexivity.
      - rewrite Hfit in Hstep. injection Hstep as <- <-.
        split; [assumption|]. split; [now right|].
        destruct line; [|discriminate]. rewrite (tokenizeWords_token t) by assumption.
        change (tokenizeWords []) with (@nil jsstring). now rewrite app_nil_r. }
    destruct Hone as (HL1 & HC1 & HT1).
    destruct (IH _ _ _ _ H Hrest HL1 HC1) as (HL' & HC' & HT').
    split; [assumption|]. split; [assumption|].
    rewrite HT', HT1. now rewrite <- app_assoc.
Qed.

(** X3: when every word of the text fits the width by itself, every line the
    wrapper returns fits the width, and no word is cut: the lines, cut into
    words again, give the words of the text in order. *)
Theorem wrapByWidth_words_fit (text : jsstring)
    (Hfit : Forall (fun t => fitsWidth measureText ctx t maxW = true) (tokenizeWords text)) :
  Forall (fun l => fitsWidth measureText ctx l maxW = true)
    (wrapByWidth measureText ctx text maxW) /\
  concat (map tokenizeWords (wrapByWidth measureText ctx text maxW)) = tokenizeWords text.
Proof.
  unfold wrapByWidth. destruct (truthy text) eqn:Htext.
  - destruct (fold_left (wrapStep measureText ctx maxW) (tokenizeWords text) ([], []))
      as [lines line] eqn:Hfold.
    apply wrapStep_fold_words in Hfold as (HL & HC & HT);
      [| |constructor|now left].
    + cbn [map concat app] in HT.
      destruct (truthy line) eqn:Hline.
      * split.
        -- apply Forall_app. split; [assumption|]. constructor; [|constructor].
           destruct HC as [->|HC]; [discriminate|assumption].
        -- rewrite map_app, concat_app. cbn [map concat]. now rewrite app_nil_r.
      * split; [assumption|]. destruct line; [|discriminate].
        change (tokenizeWords []) with (@nil jsstring) in HT. now rewrite app_nil_r in HT.
    + pose proof (tokenizeWords_tokens text) as Htok.
      rewrite Forall_forall in *. intros t Hin.
      destruct (Htok t Hin). auto.
  - destruct text; [|discriminate]. split; [constructor|reflexivity].
Qed.

End WrapperProperties.

Lemma wrapByWidth_words_fit_witness :
  Forall (fun t => fitsWidth monoMeasure ctx16 t 110 = true)
    (tokenizeWords (js "  hello   world foo ")) /\
  Forall (fun l => fitsWidth monoMeasure ctx16 l 110 = true)
    (wrapByWidth monoMeasure ctx16 (js "  hello   world foo ") 110).
Proof.
  assert (H : Forall (fun t => fitsWidth monoMeasure ctx16 t 110 = true)
                (tokenizeWords (js "  hello   world foo ")))
    by (repeat constructor).
  split; [exact H|].
  exact (proj1 (@wrapByWidth_words_fit monoMeasure ctx16 110 (js "  hello   world foo ") H)).
Defined.

(** C1 fails on the code: a token that does not fit is split by characters
    only when no line is pending.  In "a bbbb" at 10 pixels a code unit and
    [maxW = 25], "bbbb" comes after the pending line "a"; it is returned whole,
    40 pixels wide, although it has four code points and one of them fits. *)
Theorem wrapByWidth_wide_token_overflows :
  wrapByWidth monoMeasure ctx16 (js "a bbbb") 25 = [js "a"; js "bbbb"] /\
  (0 < 25)%Q /\
  monoMeasure (font ctx16) (js "bbbb") == 40 /\
  fitsWidth monoMeasure ctx16 (js "bbbb") 25 = false /\
  codePoints (js "bbbb") = [js "b"; js "b"; js "b"; js "b"] /\
  fitsWidth monoMeasure ctx16 (js "b") 25 = true.
Proof. repeat split. Qed.

(** C9 fails on the code, by the same missed case: the line "bbbb" that
    wrapping "a bbbb" returns is itself wrapped into two lines, since as a
    paragraph of its own it is the first token and is split. *)
Theorem wrapByWidth_rewrap_differs :
  In (js "bbbb") (wrapByWidth monoMeasure ctx16 (js "a bbbb") 25) /\
  wrapByWidth monoMeasure ctx16 (js "bbbb") 25 = [js "bb"; js "bb"] /\
  wrapByWidth monoMeasure ctx16 (js "bbbb") 25 <> [js "bbbb"].
Proof.
  split; [right; left; reflexivity|]. split; [reflexivity|discriminate].
Qed.

(** ** The binary search *)

Lemma midpoint_bounds (lo hi : Z) : lo <= hi -> lo <= (lo + hi) / 2 <= hi.
Proof.
  intros H. split.
  - apply Z.div_le_lower_bound; lia.
  - apply Z.div_le_upper_bound; lia.
Qed.

Lemma searchBest_eq (ok : Z -> bool) (lo hi best : Z) :
  searchBest ok lo hi best =
  if lo <=? hi
  then if ok ((lo + hi) / 2)
       then searchBest ok ((lo + hi) / 2 + 1) hi ((lo + hi) / 2)
       else searchBest ok lo ((lo + hi) / 2 - 1) best
  else best.
Proof.
  funelim (searchBest ok lo hi best); destruct (lo <=? hi) eqn:E;
    try lia; reflexivity.
Qed.

(** Induction on the width of the interval still to search. *)
Lemma interval_ind (P : Z -> Z -> Prop) :
  (forall lo hi, hi < lo -> P lo hi) ->
  (forall lo hi, lo <= hi ->
     P ((lo + hi) / 2 + 1) hi -> P lo ((lo + hi) / 2 - 1) -> P lo hi) ->
  forall lo hi, P lo hi.
Proof.
  intros Hstop Hstep.
  assert (H : forall n lo hi, (Z.to_nat (hi - lo + 1) <= n)%nat -> P lo hi).
  { induction n as [|n IH]; intros lo hi Hn.
    - apply Hstop. lia.
    - destruct (Z_le_gt_dec lo hi) as [Hle|Hgt]; [|apply Hstop; lia].
      pose proof (midpoint_bounds Hle).
      apply Hstep; [assumption| |]; apply IH; lia. }
  intros lo hi. now apply (H (Z.to_nat (hi - lo + 1))).
Qed.

(** The search returns the size it started from or a size it tested and
    found fitting. *)
Lemma searchBest_found (ok : Z -> bool) : forall lo hi best,
  searchBest ok lo hi best = best \/
  (lo <= searchBest ok lo hi best <= hi /\ ok (searchBest ok lo hi best) = true).
Proof.
  intros lo hi. pattern lo, hi. apply interval_ind; clear lo hi.
  - intros lo hi Hgt best. rewrite searchBest_eq.
    destruct (lo <=? hi) eqn:E; [lia|now left].
  - intros lo hi Hle IHup IHdown best. pose proof (midpoint_bounds Hle) as Hmid.
    rewrite searchBest_eq. destruct (lo <=? hi) eqn:E; [|lia].
    destruct (ok ((lo + hi) / 2)) eqn:Hok.
    + destruct (IHup ((lo + hi) / 2)) as [->|[Hr Hf]]; right.
      * split; [lia|assumption].
      * split; [lia|assumption].
    + destruct (IHdown best) as [->|[Hr Hf]]; [now left|right].
      split; [lia|assumption].
Qed.

(** When no size of the interval fits, the starting size comes back. *)
Lemma searchBest_none (ok : Z -> bool) : forall lo hi best,
  (forall s, lo <= s <= hi -> ok s = false) ->
  searchBest ok lo hi best = best.
Proof.
  intros lo hi best Hnone.
  destruct (searchBest_found ok lo hi best) as [H|[Hr Hf]]; [assumption|].
  rewrite (Hnone _ Hr) in Hf. discriminate.
Qed.

(** When fitting is downward closed on the interval, no fitting size lies
    above the one returned. *)
Lemma searchBest_largest (ok : Z -> bool) : forall lo hi best,
  (forall s s', lo <= s' <= s -> s <= hi -> ok s = true -> ok s' = true) ->
  best <= lo ->
  forall s, lo <= s <= hi -> ok s = true -> s <= searchBest ok lo hi best.
Proof.
  intros lo hi. pattern lo, hi. apply interval_ind; clear lo hi.
  - intros lo hi Hgt best _ _ s Hs. lia.
  - intros lo hi Hle IHup IHdown best Hdown Hbest s Hs Hoks.
    pose proof (midpoint_bounds Hle) as Hmid.
    rewrite searchBest_eq. destruct (lo <=? hi) eqn:E; [|lia].
    destruct (ok ((lo + hi) / 2)) eqn:Hok.
    + destruct (Z_le_gt_dec s ((lo + hi) / 2)) as [Hsm|Hsm].
      * destruct (searchBest_found ok ((lo + hi) / 2 + 1) hi ((lo + hi) / 2))
          as [->|[Hr _]]; lia.
      * apply IHup; [|lia|lia|assumption].
        intros a b Hab Ha. apply Hdown; lia.
    + assert (s < (lo + hi) / 2).
      { destruct (Z_lt_ge_dec s ((lo + hi) / 2)) as [|Hge]; [assumption|].
        rewrite (Hdown s ((lo + hi) / 2)) in Hok; [discriminate|lia|lia|assumption]. }
      apply IHdown; [|assumption|lia|assumption].
      intros a b Hab Ha. apply Hdown; lia.
Qed.

(** A search whose test accepts more sizes ends at least as high. *)
Lemma searchBest_mono (ok1 ok2 : Z -> bool) :
  (forall s, ok2 s = true -> ok1 s = true) ->
  forall lo hi best1 best2, best2 <= best1 -> best1 <= lo ->
  searchBest ok2 lo hi best2 <= searchBest ok1 lo hi best1.
Proof.
  intros Himp lo hi. pattern lo, hi. apply interval_ind; clear lo hi.
  - intros lo hi Hgt best1 best2 Hb _.
    rewrite (searchBest_eq ok1 lo), (searchBest_eq ok2 lo).
    destruct (lo <=? hi) eqn:E; lia.
  - intros lo hi Hle IHup IHdown best1 best2 Hb Hlo.
    pose proof (midpoint_bounds Hle) as Hmid.
    rewrite (searchBest_eq ok1 lo), (searchBest_eq ok2 lo).
    destruct (lo <=? hi) eqn:E; [|lia].
    destruct (ok2 ((lo + hi) / 2)) eqn:Hok2.
    + rewrite (Himp _ Hok2). apply IHup; lia.
    + destruct (ok1 ((lo + hi) / 2)) eqn:Hok1.
      * destruct (searchBest_found ok1 ((lo + hi) / 2 + 1) hi ((lo + hi) / 2))
          as [->|[Hr1 _]];
        destruct (searchBest_found ok2 lo ((lo + hi) / 2 - 1) best2)
          as [->|[Hr2 _]]; lia.
      * apply IHdown; lia.
Qed.

(** Over a non-empty interval the search ends on a fitting size that cannot be
    raised by one (the next size does not fit or is past the upper bound), or
    it found nothing and the lower bound itself does not fit. *)
Lemma searchBest_local (ok : Z -> bool) : forall lo hi best,
  (lo <= searchBest ok lo hi best <= hi /\ ok (searchBest ok lo hi best) = true /\
   (searchBest ok lo hi best = hi \/ ok (searchBest ok lo hi best + 1) = false))
  \/ (searchBest ok lo hi best = best /\ (hi < lo \/ ok lo = false)).
Proof.
  intros lo hi. pattern lo, hi. apply interval_ind; clear lo hi.
  - intros lo hi Hgt best. right. rewrite searchBest_eq.
    destruct (lo <=? hi) eqn:E; [lia|]. split; [reflexivity|now left].
  - intros lo hi Hle IHup IHdown best. pose proof (midpoint_bounds Hle) as Hmid.
    rewrite searchBest_eq. destruct (lo <=? hi) eqn:E; [|lia].
    destruct (ok ((lo + hi) / 2)) eqn:Hok.
    + left. destruct (IHup ((lo + hi) / 2)) as [(Hr & Hf & Hnext)|[Heq Hstop]].
      * split; [lia|]. now split.
      * rewrite Heq. split; [lia|]. split; [assumption|].
        destruct Hstop as [Hstop|Hstop]; [left; lia|now right].
    + destruct (IHdown best) as [(Hr & Hf & Hnext)|[Heq Hstop]].
      * left. split; [lia|]. split; [assumption|]. right.
        destruct Hnext as [Hnext|Hnext]; [|assumption].
        rewrite Hnext. now replace ((lo + hi) / 2 - 1 + 1) with ((lo + hi) / 2) by lia.
      * right. split; [assumption|]. right.
        destruct Hstop as [Hstop|Hstop]; [|assumption].
        now replace lo with ((lo + hi) / 2) by lia.
Qed.

(** ** Paragraph fitter *)

Section ParagraphProperties.

Variable measureText : Font -> jsstring -> Q.
Variables (text : jsstring) (maxW : Q) (quoted : jsstring) (lineGap : Q).

Let fitsH (maxH : Z) : Z -> bool :=
  paragraphFits measureText text maxW maxH quoted lineGap.

Lemma paragraphLoop_eq (maxH : Z) (ctx : Ctx) (lo hi best : Z) (bestLines : list jsstring) :
  paragraphLoop measureText text maxW maxH quoted lineGap ctx lo hi best bestLines =
  if lo <=? hi then
    let mid := (lo + hi) / 2 in
    let ctx' := setFont (mkFont None mid quoted) ctx in
    let m := measureParagraph measureText ctx' text maxW (ceilMul mid lineGap) in
    if snd m <=? maxH
    then paragraphLoop measureText text maxW maxH quoted lineGap ctx' (mid + 1) hi mid (fst m)
    else paragraphLoop measureText text maxW maxH quoted lineGap ctx' lo (mid - 1) best bestLines
  else (ctx, best, bestLines).
Proof.
  funelim (paragraphLoop measureText text maxW maxH quoted lineGap ctx lo hi best bestLines);
    destruct (lo <=? hi) eqn:E; try lia; reflexivity.
Qed.

(** The size the paragraph loop ends with is the one the search on sizes
    finds; the font the context held on entry plays no part. *)
Lemma paragraphLoop_best (maxH : Z) : forall lo hi ctx best bestLines,
  snd (fst (paragraphLoop measureText text maxW maxH quoted lineGap ctx lo hi best bestLines))
  = searchBest (fitsH maxH) lo hi best.
Proof.
  intros lo hi. pattern lo, hi. apply interval_ind; clear lo hi.
  - intros lo hi Hgt ctx best bl. rewrite paragraphLoop_eq, searchBest_eq.
    destruct (lo <=? hi) eqn:E; [lia|reflexivity].
  - intros lo hi Hle IHup IHdown ctx best bl.
    rewrite paragraphLoop_eq, searchBest_eq.
    destruct (lo <=? hi) eqn:E; [|lia]. cbv zeta.
    unfold fitsH at 1, paragraphFits, paragraphHeight, setFont.
    destruct (snd (measureParagraph measureText (mkCtx (mkFont None ((lo + hi) / 2) quoted))
                     text maxW (ceilMul ((lo + hi) / 2) lineGap)) <=? maxH).
    + apply IHup.
    + apply IHdown.
Qed.

End ParagraphProperties.

(** What the paragraph fitter returns, in terms of the search on sizes. *)
Lemma fitFontBinaryParagraph_result measureText ctx text maxW (maxH minPx maxPx : Z)
    fam lineGap :
  fst (fitFontBinaryParagraph measureText ctx text maxW maxH minPx maxPx fam lineGap) =
  let quoted := quoteFontName fam in
  let best := searchBest (paragraphFits measureText text maxW maxH quoted lineGap)
                minPx maxPx minPx in
  mkFit best (ceilMul best lineGap)
    (wrapByWidth measureText (mkCtx (mkFont None best quoted)) text maxW).
Proof.
  unfold fitFontBinaryParagraph.
  pose proof (paragraphLoop_best measureText text maxW (quoteFontName fam) lineGap
                maxH minPx maxPx ctx minPx []) as H.
  destruct (paragraphLoop measureText text maxW maxH (quoteFontName fam) lineGap
              ctx minPx maxPx minPx []) as [[ctx1 best] bl].
  simpl in H. subst best. reflexivity.
Qed.

Lemma paragraphHeight_eq measureText text maxW quoted lineGap size :
  paragraphHeight measureText text maxW quoted lineGap size =
  Z.of_nat (length (wrapByWidth measureText (mkCtx (mkFont None size quoted)) text maxW))
  * ceilMul size lineGap.
Proof. reflexivity. Qed.

(** C8: with the text, the width, the bounds, the line gap and the measurer
    fixed, a smaller [maxH] never gives a larger font size. *)
Theorem fitFontBinaryParagraph_monotone measureText ctx1 ctx2 text maxW
    (maxH1 maxH2 minPx maxPx : Z) fam lineGap :
  maxH2 <= maxH1 ->
  fontPx (fst (fitFontBinaryParagraph measureText ctx2 text maxW maxH2 minPx maxPx fam lineGap))
  <= fontPx (fst (fitFontBinaryParagraph measureText ctx1 text maxW maxH1 minPx maxPx fam lineGap)).
Proof.
  intros Hle.
  rewrite !fitFontBinaryParagraph_result. cbv zeta. cbn [fontPx].
  apply searchBest_mono; [|lia|lia].
  unfold paragraphFits. intros s Hs. apply Z.leb_le in Hs. apply Z.leb_le. lia.
Qed.

Lemma fitFontBinaryParagraph_monotone_witness :
  50 <= 100 /\
  fontPx (fst (fitFontBinaryParagraph monoMeasure ctx16 (js "hello big world") 60
                 50 4 40 (js "Noto Sans") (double (118 # 100))))
  <= fontPx (fst (fitFontBinaryParagraph monoMeasure ctx16 (js "hello big world") 60
                 100 4 40 (js "Noto Sans") (double (118 # 100)))).
Proof.
  split; [lia|]. apply fitFontBinaryParagraph_monotone. lia.
Defined.

(** C3, as amended: when fitting is downward closed over the bounds (a size
    that fits lets every smaller size fit), the paragraph fitter returns the
    largest size of [minPx .. maxPx] whose line count times
    [ceil(size * lineGap)] is at most [maxH], with the lines wrapped at that
    size; when no size fits it returns [minPx] with the lines wrapped at
    [minPx].  The size is within the bounds in every case. *)
Theorem fitFontBinaryParagraph_largest measureText ctx text maxW
    (maxH minPx maxPx : Z) fam lineGap
    (Hbounds : minPx <= maxPx)
    (Hdown : forall s s', minPx <= s' <= s -> s <= maxPx ->
       paragraphHeight measureText text maxW (quoteFontName fam) lineGap s <= maxH ->
       paragraphHeight measureText text maxW (quoteFontName fam) lineGap s' <= maxH) :
  let quoted := quoteFontName fam in
  let height := paragraphHeight measureText text maxW quoted lineGap in
  let r := fst (fitFontBinaryParagraph measureText ctx text maxW maxH minPx maxPx fam lineGap) in
  minPx <= fontPx r <= maxPx /\
  lineHeight r = ceilMul (fontPx r) lineGap /\
  lines r = wrapByWidth measureText (mkCtx (mkFont None (fontPx r) quoted)) text maxW /\
  (forall s, minPx <= s <= maxPx -> height s <= maxH ->
     s <= fontPx r /\ height (fontPx r) <= maxH) /\
  ((forall s, minPx <= s <= maxPx -> maxH < height s) -> fontPx r = minPx).
Proof.
  intros quoted height r. subst r.
  rewrite fitFontBinaryParagraph_result.
  cbv zeta. cbn [fontPx lineHeight lines]. fold quoted.
  fold quoted in Hdown. fold height in Hdown.
  set (ok := paragraphFits measureText text maxW maxH quoted lineGap).
  assert (Hok : forall size, ok size = true <-> height size <= maxH)
    by (intros size; apply Z.leb_le).
  pose proof (searchBest_found ok minPx maxPx minPx) as Hfound.
  assert (Hlargest : forall s, minPx <= s <= maxPx -> height s <= maxH ->
            s <= searchBest ok minPx maxPx minPx).
  { intros s Hs Hfit.
    apply (searchBest_largest ok); [|lia|assumption|now apply Z.leb_le].
    intros a b Hab Ha Hoka. apply Z.leb_le. apply Z.leb_le in Hoka. eauto. }
  split; [destruct Hfound as [->|[Hr _]]; lia|].
  split; [reflexivity|]. split; [reflexivity|]. split.
  - intros s Hs Hfit. split; [now apply Hlargest|].
    specialize (Hlargest s Hs Hfit).
    destruct Hfound as [Heq|[_ Hf]]; [|now apply Z.leb_le in Hf].
    rewrite Heq in *. now replace minPx with s by lia.
  - intros Hnone. apply searchBest_none. intros s Hs. apply Z.leb_gt. auto.
Qed.

Lemma fitFontBinaryParagraph_largest_witness :
  let height := paragraphHeight monoMeasure (js "hello big world") 60
                  (quoteFontName (js "Noto Sans")) (double (118 # 100)) in
  let r := fst (fitFontBinaryParagraph monoMeasure ctx16 (js "hello big world") 60
                  100 20 22 (js "Noto Sans") (double (118 # 100))) in
  20 <= 22 /\
  (forall s s', 20 <= s' <= s -> s <= 22 -> height s <= 100 -> height s' <= 100) /\
  (forall s, 20 <= s <= 22 -> height s <= 100 -> s <= fontPx r /\ height (fontPx r) <= 100).
Proof.
  cbv zeta.
  assert (Hdown : forall s s', 20 <= s' <= s -> s <= 22 ->
            paragraphHeight monoMeasure (js "hello big world") 60
              (quoteFontName (js "Noto Sans")) (double (118 # 100)) s <= 100 ->
            paragraphHeight monoMeasure (js "hello big world") 60
              (quoteFontName (js "Noto Sans")) (double (118 # 100)) s' <= 100).
  { intros s s' Hs' Hs H.
    assert (Hc : s' = 20 \/ s' = 21 \/ s' = 22) by lia.
    destruct Hc as [-> | [-> | ->]]; [vm_compute; discriminate | vm_compute; discriminate |].
    replace s with 22 in H by lia. exact H. }
  split; [lia|]. split; [exact Hdown|].
  assert (Hbounds : 20 <= 22) by lia.
  pose proof (@fitFontBinaryParagraph_largest monoMeasure ctx16 (js "hello big world") 60
                100 20 22 (js "Noto Sans") (double (118 # 100)) Hbounds Hdown) as H.
  cbv zeta in H. apply H.
Defined.

(** C3, as stated, fails: with sizes 1 and 3 fitting and size 2 not, the
    search probes 2, turns down and returns 1, although 3 fits. *)
Lemma fitFontBinaryParagraph_not_largest :
  let quoted := quoteFontName (js "Arial") in
  let r := fst (fitFontBinaryParagraph bumpyMeasure ctx16 (js "a b") 10 3 1 3
                  (js "Arial") 1) in
  fontPx r = 1 /\
  paragraphHeight bumpyMeasure (js "a b") 10 quoted 1 3 <= 3 /\
  ~ (forall s, 1 <= s <= 3 ->
       paragraphHeight bumpyMeasure (js "a b") 10 quoted 1 s <= 3 -> s <= fontPx r).
Proof.
  assert (H1 : fontPx (fst (fitFontBinaryParagraph bumpyMeasure ctx16 (js "a b") 10 3 1 3
                              (js "Arial") 1)) = 1) by (vm_compute; reflexivity).
  assert (H3 : paragraphHeight bumpyMeasure (js "a b") 10 (quoteFontName (js "Arial")) 1 3 <= 3)
    by (vm_compute; discriminate).
  cbv zeta. split; [exact H1|]. split; [exact H3|].
  intros H. specialize (H 3 ltac:(lia) H3). rewrite H1 in H. lia.
Qed.

(** X6: for ordered bounds and every measurer, the size the paragraph fitter
    returns either fits [maxH], lies within the bounds and cannot be raised by
    one (it is [maxPx], or the next size does not fit), or it is the fallback
    [minPx], and then [minPx] itself does not fit. *)
Theorem fitFontBinaryParagraph_fits_or_floor measureText ctx text maxW
    (maxH minPx maxPx : Z) fam lineGap
    (Hbounds : minPx <= maxPx) :
  let height := paragraphHeight measureText text maxW (quoteFontName fam) lineGap in
  let r := fst (fitFontBinaryParagraph measureText ctx text maxW maxH minPx maxPx fam lineGap) in
  (minPx <= fontPx r <= maxPx /\ height (fontPx r) <= maxH /\
   (fontPx r = maxPx \/ maxH < height (fontPx r + 1)))
  \/ (fontPx r = minPx /\ maxH < height minPx).
Proof.
  cbv zeta. rewrite fitFontBinaryParagraph_result. cbv zeta. cbn [fontPx].
  set (ok := paragraphFits measureText text maxW maxH (quoteFontName fam) lineGap).
  destruct (searchBest_local ok minPx maxPx minPx) as [(Hr & Hf & Hnext)|[Heq Hstop]].
  - left. split; [assumption|]. split; [now apply Z.leb_le in Hf|].
    destruct Hnext as [Hnext|Hnext]; [now left|right]. now apply Z.leb_gt in Hnext.
  - right. split; [assumption|].
    destruct Hstop as [Hstop|Hstop]; [lia|]. now apply Z.leb_gt in Hstop.
Qed.

Lemma fitFontBinaryParagraph_fits_or_floor_witness :
  4 <= 40 /\
  let height := paragraphHeight monoMeasure (js "hello big world") 60
                  (quoteFontName (js "Noto Sans")) (double (118 # 100)) in
  let r := fst (fitFontBinaryParagraph monoMeasure ctx16 (js "hello big world") 60
                  100 4 40 (js "Noto Sans") (double (118 # 100))) in
  (4 <= fontPx r <= 40 /\ height (fontPx r) <= 100 /\
   (fontPx r = 40 \/ 100 < height (fontPx r + 1)))
  \/ (fontPx r = 4 /\ 100 < height 4).
Proof.
  assert (Hbounds : 4 <= 40) by lia.
  split; [exact Hbounds|].
  exact (@fitFontBinaryParagraph_fits_or_floor monoMeasure ctx16 (js "hello big world") 60
           100 4 40 (js "Noto Sans") (double (118 # 100)) Hbounds).
Defined.

(** X7: whatever the bounds, the heights and the measurer, the lines the
    paragraph fitter returns are the text wrapped in the regular face of the
    size it returns, with the line height of that size; none of them is empty
    and together they hold the visible characters of the text, in order. *)
Theorem fitFontBinaryParagraph_lines measureText ctx text maxW
    (maxH minPx maxPx : Z) fam lineGap :
  let r := fst (fitFontBinaryParagraph measureText ctx text maxW maxH minPx maxPx fam lineGap) in
  lines r = wrapByWidth measureText (mkCtx (mkFont None (fontPx r) (quoteFontName fam)))
              text maxW /\
  lineHeight r = ceilMul (fontPx r) lineGap /\
  Forall (fun l => l <> []) (lines r) /\
  filter notSpace (concat (lines r)) = filter notSpace text.
Proof.
  cbv zeta. rewrite fitFontBinaryParagraph_result. cbv zeta. cbn [fontPx lines lineHeight].
  split; [reflexivity|]. split; [reflexivity|]. split.
  - eapply Forall_impl; [|apply wrapByWidth_truthy]. intros l Hl. now destruct l.
  - apply wrapByWidth_chars.
Qed.

(** X26: the paragraph fit does not depend on the font the context holds on
    entry, whatever the bounds, and it leaves the regular face of the size it
    returns in the context. *)
Theorem fitFontBinaryParagraph_context measureText (ctx ctx' : Ctx) text maxW
    (maxH minPx maxPx : Z) fam lineGap :
  let out := fitFontBinaryParagraph measureText ctx text maxW maxH minPx maxPx fam lineGap in
  fst out = fst (fitFontBinaryParagraph measureText ctx' text maxW maxH minPx maxPx fam lineGap)
  /\ snd out = mkCtx (mkFont None (fontPx (fst out)) (quoteFontName fam)).
Proof.
  cbv zeta. split; [now rewrite !fitFontBinaryParagraph_result|].
  unfold fitFontBinaryParagraph.
  destruct (paragraphLoop measureText text maxW maxH (quoteFontName fam) lineGap
              ctx minPx maxPx minPx []) as [[ctx1 best] bl].
  reflexivity.
Qed.

(** X8: a text without visible characters (empty, or white space only) fits at
    every size when [maxH] is not negative: with ordered bounds the paragraph
    fitter returns [maxPx] and no line. *)
Theorem fitFontBinaryParagraph_blank measureText ctx text maxW
    (maxH minPx maxPx : Z) fam lineGap
    (Hblank : filter notSpace text = [])
    (HmaxH : 0 <= maxH)
    (Hbounds : minPx <= maxPx) :
  let r := fst (fitFontBinaryParagraph measureText ctx text maxW maxH minPx maxPx fam lineGap) in
  fontPx r = maxPx /\ lines r = [].
Proof.
  cbv zeta. rewrite fitFontBinaryParagraph_result. cbv zeta. cbn [fontPx lines].
  set (ok := paragraphFits measureText text maxW maxH (quoteFontName fam) lineGap).
  assert (Hok : forall size, ok size = true).
  { intros size. unfold ok, paragraphFits, paragraphHeight, measureParagraph. cbn [snd].
    rewrite (wrapByWidth_blank measureText _ maxW text Hblank).
    apply Z.leb_le. simpl. lia. }
  split.
  - destruct (searchBest_local ok minPx maxPx minPx) as [(Hr & Hf & Hnext)|[Heq Hstop]].
    + destruct Hnext as [Hnext|Hnext]; [assumption|]. rewrite Hok in Hnext. discriminate.
    + destruct Hstop as [Hstop|Hstop]; [lia|]. rewrite Hok in Hstop. discriminate.
  - now apply wrapByWidth_blank.
Qed.

Lemma fitFontBinaryParagraph_blank_witness :
  filter notSpace [SPACE; LF] = [] /\ 0 <= 100 /\ 4 <= 40 /\
  fontPx (fst (fitFontBinaryParagraph monoMeasure ctx16 [SPACE; LF] 60 100 4 40
                 (js "Noto Sans") (double (118 # 100)))) = 40.
Proof.
  assert (Hblank : filter notSpace [SPACE; LF] = []) by reflexivity.
  assert (HmaxH : 0 <= 100) by lia.
  assert (Hbounds : 4 <= 40) by lia.
  split; [exact Hblank|]. split; [exact HmaxH|]. split; [exact Hbounds|].
  exact (proj1 (@fitFontBinaryParagraph_blank monoMeasure ctx16 [SPACE; LF] 60 100 4 40
                  (js "Noto Sans") (double (118 # 100)) Hblank HmaxH Hbounds)).
Defined.

(** ** Table fitter *)

Section TableProperties.

Variable measureText : Font -> jsstring -> Q.
Variables (rows : list Row) (colLeftW colRightW : Q) (quoted : jsstring) (lineGap : Q).

(** The row loop sets the font before each wrap: a turn does not depend on
    the font it starts with, and leaves the regular face of the candidate size
    in the context. *)
Lemma tableRowStep_ctx (mid lh : Z) ctx ctx' totalH wrapped r :
  tableRowStep measureText colLeftW colRightW quoted mid lh (ctx, totalH, wrapped) r
  = tableRowStep measureText colLeftW colRightW quoted mid lh (ctx', totalH, wrapped) r.
Proof. reflexivity. Qed.

Lemma tableRowStep_font (mid lh : Z) st r :
  fst (fst (tableRowStep measureText colLeftW colRightW quoted mid lh st r))
  = mkCtx (mkFont None mid quoted).
Proof. destruct st as [[ctx totalH] wrapped]. reflexivity. Qed.

Lemma tableRows_fold_font (mid lh : Z) (rs : list Row) : forall st,
  rs <> [] ->
  fst (fst (fold_left (tableRowStep measureText colLeftW colRightW quoted mid lh) rs st))
  = mkCtx (mkFont None mid quoted).
Proof.
  induction rs as [|r rs IH]; intros st Hne; [congruence|].
  cbn [fold_left]. destruct rs as [|r' rs].
  - apply tableRowStep_font.
  - apply IH. discriminate.
Qed.

Lemma tableAt_ctx (ctx ctx' : Ctx) (mid : Z) :
  snd (fst (tableAt measureText rows colLeftW colRightW quoted lineGap ctx mid))
  = snd (fst (tableAt measureText rows colLeftW colRightW quoted lineGap ctx' mid))
  /\ snd (tableAt measureText rows colLeftW colRightW quoted lineGap ctx mid)
  = snd (tableAt measureText rows colLeftW colRightW quoted lineGap ctx' mid).
Proof.
  unfold tableAt. destruct rows as [|r rs]; [now split|].
  cbn [fold_left]. now rewrite (tableRowStep_ctx _ _ ctx ctx').
Qed.

Lemma tableAt_font (ctx : Ctx) (mid : Z) :
  fst (fst (tableAt measureText rows colLeftW colRightW quoted lineGap ctx mid))
  = match rows with [] => ctx | _ :: _ => mkCtx (mkFont None mid quoted) end.
Proof.
  unfold tableAt.
  destruct (fold_left (tableRowStep measureText colLeftW colRightW quoted mid
                         (ceilMul mid lineGap)) rows (ctx, 0, []))
    as [[ctx' totalH] wrapped] eqn:Hfold.
  cbn [fst]. destruct rows as [|r rs].
  - simpl in Hfold. congruence.
  - change ctx' with (fst (fst (ctx', totalH, wrapped))). rewrite <- Hfold.
    apply tableRows_fold_font. discriminate.
Qed.

Let fitsH (maxH : Z) : Z -> bool :=
  tableFits measureText rows colLeftW colRightW maxH quoted lineGap.

Let resultAt : Z -> TableFitResult :=
  tableResultAt measureText rows colLeftW colRightW quoted lineGap.

Lemma tableLoop_eq (maxH : Z) (ctx : Ctx) (lo hi best : Z) (bestResult : option TableFitResult) :
  tableLoop measureText rows colLeftW colRightW maxH quoted lineGap ctx lo hi best bestResult =
  if lo <=? hi then
    let mid := (lo + hi) / 2 in
    let t := tableAt measureText rows colLeftW colRightW quoted lineGap ctx mid in
    if snd (fst t) <=? maxH
    then tableLoop measureText rows colLeftW colRightW maxH quoted lineGap (fst (fst t))
           (mid + 1) hi mid (Some (mkTableFit mid (ceilMul mid lineGap) (snd t)))
    else tableLoop measureText rows colLeftW colRightW maxH quoted lineGap (fst (fst t))
           lo (mid - 1) best bestResult
  else (ctx, best, bestResult).
Proof.
  funelim (tableLoop measureText rows colLeftW colRightW maxH quoted lineGap
             ctx lo hi best bestResult);
    destruct (lo <=? hi) eqn:E; try lia; reflexivity.
Qed.

(** The table loop ends with the result it started from, or with the result
    of a size of the interval that it tested and found fitting. *)
Lemma tableLoop_result (maxH : Z) : forall lo hi ctx best bestResult,
  let out := snd (tableLoop measureText rows colLeftW colRightW maxH quoted lineGap
                    ctx lo hi best bestResult) in
  out = bestResult \/
  exists size, lo <= size <= hi /\ fitsH maxH size = true /\ out = Some (resultAt size).
Proof.
  intros lo hi. pattern lo, hi. apply interval_ind; clear lo hi.
  - intros lo hi Hgt ctx best br. rewrite tableLoop_eq.
    destruct (lo <=? hi) eqn:E; [lia|now left].
  - intros lo hi Hle IHup IHdown ctx best br.
    pose proof (midpoint_bounds Hle) as Hmid.
    rewrite tableLoop_eq. destruct (lo <=? hi) eqn:E; [|lia]. cbv zeta.
    destruct (tableAt_ctx ctx (mkCtx (mkFont None ((lo + hi) / 2) quoted)) ((lo + hi) / 2))
      as [HeqH HeqR].
    destruct (snd (fst (tableAt measureText rows colLeftW colRightW quoted lineGap ctx
                          ((lo + hi) / 2))) <=? maxH) eqn:Hfit.
    + right. rewrite HeqH in Hfit. rewrite HeqR.
      fold (tableHeight measureText rows colLeftW colRightW quoted lineGap ((lo + hi) / 2)) in Hfit.
      fold (tableRows measureText rows colLeftW colRightW quoted lineGap ((lo + hi) / 2)).
      match goal with |- context [tableLoop _ _ _ _ _ _ _ ?c ?a ?b ?d ?e] =>
        destruct (IHup c d e) as [Hsame|(size & Hsize & Hok & Hout)] end.
      * exists ((lo + hi) / 2). split; [lia|]. split; [exact Hfit|]. exact Hsame.
      * exists size. split; [lia|]. split; assumption.
    + match goal with |- context [tableLoop _ _ _ _ _ _ _ ?c ?a ?b ?d ?e] =>
        destruct (IHdown c d e) as [Hsame|(size & Hsize & Hok & Hout)] end.
      * now left.
      * right. exists size. split; [lia|]. split; assumption.
Qed.

(** When no size of a non-empty interval fits a non-empty table, the loop
    changes neither [best] nor [bestResult], and its last probe, at the lower
    bound, leaves the regular face of that size in the context. *)
Lemma tableLoop_infeasible (maxH : Z) : forall lo hi ctx best bestResult,
  rows <> [] -> lo <= hi ->
  (forall size, lo <= size <= hi -> fitsH maxH size = false) ->
  tableLoop measureText rows colLeftW colRightW maxH quoted lineGap ctx lo hi best bestResult
  = (mkCtx (mkFont None lo quoted), best, bestResult).
Proof.
  intros lo hi. pattern lo, hi. apply interval_ind; clear lo hi.
  - intros; lia.
  - intros lo hi Hle _ IHdown ctx best br Hrows _ Hnone.
    pose proof (midpoint_bounds Hle) as Hmid.
    rewrite tableLoop_eq. destruct (lo <=? hi) eqn:E; [|lia]. cbv zeta.
    destruct (tableAt_ctx ctx (mkCtx (mkFont None ((lo + hi) / 2) quoted)) ((lo + hi) / 2))
      as [HeqH _].
    rewrite HeqH. fold (tableHeight measureText rows colLeftW colRightW quoted lineGap
                          ((lo + hi) / 2)).
    pose proof (Hnone _ Hmid) as Hm. unfold fitsH, tableFits in Hm. rewrite Hm.
    rewrite tableAt_font. destruct rows as [|r rs] eqn:Hr; [congruence|]. rewrite <- Hr in *.
    destruct (Z_le_gt_dec lo ((lo + hi) / 2 - 1)) as [Hmore|Hlast].
    + apply IHdown; [assumption|assumption|]. intros size Hsize. apply Hnone. lia.
    + rewrite tableLoop_eq. destruct (lo <=? (lo + hi) / 2 - 1) eqn:E'; [lia|].
      now replace ((lo + hi) / 2) with lo by lia.
Qed.

Lemma tableRowStep_one (mid lh : Z) ctx totalH wrapped r :
  tableRowStep measureText colLeftW colRightW quoted mid lh (ctx, totalH, wrapped) r
  = (mkCtx (mkFont None mid quoted),
     totalH + (rowH (wrappedRowAt measureText colLeftW colRightW quoted mid lh r) + rowGap lh),
     wrapped ++ [wrappedRowAt measureText colLeftW colRightW quoted mid lh r]).
Proof. reflexivity. Qed.

(** The accumulators of the row loop in closed form. *)
Lemma tableRowStep_fold_closed (mid lh : Z) (rs : list Row) : forall ctx totalH wrapped,
  snd (fold_left (tableRowStep measureText colLeftW colRightW quoted mid lh) rs
         (ctx, totalH, wrapped))
  = wrapped ++ map (wrappedRowAt measureText colLeftW colRightW quoted mid lh) rs
  /\ snd (fst (fold_left (tableRowStep measureText colLeftW colRightW quoted mid lh) rs
                 (ctx, totalH, wrapped)))
  = totalH + sumZ (map (fun r => rowH (wrappedRowAt measureText colLeftW colRightW
                                         quoted mid lh r) + rowGap lh) rs).
Proof.
  induction rs as [|r rs IH]; intros ctx totalH wrapped.
  - cbn [fold_left map snd fst]. rewrite app_nil_r. split; [reflexivity|].
    unfold sumZ. cbn [fold_right]. lia.
  - cbn [fold_left]. rewrite tableRowStep_one.
    match goal with |- context [fold_left _ rs (?c, ?t, ?w)] =>
      destruct (IH c t w) as [-> ->] end.
    cbn [map]. split; [now rewrite <- app_assoc|].
    unfold sumZ. cbn [fold_right]. lia.
Qed.

Lemma tableRows_closed (size : Z) :
  tableRows measureText rows colLeftW colRightW quoted lineGap size
  = map (wrappedRowAt measureText colLeftW colRightW quoted size (ceilMul size lineGap)) rows.
Proof.
  unfold tableRows, tableAt.
  pose proof (tableRowStep_fold_closed size (ceilMul size lineGap) rows
                (mkCtx (mkFont None size quoted)) 0 []) as [Hw _].
  destruct (fold_left _ rows _) as [[c t] w]. cbn [snd] in *. now rewrite Hw.
Qed.

Lemma tableHeight_closed (size : Z) :
  tableHeight measureText rows colLeftW colRightW quoted lineGap size
  = let gap := rowGap (ceilMul size lineGap) in
    let total := sumZ (map (fun w => rowH w + gap)
                         (tableRows measureText rows colLeftW colRightW quoted lineGap size)) in
    if total >? 0 then total - gap else total.
Proof.
  rewrite tableRows_closed. unfold tableHeight, tableAt.
  pose proof (tableRowStep_fold_closed size (ceilMul size lineGap) rows
                (mkCtx (mkFont None size quoted)) 0 []) as [_ Ht].
  destruct (fold_left _ rows _) as [[c t] w]. cbn [snd fst] in *. rewrite Ht.
  cbv zeta. rewrite map_map. reflexivity.
Qed.

(** The size the table loop ends with is the one the search on sizes finds,
    and the result it records is the result at that size; when it records
    nothing, the lower bound of a non-empty interval was probed and did not
    fit. *)
Lemma tableLoop_search (maxH : Z) : forall lo hi ctx best bestResult,
  let out := tableLoop measureText rows colLeftW colRightW maxH quoted lineGap
               ctx lo hi best bestResult in
  (snd out = bestResult /\ searchBest (fitsH maxH) lo hi best = best /\
   (hi < lo \/ fitsH maxH lo = false))
  \/ snd out = Some (resultAt (searchBest (fitsH maxH) lo hi best)).
Proof.
  intros lo hi. pattern lo, hi. apply interval_ind; clear lo hi.
  - intros lo hi Hgt ctx best br. rewrite tableLoop_eq, searchBest_eq.
    destruct (lo <=? hi) eqn:E; [lia|]. left. split; [reflexivity|]. split; [reflexivity|now left].
  - intros lo hi Hle IHup IHdown ctx best br. pose proof (midpoint_bounds Hle) as Hmid.
    rewrite tableLoop_eq, searchBest_eq. destruct (lo <=? hi) eqn:E; [|lia]. cbv zeta.
    destruct (tableAt_ctx ctx (mkCtx (mkFont None ((lo + hi) / 2) quoted)) ((lo + hi) / 2))
      as [HeqH HeqR].
    rewrite HeqH, HeqR.
    fold (tableHeight measureText rows colLeftW colRightW quoted lineGap ((lo + hi) / 2)).
    fold (tableRows measureText rows colLeftW colRightW quoted lineGap ((lo + hi) / 2)).
    fold (tableFits measureText rows colLeftW colRightW maxH quoted lineGap ((lo + hi) / 2)).
    fold (fitsH maxH ((lo + hi) / 2)).
    destruct (fitsH maxH ((lo + hi) / 2)) eqn:Hfit.
    + right.
      match goal with |- context [tableLoop _ _ _ _ _ _ _ ?c ?a ?b ?d ?e] =>
        destruct (IHup c d e) as [(Hsame & Hbest & _)|Hfound] end.
      * rewrite Hsame, Hbest. reflexivity.
      * exact Hfound.
    + match goal with |- context [tableLoop _ _ _ _ _ _ _ ?c ?a ?b ?d ?e] =>
        destruct (IHdown c d e) as [(Hsame & Hbest & Hstop)|Hfound] end.
      * left. split; [assumption|]. split; [assumption|]. right.
        destruct Hstop as [Hstop|Hstop]; [|assumption].
        now replace lo with ((lo + hi) / 2) by lia.
      * now right.
Qed.

End TableProperties.

(** The table result by cases: the result at the size the search finds, or
    the fallback, taken when the bounds are out of order or [minPx] was probed
    and did not fit. *)
Lemma fitFontBinaryTable_cases measureText ctx rows colLeftW colRightW
    (maxH minPx maxPx : Z) fam lineGap :
  let quoted := quoteFontName fam in
  let ok := tableFits measureText rows colLeftW colRightW maxH quoted lineGap in
  let r := fst (fitFontBinaryTable measureText ctx rows colLeftW colRightW
                  maxH minPx maxPx fam lineGap) in
  (ok (tableFontPx r) = true /\ minPx <= tableFontPx r <= maxPx /\
   r = tableResultAt measureText rows colLeftW colRightW quoted lineGap (tableFontPx r))
  \/ (exists ctx1,
        r = mkTableFit minPx (ceilMul minPx lineGap)
              (map (fallbackRow measureText colLeftW colRightW ctx1) rows)
        /\ (maxPx < minPx \/ ok minPx = false)).
Proof.
  cbv zeta. unfold fitFontBinaryTable.
  pose proof (tableLoop_search measureText rows colLeftW colRightW (quoteFontName fam)
                lineGap maxH minPx maxPx ctx minPx None) as H. cbv zeta in H.
  pose proof (tableLoop_result measureText rows colLeftW colRightW (quoteFontName fam)
                lineGap maxH minPx maxPx ctx minPx None) as H'. cbv zeta in H'.
  destruct (tableLoop measureText rows colLeftW colRightW maxH (quoteFontName fam) lineGap
              ctx minPx maxPx minPx None) as [[ctx1 best] [res|]]; cbn [fst snd] in *.
  - left. destruct H' as [H'|(size & Hsize & Hok & Hout)]; [discriminate|].
    injection Hout as ->. cbn [tableResultAt tableFontPx]. now repeat split.
  - right. exists ctx1. destruct H as [(_ & _ & Hstop)|H]; [|discriminate].
    now split.
Qed.

(** The font size of the table result is the one the search on sizes finds. *)
Lemma fitFontBinaryTable_size measureText ctx rows colLeftW colRightW
    (maxH minPx maxPx : Z) fam lineGap :
  tableFontPx (fst (fitFontBinaryTable measureText ctx rows colLeftW colRightW
                      maxH minPx maxPx fam lineGap))
  = searchBest (tableFits measureText rows colLeftW colRightW maxH (quoteFontName fam) lineGap)
      minPx maxPx minPx.
Proof.
  unfold fitFontBinaryTable.
  pose proof (tableLoop_search measureText rows colLeftW colRightW (quoteFontName fam)
                lineGap maxH minPx maxPx ctx minPx None) as H. cbv zeta in H.
  destruct (tableLoop measureText rows colLeftW colRightW maxH (quoteFontName fam) lineGap
              ctx minPx maxPx minPx None) as [[ctx1 best] [res|]]; cbn [fst snd] in *.
  - destruct H as [[H _]|H]; [discriminate|]. injection H as ->. reflexivity.
  - destruct H as [(_ & H & _)|H]; [|discriminate]. cbn [tableFontPx]. now rewrite H.
Qed.

(** X9: with the rows, the column widths, the bounds, the line gap and the
    measurer fixed, a smaller [maxH] never gives the table a larger font
    size. *)
Theorem fitFontBinaryTable_monotone measureText ctx1 ctx2 rows colLeftW colRightW
    (maxH1 maxH2 minPx maxPx : Z) fam lineGap
    (Hle : maxH2 <= maxH1) :
  tableFontPx (fst (fitFontBinaryTable measureText ctx2 rows colLeftW colRightW
                      maxH2 minPx maxPx fam lineGap))
  <= tableFontPx (fst (fitFontBinaryTable measureText ctx1 rows colLeftW colRightW
                         maxH1 minPx maxPx fam lineGap)).
Proof.
  rewrite !fitFontBinaryTable_size. apply searchBest_mono; [|lia|lia].
  unfold tableFits. intros s Hs. apply Z.leb_le in Hs. apply Z.leb_le. lia.
Qed.

Lemma fitFontBinaryTable_monotone_witness :
  60 <= 120 /\
  tableFontPx (fst (fitFontBinaryTable monoMeasure ctx16 rows2 100 200 60 9 40
                      (js "Noto Sans") (double (112 # 100))))
  <= tableFontPx (fst (fitFontBinaryTable monoMeasure ctx16 rows2 100 200 120 9 40
                         (js "Noto Sans") (double (112 # 100)))).
Proof.
  assert (Hle : 60 <= 120) by lia.
  split; [exact Hle|].
  exact (@fitFontBinaryTable_monotone monoMeasure ctx16 ctx16 rows2 100 200 120 60 9 40
           (js "Noto Sans") (double (112 # 100)) Hle).
Defined.

(** X10: for ordered bounds and every measurer, the table fitter either
    returns the rows wrapped at a size within the bounds whose total height is
    at most [maxH] and that cannot be raised by one (it is [maxPx], or the
    next size does not fit), or it falls back to [minPx], and then [minPx]
    itself does not fit. *)
Theorem fitFontBinaryTable_fits_or_fallback measureText ctx rows colLeftW colRightW
    (maxH minPx maxPx : Z) fam lineGap
    (Hbounds : minPx <= maxPx) :
  let quoted := quoteFontName fam in
  let height := tableHeight measureText rows colLeftW colRightW quoted lineGap in
  let r := fst (fitFontBinaryTable measureText ctx rows colLeftW colRightW
                  maxH minPx maxPx fam lineGap) in
  (minPx <= tableFontPx r <= maxPx /\ height (tableFontPx r) <= maxH /\
   (tableFontPx r = maxPx \/ maxH < height (tableFontPx r + 1)) /\
   r = tableResultAt measureText rows colLeftW colRightW quoted lineGap (tableFontPx r))
  \/ (tableFontPx r = minPx /\ maxH < height minPx).
Proof.
  cbv zeta.
  pose proof (fitFontBinaryTable_cases measureText ctx rows colLeftW colRightW
                maxH minPx maxPx fam lineGap) as Hcases. cbv zeta in Hcases.
  pose proof (fitFontBinaryTable_size measureText ctx rows colLeftW colRightW
                maxH minPx maxPx fam lineGap) as Hsize.
  set (ok := tableFits measureText rows colLeftW colRightW maxH (quoteFontName fam) lineGap)
    in *.
  destruct Hcases as [(Hok & Hin & Hres)|(ctx1 & Hres & Hstop)].
  - left. split; [assumption|]. split; [now apply Z.leb_le in Hok|]. split; [|assumption].
    destruct (searchBest_local ok minPx maxPx minPx) as [(_ & _ & Hnext)|[Heq Hstop]].
    + rewrite <- Hsize in Hnext. destruct Hnext as [Hnext|Hnext]; [now left|right].
      now apply Z.leb_gt in Hnext.
    + rewrite <- Hsize in Heq. destruct Hstop as [Hstop|Hstop]; [lia|].
      rewrite Heq, Hstop in Hok. discriminate.
  - right. rewrite Hres. cbn [tableFontPx]. split; [reflexivity|].
    destruct Hstop as [Hstop|Hstop]; [lia|]. now apply Z.leb_gt in Hstop.
Qed.

Lemma fitFontBinaryTable_fits_or_fallback_witness :
  24 <= 26 /\
  let height := tableHeight monoMeasure rows2 100 200 (quoteFontName (js "Noto Sans"))
                  (double (112 # 100)) in
  let r := fst (fitFontBinaryTable monoMeasure ctx16 rows2 100 200 95 24 26
                  (js "Noto Sans") (double (112 # 100))) in
  (24 <= tableFontPx r <= 26 /\ height (tableFontPx r) <= 95 /\
   (tableFontPx r = 26 \/ 95 < height (tableFontPx r + 1)) /\
   r = tableResultAt monoMeasure rows2 100 200 (quoteFontName (js "Noto Sans"))
         (double (112 # 100)) (tableFontPx r))
  \/ (tableFontPx r = 24 /\ 95 < height 24).
Proof.
  assert (Hbounds : 24 <= 26) by lia.
  split; [exact Hbounds|].
  exact (@fitFontBinaryTable_fits_or_fallback monoMeasure ctx16 rows2 100 200 95 24 26
           (js "Noto Sans") (double (112 # 100)) Hbounds).
Defined.

Lemma drawnTableHeight_sum (t : TableFitResult) :
  drawnTableHeight t = sumZ (map (fun w => rowH w + rowGap (tableLineHeight t)) (wrapped t)).
Proof.
  unfold drawnTableHeight.
  assert (H : forall l a,
            fold_left (fun rowY wRow => rowY + (rowH wRow + rowGap (tableLineHeight t))) l a
            = a + sumZ (map (fun w => rowH w + rowGap (tableLineHeight t)) l)).
  { induction l as [|w l IH]; intros a; cbn [fold_left map].
    - unfold sumZ. cbn [fold_right]. lia.
    - rewrite IH. unfold sumZ. cbn [fold_right]. lia. }
  rewrite H. lia.
Qed.

(** A table fit that succeeded, in closed form. *)
Lemma fitFontBinaryTable_success measureText ctx rows colLeftW colRightW
    (maxH minPx maxPx : Z) fam lineGap
    (Hbounds : minPx <= maxPx)
    (Hfit : tableHeight measureText rows colLeftW colRightW (quoteFontName fam) lineGap
              (tableFontPx (fst (fitFontBinaryTable measureText ctx rows colLeftW colRightW
                                   maxH minPx maxPx fam lineGap))) <= maxH)
    (Hlh : 0 <= tableLineHeight (fst (fitFontBinaryTable measureText ctx rows colLeftW
                                        colRightW maxH minPx maxPx fam lineGap))) :
  let r := fst (fitFontBinaryTable measureText ctx rows colLeftW colRightW
                  maxH minPx maxPx fam lineGap) in
  wrapped r = map (wrappedRowAt measureText colLeftW colRightW (quoteFontName fam)
                     (tableFontPx r) (tableLineHeight r)) rows /\
  drawnTableHeight r - rowGap (tableLineHeight r) <= maxH.
Proof.
  cbv zeta.
  pose proof (fitFontBinaryTable_cases measureText ctx rows colLeftW colRightW
                maxH minPx maxPx fam lineGap) as Hcases. cbv zeta in Hcases.
  destruct Hcases as [(_ & _ & Hres)|(ctx1 & Hres & Hstop)].
  - set (r := fst (fitFontBinaryTable measureText ctx rows colLeftW colRightW
                     maxH minPx maxPx fam lineGap)) in *.
    assert (Hlheq : tableLineHeight r = ceilMul (tableFontPx r) lineGap)
      by (rewrite Hres at 1; reflexivity).
    assert (Hw : wrapped r = tableRows measureText rows colLeftW colRightW (quoteFontName fam)
                               lineGap (tableFontPx r))
      by (rewrite Hres at 1; reflexivity).
    split.
    + rewrite Hw, Hlheq. apply tableRows_closed.
    + rewrite tableHeight_closed in Hfit. cbv zeta in Hfit.
      rewrite drawnTableHeight_sum, Hw, Hlheq.
      pose proof (rowGap_nonneg Hlh) as Hgap. rewrite Hlheq in Hgap.
      destruct (sumZ _ >? 0) eqn:E in Hfit; [exact Hfit|]. lia.
  - exfalso. rewrite Hres in Hfit. cbn [tableFontPx] in Hfit.
    destruct Hstop as [Hstop|Hstop]; [lia|].
    unfold tableFits in Hstop. apply Z.leb_gt in Hstop. lia.
Qed.

(** X11: for ordered bounds, when the size the table fitter returns fits
    [maxH] and its line height is not negative, the rows returned are the
    input rows in order, each key wrapped in weight 600 and each value in the
    regular face of that size, with the larger line count times the line
    height as row height; and the rows stacked as [drawOne] stacks them, a gap
    between consecutive rows, are at most [maxH] high. *)
Theorem fitFontBinaryTable_stacked_height measureText ctx rows colLeftW colRightW
    (maxH minPx maxPx : Z) fam lineGap
    (Hbounds : minPx <= maxPx)
    (Hfit : tableHeight measureText rows colLeftW colRightW (quoteFontName fam) lineGap
              (tableFontPx (fst (fitFontBinaryTable measureText ctx rows colLeftW colRightW
                                   maxH minPx maxPx fam lineGap))) <= maxH)
    (Hlh : 0 <= tableLineHeight (fst (fitFontBinaryTable measureText ctx rows colLeftW
                                        colRightW maxH minPx maxPx fam lineGap))) :
  let r := fst (fitFontBinaryTable measureText ctx rows colLeftW colRightW
                  maxH minPx maxPx fam lineGap) in
  wrapped r = map (wrappedRowAt measureText colLeftW colRightW (quoteFontName fam)
                     (tableFontPx r) (tableLineHeight r)) rows /\
  drawnTableHeight r - rowGap (tableLineHeight r) <= maxH.
Proof.
  exact (fitFontBinaryTable_success measureText ctx rows colLeftW colRightW fam lineGap
           Hbounds Hfit Hlh).
Qed.

Lemma fitFontBinaryTable_stacked_height_witness :
  let r := fst (fitFontBinaryTable monoMeasure ctx16 rows2 100 200 95 24 26
                  (js "Noto Sans") (double (112 # 100))) in
  24 <= 26 /\
  tableHeight monoMeasure rows2 100 200 (quoteFontName (js "Noto Sans")) (double (112 # 100))
    (tableFontPx r) <= 95 /\
  0 <= tableLineHeight r /\
  drawnTableHeight r - rowGap (tableLineHeight r) <= 95.
Proof.
  cbv zeta.
  assert (Hbounds : 24 <= 26) by lia.
  assert (Hfit : tableHeight monoMeasure rows2 100 200 (quoteFontName (js "Noto Sans"))
                   (double (112 # 100))
                   (tableFontPx (fst (fitFontBinaryTable monoMeasure ctx16 rows2 100 200
                                        95 24 26 (js "Noto Sans") (double (112 # 100))))) <= 95)
    by (vm_compute; discriminate).
  assert (Hlh : 0 <= tableLineHeight (fst (fitFontBinaryTable monoMeasure ctx16 rows2 100 200
                                             95 24 26 (js "Noto Sans") (double (112 # 100)))))
    by (vm_compute; discriminate).
  split; [exact Hbounds|]. split; [exact Hfit|]. split; [exact Hlh|].
  exact (proj2 (@fitFontBinaryTable_stacked_height monoMeasure ctx16 rows2 100 200 95 24 26
                  (js "Noto Sans") (double (112 # 100)) Hbounds Hfit Hlh)).
Defined.

Lemma fallbackRow_cells measureText colLeftW colRightW ctx r :
  visibleCells (fallbackRow measureText colLeftW colRightW ctx r)
  = (visible (key r), visible (value r)).
Proof.
  unfold visibleCells, fallbackRow, visible. cbn [left right].
  now rewrite !wrapByWidth_chars.
Qed.

Lemma wrappedRowAt_cells measureText colLeftW colRightW quoted size lh r :
  visibleCells (wrappedRowAt measureText colLeftW colRightW quoted size lh r)
  = (visible (key r), visible (value r)).
Proof.
  unfold visibleCells, wrappedRowAt, visible. cbn [left right].
  now rewrite !wrapByWidth_chars.
Qed.

Lemma fitFontBinaryTable_cells measureText ctx rows colLeftW colRightW
    (maxH minPx maxPx : Z) fam lineGap :
  map visibleCells (wrapped (fst (fitFontBinaryTable measureText ctx rows colLeftW colRightW
                                    maxH minPx maxPx fam lineGap)))
  = map (fun row => (visible (key row), visible (value row))) rows.
Proof.
  pose proof (fitFontBinaryTable_cases measureText ctx rows colLeftW colRightW
                maxH minPx maxPx fam lineGap) as Hcases. cbv zeta in Hcases.
  destruct Hcases as [(_ & _ & Hres)|(ctx1 & Hres & _)]; rewrite Hres.
  - cbn [tableResultAt wrapped]. rewrite tableRows_closed, map_map.
    apply map_ext. intros row. apply wrappedRowAt_cells.
  - cbn [wrapped]. rewrite map_map. apply map_ext. intros row. apply fallbackRow_cells.
Qed.

(** X12: on every path (a size found or the fallback) and for every measurer,
    the table fitter returns one wrapped row per input row, in the same
    order, and the lines of each cell hold the visible characters of the key
    and of the value of its row, in order. *)
Theorem fitFontBinaryTable_keeps_rows measureText ctx rows colLeftW colRightW
    (maxH minPx maxPx : Z) fam lineGap :
  let r := fst (fitFontBinaryTable measureText ctx rows colLeftW colRightW
                  maxH minPx maxPx fam lineGap) in
  length (wrapped r) = length rows /\
  map visibleCells (wrapped r) = map (fun row => (visible (key row), visible (value row))) rows.
Proof.
  cbv zeta.
  pose proof (fitFontBinaryTable_cells measureText ctx rows colLeftW colRightW
                maxH minPx maxPx fam lineGap) as H.
  split; [|exact H].
  apply (f_equal (@length _)) in H. now rewrite !length_map in H.
Qed.



(** The body of the table loop does not depend on the font it starts with
    once there is a row. *)
Lemma tableAt_indep measureText (rows : list Row) colLeftW colRightW quoted lineGap
    (ctx ctx' : Ctx) (mid : Z) :
  rows <> [] ->
  tableAt measureText rows colLeftW colRightW quoted lineGap ctx mid
  = tableAt measureText rows colLeftW colRightW quoted lineGap ctx' mid.
Proof.
  intros Hrows. destruct rows as [|r rs]; [congruence|].
  unfold tableAt. cbn [fold_left].
  now rewrite (tableRowStep_ctx measureText colLeftW colRightW quoted mid
                 (ceilMul mid lineGap) ctx ctx' 0 [] r).
Qed.

Lemma fitFontBinaryTable_ctx_rows measureText (ctx ctx' : Ctx) rows colLeftW colRightW
    (maxH minPx maxPx : Z) fam lineGap :
  rows <> [] -> minPx <= maxPx ->
  fitFontBinaryTable measureText ctx rows colLeftW colRightW maxH minPx maxPx fam lineGap
  = fitFontBinaryTable measureText ctx' rows colLeftW colRightW maxH minPx maxPx fam lineGap.
Proof.
  intros Hrows Hbounds. unfold fitFontBinaryTable.
  rewrite (tableLoop_eq measureText rows colLeftW colRightW (quoteFontName fam) lineGap
             maxH ctx), (tableLoop_eq measureText rows colLeftW colRightW (quoteFontName fam)
             lineGap maxH ctx').
  destruct (minPx <=? maxPx) eqn:E; [|lia]. cbv zeta.
  now rewrite (tableAt_indep measureText colLeftW colRightW (quoteFontName fam) lineGap
                 ctx ctx' ((minPx + maxPx) / 2) Hrows).
Qed.

(** X25: with ordered bounds the table fit does not depend on the font the
    context holds on entry (the font left there by whatever was drawn
    before): two contexts give the same result. *)
Theorem fitFontBinaryTable_context_free measureText (ctx ctx' : Ctx) rows
    colLeftW colRightW (maxH minPx maxPx : Z) fam lineGap
    (Hbounds : minPx <= maxPx) :
  fst (fitFontBinaryTable measureText ctx rows colLeftW colRightW maxH minPx maxPx fam lineGap)
  = fst (fitFontBinaryTable measureText ctx' rows colLeftW colRightW maxH minPx maxPx
           fam lineGap).
Proof.
  destruct rows as [|r rs].
  - pose proof (fitFontBinaryTable_size measureText ctx [] colLeftW colRightW
                  maxH minPx maxPx fam lineGap) as Hs.
    pose proof (fitFontBinaryTable_size measureText ctx' [] colLeftW colRightW
                  maxH minPx maxPx fam lineGap) as Hs'.
    destruct (fitFontBinaryTable_cases measureText ctx [] colLeftW colRightW
                maxH minPx maxPx fam lineGap) as [(Hok & _ & Hres)|(c1 & Hres & Hstop)];
    destruct (fitFontBinaryTable_cases measureText ctx' [] colLeftW colRightW
                maxH minPx maxPx fam lineGap) as [(Hok' & _ & Hres')|(c1' & Hres' & Hstop')];
    cbv zeta in *.
    + rewrite Hres, Hres', Hs, Hs'. reflexivity.
    + exfalso. destruct Hstop' as [Hstop'|Hstop']; [lia|].
      rewrite Hres' in Hs'. cbn [tableFontPx] in Hs'.
      rewrite Hs, <- Hs', Hstop' in Hok. discriminate.
    + exfalso. destruct Hstop as [Hstop|Hstop]; [lia|].
      rewrite Hres in Hs. cbn [tableFontPx] in Hs.
      rewrite Hs', <- Hs, Hstop in Hok'. discriminate.
    + rewrite Hres, Hres'. reflexivity.
  - now rewrite (fitFontBinaryTable_ctx_rows measureText ctx ctx' colLeftW colRightW
                   maxH fam lineGap (rows := r :: rs) ltac:(discriminate) Hbounds).
Qed.

Lemma fitFontBinaryTable_context_free_witness :
  9 <= 40 /\
  fst (fitFontBinaryTable monoMeasure ctx16 rows2 100 200 10 9 40 (js "Noto Sans") (double (112 # 100)))
  = fst (fitFontBinaryTable monoMeasure (mkCtx (mkFont (Some 600) 70 (js "serif"))) rows2
           100 200 10 9 40 (js "Noto Sans") (double (112 # 100))).
Proof.
  assert (Hbounds : 9 <= 40) by lia.
  split; [exact Hbounds|].
  exact (@fitFontBinaryTable_context_free monoMeasure ctx16
           (mkCtx (mkFont (Some 600) 70 (js "serif"))) rows2 100 200 10 9 40
           (js "Noto Sans") (double (112 # 100)) Hbounds).
Defined.

(** What the table fitter returns: the result of a fitting size within the
    bounds, or the fallback built in the font the loop left behind. *)
Lemma fitFontBinaryTable_result measureText ctx rows colLeftW colRightW
    (maxH minPx maxPx : Z) fam lineGap :
  let quoted := quoteFontName fam in
  let loop := tableLoop measureText rows colLeftW colRightW maxH quoted lineGap
                ctx minPx maxPx minPx None in
  let r := fst (fitFontBinaryTable measureText ctx rows colLeftW colRightW
                  maxH minPx maxPx fam lineGap) in
  (snd loop = None /\
   r = mkTableFit minPx (ceilMul minPx lineGap)
         (map (fallbackRow measureText colLeftW colRightW (fst (fst loop))) rows))
  \/
  (exists size, minPx <= size <= maxPx /\
     tableFits measureText rows colLeftW colRightW maxH quoted lineGap size = true /\
     r = tableResultAt measureText rows colLeftW colRightW quoted lineGap size).
Proof.
  cbv zeta. unfold fitFontBinaryTable.
  pose proof (tableLoop_result measureText rows colLeftW colRightW (quoteFontName fam)
                lineGap maxH minPx maxPx ctx minPx None) as H. cbv zeta in H.
  destruct (tableLoop measureText rows colLeftW colRightW maxH (quoteFontName fam) lineGap
              ctx minPx maxPx minPx None) as [[ctx1 best] [res|]]; cbn [fst snd] in *.
  - right. destruct H as [H|(size & Hsize & Hok & Hout)]; [discriminate|].
    exists size. injection Hout as ->. now repeat split.
  - left. now split.
Qed.

(** What the fallback returns: for a non-empty row list and ordered bounds
    ([minPx <= maxPx]), when no size of [minPx .. maxPx] makes the table fit
    [maxH], the table fitter returns the size [minPx], the line height of
    [minPx], and every row with its key and its value both wrapped in the
    regular face of size [minPx], the font the last probe left (the loop wraps
    keys in weight 600); the [rowH] it records is the larger line count, at
    least 1, and not that count times the line height as in the loop. *)
Lemma fitFontBinaryTable_fallback measureText ctx rows colLeftW colRightW
    (maxH minPx maxPx : Z) fam lineGap
    (Hrows : rows <> [])
    (Hbounds : minPx <= maxPx)
    (Hnone : forall size, minPx <= size <= maxPx ->
       maxH < tableHeight measureText rows colLeftW colRightW (quoteFontName fam) lineGap size) :
  let atMin := mkCtx (mkFont None minPx (quoteFontName fam)) in
  let r := fst (fitFontBinaryTable measureText ctx rows colLeftW colRightW
                  maxH minPx maxPx fam lineGap) in
  tableFontPx r = minPx /\
  tableLineHeight r = ceilMul minPx lineGap /\
  wrapped r =
    map (fun row =>
           let leftLines := wrapByWidth measureText atMin (key row) colLeftW in
           let rightLines := wrapByWidth measureText atMin (value row) colRightW in
           mkWrapped leftLines rightLines
             (Z.max 1 (Z.max (lengthZ leftLines) (lengthZ rightLines)))) rows.
Proof.
  cbv zeta. unfold fitFontBinaryTable.
  rewrite tableLoop_infeasible; [|assumption|assumption|].
  - cbn [fst tableFontPx tableLineHeight wrapped]. now repeat split.
  - intros size Hsize. unfold tableFits. apply Z.leb_gt. auto.
Qed.

Lemma fitFontBinaryTable_fallback_witness :
  let r := fst (fitFontBinaryTable monoMeasure ctx16 rows2 100 200 10 9 11
                  (js "Noto Sans") (double (112 # 100))) in
  rows2 <> [] /\ 9 <= 11 /\
  (forall size, 9 <= size <= 11 ->
     10 < tableHeight monoMeasure rows2 100 200 (quoteFontName (js "Noto Sans"))
            (double (112 # 100)) size) /\
  tableFontPx r = 9.
Proof.
  cbv zeta.
  assert (Hrows : rows2 <> []) by discriminate.
  assert (Hbounds : 9 <= 11) by lia.
  assert (Hnone : forall size, 9 <= size <= 11 ->
            10 < tableHeight monoMeasure rows2 100 200 (quoteFontName (js "Noto Sans"))
                   (double (112 # 100)) size).
  { intros size Hsize.
    assert (Hc : size = 9 \/ size = 10 \/ size = 11) by lia.
    destruct Hc as [-> | [-> | ->]]; vm_compute; reflexivity. }
  split; [exact Hrows|]. split; [exact Hbounds|]. split; [exact Hnone|].
  pose proof (@fitFontBinaryTable_fallback monoMeasure ctx16 rows2 100 200 10 9 11
                (js "Noto Sans") (double (112 # 100)) Hrows Hbounds Hnone) as H.
  cbv zeta in H. apply H.
Defined.

(** With bounds out of order the loop body never runs, and the fallback wraps
    in the font the context held on entry (16px here), not in that of [minPx]:
    the first value takes two lines where the 9px face needs one.  [drawOne]
    never calls the fitter so. *)
Lemma fitFontBinaryTable_fallback_unordered :
  let quoted := quoteFontName (js "Noto Sans") in
  let atMin := mkCtx (mkFont None 9 quoted) in
  let r := fst (fitFontBinaryTable monoMeasure ctx16 rows2 100 200 10 9 3
                  (js "Noto Sans") (double (112 # 100))) in
  rows2 <> [] /\
  (forall size, 9 <= size <= 3 ->
     10 < tableHeight monoMeasure rows2 100 200 quoted (double (112 # 100)) size) /\
  tableFontPx r = 9 /\
  map right (wrapped r) = [[js "Maximum Age: 25"; js "years"]; [js "30,000"]] /\
  map (fun row => wrapByWidth monoMeasure atMin (value row) 200) rows2
    = [[js "Maximum Age: 25 years"]; [js "30,000"]] /\
  map right (wrapped r)
    <> map (fun row => wrapByWidth monoMeasure atMin (value row) 200) rows2.
Proof.
  cbv zeta. split; [discriminate|]. split; [intros size Hsize; lia|].
  split; [reflexivity|]. split; [reflexivity|]. split; [reflexivity|].
  vm_compute. discriminate.
Qed.

Lemma sizesFrom_all (f : Z -> bool) (lo : Z) (n : nat) :
  forallb f (sizesFrom lo n) = true ->
  forall size, lo <= size < lo + Z.of_nat n -> f size = true.
Proof.
  intros H size Hsize. rewrite forallb_forall in H. apply H.
  unfold sizesFrom. apply in_map_iff. exists (Z.to_nat (size - lo)).
  split; [lia|]. apply in_seq. lia.
Qed.

(** C2: on the fallback path the rows do not carry row heights.  Two rows in
    columns of 40 and 200 pixels, [maxH] 10, sizes 9 to 40 and a line gap of
    1.12, every code unit [10 * size / 16] pixels wide: no size fits (one line
    is 11 pixels high at least), and the fitter returns the size 9 with the
    line height 11 and the rows wrapped at 9px, but with [rowH] 2 and 1, the
    numbers of lines, where the loop had 22 and 11 pixels for the same rows at
    the same size (line 168 multiplies by the line height, line 178 does
    not).  [drawOne] adds [rowH] to [rowY] as pixels (line 279): it draws the
    second row 6 pixels below the first, over its two lines of 11 pixels. *)
Theorem fitFontBinaryTable_fallback_row_heights :
  let quoted := quoteFontName (js "Noto Sans") in
  let lineGap := double (112 # 100) in
  let r := fst (fitFontBinaryTable monoMeasure ctx16 rows2 40 200 10 9 40
                  (js "Noto Sans") lineGap) in
  (forall size, 9 <= size <= 40 ->
     tableFits monoMeasure rows2 40 200 10 quoted lineGap size = false)
  /\ r = mkTableFit 9 11
           [mkWrapped [js "Age"; js "limit"] [js "Maximum Age: 25 years"] 2;
            mkWrapped [js "Salary"] [js "30,000"] 1]
  /\ tableRows monoMeasure rows2 40 200 quoted lineGap 9
     = [mkWrapped [js "Age"; js "limit"] [js "Maximum Age: 25 years"] 22;
        mkWrapped [js "Salary"] [js "30,000"] 11]
  /\ map (fun c => (ftText c, ftY c)) (fillRows quoted 9 11 0 240 0 (wrapped r))
     = [(js "Age", 0); (js "limit", 11); (js "Maximum Age: 25 years", 0);
        (js "Salary", 6); (js "30,000", 6)].
Proof.
  cbv zeta. split; [|split; [|split]]; [|vm_compute; reflexivity..].
  intros size Hsize.
  apply negb_true_iff.
  apply (@sizesFrom_all
           (fun size => negb (tableFits monoMeasure rows2 40 200 10
                                (quoteFontName (js "Noto Sans")) (double (112 # 100)) size))
           9 32%nat); [vm_compute; reflexivity|lia].
Qed.

(** C6: with ordered bounds, the font size of the table fitter lies between
    [minPx] and [maxPx], when a size fits and when none does. *)
Theorem fitFontBinaryTable_size_in_bounds measureText ctx rows colLeftW colRightW
    (maxH minPx maxPx : Z) fam lineGap
    (Hbounds : minPx <= maxPx) :
  minPx <= tableFontPx (fst (fitFontBinaryTable measureText ctx rows colLeftW colRightW
                               maxH minPx maxPx fam lineGap)) <= maxPx.
Proof.
  pose proof (fitFontBinaryTable_result measureText ctx rows colLeftW colRightW
                maxH minPx maxPx fam lineGap) as H. cbv zeta in H.
  destruct H as [[_ ->]|(size & Hsize & _ & ->)]; cbn [tableFontPx tableResultAt]; lia.
Qed.

Lemma fitFontBinaryTable_size_in_bounds_witness :
  9 <= 40 /\
  9 <= tableFontPx (fst (fitFontBinaryTable monoMeasure ctx16 rows2 100 200 120 9 40
                           (js "Noto Sans") (double (112 # 100)))) <= 40.
Proof.
  split; [lia|]. apply fitFontBinaryTable_size_in_bounds. lia.
Defined.

(** C7: for an empty row list, whatever the other arguments, the table fitter
    returns a result with no wrapped row, whose height is 0 both as the loop
    sums it and as [drawOne] advances over it; the word wrapper returns no line
    for the empty string and the paragraph fitter returns a result without
    lines for it.  All three are total functions here: they return on every
    input. *)
Theorem fitFontBinaryTable_no_rows measureText ctx colLeftW colRightW maxW
    (maxH minPx maxPx : Z) fam lineGap :
  let r := fst (fitFontBinaryTable measureText ctx [] colLeftW colRightW
                  maxH minPx maxPx fam lineGap) in
  wrapped r = [] /\
  tableHeight measureText [] colLeftW colRightW (quoteFontName fam) lineGap (tableFontPx r) = 0 /\
  drawnTableHeight r = 0 /\
  wrapByWidth measureText ctx [] maxW = [] /\
  lines (fst (fitFontBinaryParagraph measureText ctx [] maxW maxH minPx maxPx fam lineGap)) = [].
Proof.
  cbv zeta.
  pose proof (fitFontBinaryTable_result measureText ctx [] colLeftW colRightW
                maxH minPx maxPx fam lineGap) as H. cbv zeta in H.
  assert (Hw : wrapped (fst (fitFontBinaryTable measureText ctx [] colLeftW colRightW
                               maxH minPx maxPx fam lineGap)) = []).
  { destruct H as [[_ ->]|(size & _ & _ & ->)]; reflexivity. }
  split; [exact Hw|]. split; [reflexivity|]. split.
  - unfold drawnTableHeight. now rewrite Hw.
  - split; [reflexivity|]. now rewrite fitFontBinaryParagraph_result.
Qed.

(** ** Parser *)

Lemma pairLoop_eq (lines : list jsstring) (i : nat) (pairs : list Row) :
  pairLoop lines i pairs =
  if (i <? length lines)%nat then
    let k := nth i lines [] in
    let v := nth (i + 1) lines [] in
    pairLoop lines (i + 2) (if truthy k || truthy v then pairs ++ [mkRow k v] else pairs)
  else pairs.
Proof.
  funelim (pairLoop lines i pairs);
    match goal with |- _ = if ?c then _ else _ => destruct c eqn:E end;
    try (apply Nat.ltb_lt in E; lia); try (apply Nat.ltb_ge in E; lia); reflexivity.
Qed.

Lemma skipn_nth (l : list jsstring) : forall i,
  (i < length l)%nat -> skipn i l = nth i l [] :: skipn (S i) l.
Proof.
  induction l as [|x l IH]; intros i Hi; [simpl in Hi; lia|].
  destruct i as [|i]; [reflexivity|].
  simpl in Hi. cbn [skipn nth]. apply IH. lia.
Qed.

(** The index loop appends to [pairs] the kept pairs of the lines from index
    [i] on. *)
Lemma pairLoop_pairs (lines : list jsstring) : forall n i pairs,
  (length lines - i <= n)%nat ->
  pairLoop lines i pairs = pairs ++ filter keepPair (pairsOfLines (skipn i lines)).
Proof.
  induction n as [|n IH]; intros i pairs Hn; rewrite pairLoop_eq.
  - destruct (i <? length lines)%nat eqn:E; [apply Nat.ltb_lt in E; lia|].
    apply Nat.ltb_ge in E. rewrite skipn_all2 by assumption. simpl. now rewrite app_nil_r.
  - destruct (i <? length lines)%nat eqn:E.
    + apply Nat.ltb_lt in E. cbv zeta. rewrite IH by lia.
      rewrite (skipn_nth lines E). replace (i + 1)%nat with (S i) by lia.
      replace (i + 2)%nat with (S (S i)) by lia.
      destruct (Nat.lt_ge_cases (S i) (length lines)) as [Hv|Hv].
      * rewrite (skipn_nth lines Hv). cbn [pairsOfLines filter].
        unfold keepPair at 2. cbn [key value].
        destruct (truthy (nth i lines []) || truthy (nth (S i) lines [])).
        -- now rewrite <- app_assoc.
        -- reflexivity.
      * rewrite (skipn_all2 lines Hv), (nth_overflow lines [] Hv).
        rewrite skipn_all2 by lia. cbn [pairsOfLines filter].
        unfold keepPair. cbn [key value].
        destruct (truthy (nth i lines []) || truthy []); cbn [app];
          now rewrite ?app_nil_r.
    + apply Nat.ltb_ge in E. rewrite skipn_all2 by assumption. simpl. now rewrite app_nil_r.
Qed.

(** *** Trimming and splitting *)

(** [dropSpaces] cuts a prefix of white space and stops at a code unit that
    is none. *)
Lemma dropSpaces_split (l : jsstring) :
  exists pre, l = pre ++ dropSpaces l /\ forallb isSpace pre = true.
Proof.
  induction l as [|c l (pre & Hl & Hpre)]; [now exists []|].
  cbn [dropSpaces]. destruct (isSpace c) eqn:Hc.
  - exists (c :: pre). split; [now rewrite Hl at 1|]. cbn [forallb]. now rewrite Hc, Hpre.
  - now exists [].
Qed.

Lemma dropSpaces_head (l : jsstring) :
  match dropSpaces l with [] => True | c :: _ => isSpace c = false end.
Proof.
  induction l as [|c l IH]; [exact I|].
  cbn [dropSpaces]. destruct (isSpace c) eqn:Hc; [exact IH|exact Hc].
Qed.

Lemma dropSpaces_fixed (l : jsstring) :
  match l with [] => True | c :: _ => isSpace c = false end -> dropSpaces l = l.
Proof. destruct l as [|c l]; [reflexivity|]. cbn [dropSpaces]. now intros ->. Qed.

Lemma visible_spaces (pre : jsstring) : forallb isSpace pre = true -> visible pre = [].
Proof.
  induction pre as [|c pre IH]; [reflexivity|].
  cbn [forallb]. intros H. apply andb_prop in H as [Hc Hpre].
  unfold visible in *. cbn [filter]. unfold notSpace at 1. rewrite Hc. now apply IH.
Qed.

Lemma visible_dropSpaces (l : jsstring) : visible (dropSpaces l) = visible l.
Proof.
  destruct (dropSpaces_split l) as (pre & Hl & Hpre).
  rewrite Hl at 2. unfold visible. rewrite filter_app.
  fold (visible pre). now rewrite (visible_spaces pre Hpre).
Qed.

Lemma visible_rev (l : jsstring) : visible (rev l) = rev (visible l).
Proof.
  unfold visible. induction l as [|c l IH]; [reflexivity|].
  cbn [rev filter]. rewrite filter_app, IH. cbn [filter].
  destruct (notSpace c); [reflexivity|]. now rewrite app_nil_r.
Qed.

Lemma visible_trim (l : jsstring) : visible (trim l) = visible l.
Proof.
  unfold trim. rewrite visible_rev, visible_dropSpaces, visible_rev, rev_involutive.
  apply visible_dropSpaces.
Qed.

Lemma In_dropSpaces (c : N) (l : jsstring) : In c (dropSpaces l) -> In c l.
Proof.
  destruct (dropSpaces_split l) as (pre & Hl & _). intros H.
  rewrite Hl. apply in_or_app. now right.
Qed.

Lemma In_trim (c : N) (l : jsstring) : In c (trim l) -> In c l.
Proof.
  unfold trim. intros H. apply in_rev in H. apply In_dropSpaces in H.
  apply in_rev in H. now apply In_dropSpaces in H.
Qed.

(** A trimmed string neither begins nor ends with white space. *)
Lemma trim_ends (l : jsstring) :
  dropSpaces (trim l) = trim l /\ dropSpaces (rev (trim l)) = rev (trim l).
Proof.
  unfold trim. set (a := dropSpaces l).
  pose proof (dropSpaces_head l) as Ha. fold a in Ha.
  pose proof (dropSpaces_head (rev a)) as Hb.
  destruct (dropSpaces_split (rev a)) as (pre & Hsplit & _).
  set (b := dropSpaces (rev a)) in *.
  split.
  - apply dropSpaces_fixed.
    assert (Hrev : a = rev b ++ rev pre).
    { rewrite <- rev_app_distr, <- Hsplit. now rewrite rev_involutive. }
    destruct (rev b) as [|c rb] eqn:Hrb; [exact I|].
    rewrite Hrev in Ha. exact Ha.
  - rewrite rev_involutive. now apply dropSpaces_fixed.
Qed.

Lemma splitLines_concat (s : jsstring) : forall cur,
  visible (concat (splitLines cur s)) = visible (cur ++ s).
Proof.
  unfold visible. induction s as [|c s IH]; intros cur; cbn [splitLines].
  - cbn [concat]. now rewrite !app_nil_r.
  - destruct (c =? LF)%N eqn:Hc.
    + apply N.eqb_eq in Hc. subst c. cbn [concat].
      rewrite !filter_app, IH. reflexivity.
    + rewrite IH, <- app_assoc. reflexivity.
Qed.

(** A piece of [split] holds no LF, and only code units of the string. *)
Lemma splitLines_pieces (s : jsstring) : forall cur l,
  ~ In LF cur -> In l (splitLines cur s) ->
  ~ In LF l /\ (forall c, In c l -> In c cur \/ In c s).
Proof.
  induction s as [|d s IH]; intros cur l Hcur Hl; cbn [splitLines] in Hl.
  - destruct Hl as [<-|[]]. split; [assumption|]. intros c Hc. now left.
  - destruct (d =? LF)%N eqn:Hd.
    + destruct Hl as [<-|Hl].
      * split; [assumption|]. intros c Hc. now left.
      * destruct (IH [] l (fun H => H) Hl) as [Hno Hin]. split; [assumption|].
        intros c Hc. right. right. destruct (Hin c Hc) as [[]|H]. exact H.
    + apply N.eqb_neq in Hd.
      destruct (IH (cur ++ [d]) l) as [Hno Hin]; [|assumption|].
      * intros H. apply in_app_or in H as [H|[H|[]]]; [now apply Hcur|congruence].
      * split; [assumption|]. intros c Hc.
        destruct (Hin c Hc) as [H|H]; [|right; now right].
        apply in_app_or in H as [H|[<-|[]]]; [now left|right; now left].
Qed.

(** The lines of the input hold its visible characters, in order. *)
Lemma parseLines_visible (inputText : jsstring) :
  visible (concat (parseLines inputText)) = visible inputText.
Proof.
  unfold parseLines. rewrite concat_filter_truthy.
  assert (Hmap : forall L, visible (concat (map trim L)) = visible (concat L)).
  { induction L as [|l L IH]; [reflexivity|].
    cbn [map concat]. unfold visible in *. rewrite !filter_app, IH.
    fold (visible (trim l)). fold (visible l). now rewrite visible_trim. }
  rewrite Hmap, splitLines_concat. cbn [app]. unfold visible, removeCR.
  induction inputText as [|c t IH]; [reflexivity|].
  cbn [filter]. destruct (c =? CR)%N eqn:Hc.
  - apply N.eqb_eq in Hc. subst c. cbn [negb]. exact IH.
  - cbn [negb filter]. destruct (notSpace c); [now rewrite IH|exact IH].
Qed.

(** X14: every line the parser works on is non-empty, holds neither CR nor
    LF, and is trimmed: it neither begins nor ends with white space, so that
    trimming it again changes nothing. *)
Theorem parseLines_trimmed (inputText : jsstring) :
  Forall (fun l => l <> [] /\ ~ In CR l /\ ~ In LF l /\
                   dropSpaces l = l /\ dropSpaces (rev l) = rev l /\ trim l = l)
    (parseLines inputText).
Proof.
  unfold parseLines. apply Forall_forall. intros l Hl.
  apply filter_In in Hl as [Hl Htr]. apply in_map_iff in Hl as (raw & <- & Hraw).
  destruct (splitLines_pieces (removeCR inputText) [] raw (fun H => H) Hraw) as [HnoLF Hin].
  destruct (trim_ends raw) as [Hhead Hlast].
  split; [now destruct (trim raw)|]. split; [|split; [|split; [|split]]].
  - intros H. apply In_trim in H. destruct (Hin CR H) as [[]|H'].
    unfold removeCR in H'. apply filter_In in H' as [_ H']. discriminate.
  - intros H. apply In_trim in H. now apply HnoLF.
  - exact Hhead.
  - exact Hlast.
  - unfold trim at 1. rewrite Hhead, Hlast. apply rev_involutive.
Qed.

(** *** The lines of the raw text *)

Lemma dropSpaces_all (l : jsstring) : forallb isSpace l = true -> dropSpaces l = [].
Proof.
  induction l as [|c l IH]; [reflexivity|].
  cbn [forallb dropSpaces]. intros H. apply andb_prop in H as [-> Hl]. now apply IH.
Qed.

Lemma dropSpaces_app (a s : jsstring) :
  forallb isSpace a = true -> dropSpaces (a ++ s) = dropSpaces s.
Proof.
  induction a as [|c a IH]; [reflexivity|].
  cbn [forallb app dropSpaces]. intros H. apply andb_prop in H as [-> Ha]. now apply IH.
Qed.

Lemma forallb_rev (f : N -> bool) (l : jsstring) :
  forallb f l = true -> forallb f (rev l) = true.
Proof.
  rewrite !forallb_forall. intros H c Hc. apply H. now apply in_rev.
Qed.

Lemma hd_rev (t : jsstring) (d : N) : hd d (rev t) = last t d.
Proof.
  induction t as [|x t IH]; [reflexivity|].
  cbn [rev]. destruct t as [|y t]; [reflexivity|].
  change (last (x :: y :: t) d) with (last (y :: t) d). rewrite <- IH.
  cbn [rev]. destruct (rev t); reflexivity.
Qed.

(** A text that begins and ends with a visible character, between two runs of
    white space, is what [trim] leaves of the whole. *)
Lemma trim_padded (a t b : jsstring) :
  forallb isSpace a = true -> forallb isSpace b = true ->
  isSpace (hd SPACE t) = false -> isSpace (last t SPACE) = false ->
  trim (a ++ t ++ b) = t /\ t <> [].
Proof.
  intros Ha Hb Hhd Hlast.
  assert (Ht : t <> []) by (intros ->; discriminate).
  split; [|exact Ht]. unfold trim.
  rewrite dropSpaces_app by exact Ha.
  rewrite (dropSpaces_fixed (t ++ b)) by (destruct t; [congruence|exact Hhd]).
  rewrite rev_app_distr, dropSpaces_app by (apply forallb_rev; exact Hb).
  rewrite dropSpaces_fixed; [apply rev_involutive|].
  rewrite <- (hd_rev t SPACE) in Hlast.
  destruct (rev t) eqn:E; [exact I|exact Hlast].
Qed.

Lemma trim_blank (l : jsstring) : forallb isSpace l = true -> trim l = [].
Proof. intros H. unfold trim. now rewrite (@dropSpaces_all l H). Qed.

(** The parser's [map(l => l.trim()).filter(Boolean)] gives the non-empty
    trimmed lines. *)
Lemma contentLines_trim (raw ls : list jsstring) :
  contentLines raw ls -> filter truthy (map trim raw) = ls.
Proof.
  induction 1 as [|l raw ls Hl _ IH|a t b raw ls Ha Hb Hhd Hlast _ IH].
  - reflexivity.
  - cbn [map filter]. now rewrite (@trim_blank l Hl).
  - cbn [map filter]. destruct (@trim_padded a t b Ha Hb Hhd Hlast) as [-> Ht].
    destruct t; [congruence|]. cbn [truthy]. now rewrite IH.
Qed.

Lemma splitLines_app (l s : jsstring) : forall cur,
  ~ In LF l -> splitLines cur (l ++ s) = splitLines (cur ++ l) s.
Proof.
  induction l as [|c l IH]; intros cur Hl; [now rewrite app_nil_r|].
  cbn [app splitLines]. destruct (c =? LF)%N eqn:Hc.
  - apply N.eqb_eq in Hc. exfalso. apply Hl. now left.
  - rewrite IH by (intros H; apply Hl; now right). now rewrite <- app_assoc.
Qed.

(** [split] gives back the lines that were joined. *)
Lemma splitLines_joinLines (raw : list jsstring) : forall l cur,
  Forall (fun l0 => ~ In LF l0) (l :: raw) ->
  splitLines cur (joinLines (l :: raw)) = (cur ++ l) :: raw.
Proof.
  induction raw as [|l' raw IH]; intros l cur Hraw; inversion Hraw as [|? ? Hl Hrest]; subst.
  - cbn [joinLines]. rewrite <- (app_nil_r l) at 1. now rewrite splitLines_app.
  - change (joinLines (l :: l' :: raw)) with (l ++ [LF] ++ joinLines (l' :: raw)).
    rewrite splitLines_app by exact Hl. cbn [app splitLines].
    rewrite N.eqb_refl. now rewrite IH.
Qed.

(** The lines the parser works on are the non-empty trimmed lines of the raw
    text. *)
Lemma parseLines_contentLines (inputText : jsstring) (raw ls : list jsstring) :
  filter (fun c => negb (c =? CR)%N) inputText = joinLines raw ->
  Forall (fun l => ~ In LF l) raw ->
  contentLines raw ls ->
  parseLines inputText = ls.
Proof.
  intros Htext Hraw Hls. unfold parseLines, removeCR. rewrite Htext.
  destruct raw as [|l raw].
  - inversion Hls; subst. reflexivity.
  - rewrite (splitLines_joinLines [] Hraw). cbn [app]. now apply contentLines_trim.
Qed.

Lemma splitLines_nonempty (s : jsstring) : forall cur, splitLines cur s <> [].
Proof.
  induction s as [|d s IH]; intros cur; cbn [splitLines]; [discriminate|].
  destruct (d =? LF)%N; [discriminate|apply IH].
Qed.

(** Every text has its lines: it is, once its carriage returns are deleted,
    a list of LF-free lines joined by LF, and these have their non-empty
    trimmed lines. *)
Lemma joinLines_splitLines (s : jsstring) : forall cur,
  joinLines (splitLines cur s) = cur ++ s.
Proof.
  induction s as [|c s IH]; intros cur; cbn [splitLines].
  - cbn [joinLines]. now rewrite app_nil_r.
  - destruct (c =? LF)%N eqn:Hc.
    + apply N.eqb_eq in Hc. subst c.
      pose proof (splitLines_nonempty s []) as Hne.
      destruct (splitLines [] s) as [|x rest] eqn:E; [congruence|].
      change (joinLines (cur :: x :: rest)) with (cur ++ [LF] ++ joinLines (x :: rest)).
      rewrite <- E, IH. reflexivity.
    + rewrite IH, <- app_assoc. reflexivity.
Qed.

Lemma contentLines_exist (raw : list jsstring) : exists ls, contentLines raw ls.
Proof.
  induction raw as [|l raw [ls IH]]; [exists []; constructor|].
  destruct (forallb isSpace l) eqn:Hl.
  - exists ls. now constructor.
  - destruct (dropSpaces_split l) as (a & Hsplit & Ha).
    destruct (dropSpaces_split (rev (dropSpaces l))) as (b & Hsplit2 & Hb).
    assert (Hmid : dropSpaces l = trim l ++ rev b).
    { unfold trim. rewrite <- rev_app_distr, <- Hsplit2. now rewrite rev_involutive. }
    assert (Hne : trim l <> []).
    { intros Hnil. rewrite Hnil in Hmid. cbn [app] in Hmid.
      assert (Hall : forallb isSpace l = true).
      { rewrite Hsplit, Hmid, forallb_app, Ha. cbn [andb]. now apply forallb_rev. }
      congruence. }
    destruct (trim_ends l) as [Hhead Hlast].
    exists (trim l :: ls).
    remember (trim l) as t eqn:Et.
    assert (Heq : l = a ++ t ++ rev b) by (rewrite Hsplit at 1; now rewrite Hmid).
    rewrite Heq.
    apply contentLines_line; [exact Ha|now apply forallb_rev| | |exact IH].
    + pose proof (dropSpaces_head t) as H. rewrite Hhead in H.
      destruct t; [congruence|exact H].
    + rewrite <- hd_rev. pose proof (dropSpaces_head (rev t)) as H.
      rewrite Hlast in H. destruct (rev t) eqn:E; [|exact H].
      apply (f_equal (@rev N)) in E. rewrite rev_involutive in E. cbn [rev] in E. congruence.
Qed.

Lemma parseContent_lines_exist (inputText : jsstring) :
  exists raw ls,
    filter (fun c => negb (c =? CR)%N) inputText = joinLines raw /\
    Forall (fun l => ~ In LF l) raw /\
    contentLines raw ls.
Proof.
  set (raw := splitLines [] (filter (fun c => negb (c =? CR)%N) inputText)).
  destruct (contentLines_exist raw) as [ls Hls].
  exists raw, ls. split; [|split; [|exact Hls]].
  - subst raw. now rewrite joinLines_splitLines.
  - apply Forall_forall. intros l Hl.
    now destruct (splitLines_pieces _ [] l (fun H => H) Hl).
Qed.

(** C5: for every raw input text, read as lines separated by LF once its
    carriage returns are deleted, the title is the first non-empty trimmed
    line, the subtitle the second, and the pairs are the remaining non-empty
    trimmed lines two at a time, in order, as (key, value), a pair kept when
    either side is non-empty; a last line left alone is a key with an empty
    value.  The non-empty trimmed lines [ls] are given by [contentLines], which
    does not use the parser. *)
Theorem parseContent_pairs (inputText : jsstring) (raw ls : list jsstring)
    (Htext : filter (fun c => negb (c =? CR)%N) inputText = joinLines raw)
    (Hraw : Forall (fun l => ~ In LF l) raw)
    (Hls : contentLines raw ls) :
  title (parseContent inputText) = hd [] ls /\
  subtitle (parseContent inputText) = hd [] (tl ls) /\
  pairs (parseContent inputText) = filter keepPair (pairsOfLines (tl (tl ls))).
Proof.
  pose proof (parseLines_contentLines inputText Htext Hraw Hls) as Hlines.
  unfold parseContent. rewrite Hlines. cbn [title subtitle pairs].
  split; [now destruct ls|]. split; [now destruct ls as [|a [|b l]]|].
  rewrite (pairLoop_pairs ls (n := length ls)) by lia.
  now destruct ls as [|a [|b l]].
Qed.

Lemma parseContent_pairs_witness :
  let inputText := js "  Senior Engineer " ++ [CR; LF; LF] ++ js "Acme" ++ [LF]
                   ++ js " Age limit" ++ [LF] ++ js "25 years" ++ [LF] ++ js "Salary" in
  let raw := [js "  Senior Engineer "; []; js "Acme"; js " Age limit"; js "25 years";
              js "Salary"] in
  let ls := [js "Senior Engineer"; js "Acme"; js "Age limit"; js "25 years"; js "Salary"] in
  filter (fun c => negb (c =? CR)%N) inputText = joinLines raw /\
  Forall (fun l => ~ In LF l) raw /\
  contentLines raw ls /\
  parseContent inputText
  = mkContent (js "Senior Engineer") (js "Acme")
      [mkRow (js "Age limit") (js "25 years"); mkRow (js "Salary") []].
Proof.
  cbv zeta.
  assert (Htext : filter (fun c => negb (c =? CR)%N)
                    (js "  Senior Engineer " ++ [CR; LF; LF] ++ js "Acme" ++ [LF]
                     ++ js " Age limit" ++ [LF] ++ js "25 years" ++ [LF] ++ js "Salary")
                  = joinLines [js "  Senior Engineer "; []; js "Acme"; js " Age limit";
                               js "25 years"; js "Salary"]) by reflexivity.
  assert (Hraw : Forall (fun l => ~ In LF l)
                   [js "  Senior Engineer "; []; js "Acme"; js " Age limit";
                    js "25 years"; js "Salary"]).
  { repeat constructor; intros H; cbn in H; repeat destruct H as [H|H]; try discriminate H;
      exact H. }
  assert (Hls : contentLines
                  [js "  Senior Engineer "; []; js "Acme"; js " Age limit";
                   js "25 years"; js "Salary"]
                  [js "Senior Engineer"; js "Acme"; js "Age limit"; js "25 years";
                   js "Salary"]).
  { apply (contentLines_line (js "  ") (js "Senior Engineer") (js " ")); try reflexivity.
    apply contentLines_blank; [reflexivity|].
    apply (contentLines_line [] (js "Acme") []); try reflexivity.
    apply (contentLines_line (js " ") (js "Age limit") []); try reflexivity.
    apply (contentLines_line [] (js "25 years") []); try reflexivity.
    apply (contentLines_line [] (js "Salary") []); try reflexivity.
    constructor. }
  split; [exact Htext|]. split; [exact Hraw|]. split; [exact Hls|].
  destruct (parseContent_pairs _ Htext Hraw Hls) as (Ht & Hs & Hp).
  destruct (parseContent _) as [t0 s0 p0]. cbn [title subtitle pairs] in *.
  now rewrite Ht, Hs, Hp.
Defined.

(** *** Pairs *)

(** Pairing lines two at a time and flattening again gives the lines back,
    with one empty value at the end when their number is odd. *)
Lemma pairsOfLines_flatten (l : list jsstring) :
  concat (map (fun r => [key r; value r]) (pairsOfLines l))
  = l ++ (if Nat.odd (length l) then [[]] else []).
Proof.
  assert (H : forall n (l : list jsstring), (length l <= n)%nat ->
            concat (map (fun r => [key r; value r]) (pairsOfLines l))
            = l ++ (if Nat.odd (length l) then [[]] else [])).
  { induction n as [|n IH]; intros l0 Hn.
    - destruct l0; [reflexivity|simpl in Hn; lia].
    - destruct l0 as [|k [|v rest]]; [reflexivity|reflexivity|].
      cbn [pairsOfLines map concat key value app length].
      rewrite IH by (simpl in Hn; lia).
      change (Nat.odd (S (S (length rest)))) with (Nat.odd (length rest)).
      reflexivity. }
  now apply (H (length l)).
Qed.

Lemma pairsOfLines_keys (l : list jsstring) :
  Forall (fun k => k <> []) l -> Forall (fun r => key r <> []) (pairsOfLines l).
Proof.
  assert (H : forall n (l : list jsstring), (length l <= n)%nat ->
            Forall (fun k => k <> []) l -> Forall (fun r => key r <> []) (pairsOfLines l)).
  { induction n as [|n IH]; intros l0 Hn Hl.
    - destruct l0; [constructor|simpl in Hn; lia].
    - destruct l0 as [|k [|v rest]]; [constructor| |].
      + inversion Hl; subst. now repeat constructor.
      + inversion Hl as [|? ? Hk Hl']; subst. inversion Hl' as [|? ? Hv Hrest]; subst.
        cbn [pairsOfLines]. constructor; [exact Hk|].
        apply IH; [simpl in Hn; lia|assumption]. }
  now apply (H (length l)).
Qed.

Lemma filter_keepPair_keys (ps : list Row) :
  Forall (fun r => key r <> []) ps -> filter keepPair ps = ps.
Proof.
  induction ps as [|p ps IH]; intros H; [reflexivity|].
  inversion H as [|? ? Hk Hps]; subst. cbn [filter]. unfold keepPair at 1.
  destruct (key p); [congruence|]. cbn [truthy orb]. now rewrite IH.
Qed.

Lemma parseLines_nonempty (inputText : jsstring) :
  Forall (fun l => l <> []) (parseLines inputText).
Proof.
  unfold parseLines. apply Forall_forall. intros l Hl.
  apply filter_In in Hl as [_ Hl]. now destruct l.
Qed.

(** The pairs of the content, without the filter: every key is non-empty, so
    no pair is dropped. *)
Lemma parseContent_pairs_all (inputText : jsstring) :
  pairs (parseContent inputText) = pairsOfLines (tl (tl (parseLines inputText)))
  /\ Forall (fun r => key r <> []) (pairs (parseContent inputText)).
Proof.
  assert (Hp : pairs (parseContent inputText)
               = filter keepPair (pairsOfLines (tl (tl (parseLines inputText))))).
  { unfold parseContent. cbn [pairs].
    rewrite (pairLoop_pairs (parseLines inputText) (n := length (parseLines inputText)))
      by lia.
    now destruct (parseLines inputText) as [|a [|b l]]. }
  assert (Hk : Forall (fun r => key r <> []) (pairsOfLines (tl (tl (parseLines inputText))))).
  { apply pairsOfLines_keys. pose proof (parseLines_nonempty inputText) as H.
    destruct (parseLines inputText) as [|a [|b l]]; [constructor|constructor|].
    inversion H as [|? ? _ H']; subst. now inversion H'. }
  rewrite Hp, (filter_keepPair_keys Hk). now split.
Qed.

(** X15: the parser drops no line: every pair has a non-empty key, and the
    pairs flattened to key, value, key, value, ... are the non-empty lines
    after the first two, followed by one empty value when the number of those
    lines is odd. *)
Theorem parseContent_pairs_flatten (inputText : jsstring) :
  let rest := tl (tl (parseLines inputText)) in
  Forall (fun r => key r <> []) (pairs (parseContent inputText)) /\
  concat (map (fun r => [key r; value r]) (pairs (parseContent inputText)))
  = rest ++ (if Nat.odd (length rest) then [[]] else []) /\
  length (pairs (parseContent inputText)) = Nat.div2 (length rest + 1).
Proof.
  cbv zeta. destruct (parseContent_pairs_all inputText) as [Hp Hk].
  split; [exact Hk|]. split.
  - rewrite Hp. apply pairsOfLines_flatten.
  - rewrite Hp. generalize (tl (tl (parseLines inputText))). intros l.
    assert (H : forall n (l : list jsstring), (length l <= n)%nat ->
              length (pairsOfLines l) = Nat.div2 (length l + 1)).
    { induction n as [|n IH]; intros l0 Hn.
      - destruct l0; [reflexivity|simpl in Hn; lia].
      - destruct l0 as [|k [|v rest]]; [reflexivity|reflexivity|].
        cbn [pairsOfLines length]. rewrite IH by (simpl in Hn; lia).
        replace (S (S (length rest)) + 1)%nat with (S (S (length rest + 1))) by lia.
        reflexivity. }
    now apply (H (length l)).
Qed.

(** The fields of the content hold the visible characters of the input. *)
Lemma parseContent_keeps_characters_aux (inputText : jsstring) :
  let c := parseContent inputText in
  visible (title c ++ subtitle c ++ concat (map (fun r => key r ++ value r) (pairs c)))
  = visible inputText.
Proof.
  cbv zeta. rewrite <- (parseLines_visible inputText).
  destruct (parseContent_pairs_all inputText) as [Hp _]. rewrite Hp.
  assert (Hflat : forall l, concat (map (fun r => key r ++ value r) (pairsOfLines l))
                            = concat l).
  { assert (H : forall n (l : list jsstring), (length l <= n)%nat ->
              concat (map (fun r => key r ++ value r) (pairsOfLines l)) = concat l).
    { induction n as [|n IH]; intros l0 Hn.
      - destruct l0; [reflexivity|simpl in Hn; lia].
      - destruct l0 as [|k [|v rest]]; [reflexivity| |].
        + cbn [pairsOfLines map concat key value]. now rewrite !app_nil_r.
        + cbn [pairsOfLines map concat key value].
          rewrite IH by (simpl in Hn; lia). now rewrite <- app_assoc. }
    intros l. now apply (H (length l)). }
  rewrite Hflat. unfold parseContent. cbn [title subtitle].
  destruct (parseLines inputText) as [|a [|b l]]; cbn [nth tl concat app];
    now rewrite ?app_nil_r.
Qed.

(** X16: the parser loses no visible character: the title, the subtitle and
    the keys and values of the pairs, in this order, hold the characters of
    the input text other than white space, in order. *)
Theorem parseContent_keeps_characters (inputText : jsstring) :
  let c := parseContent inputText in
  visible (title c ++ subtitle c ++ concat (map (fun r => key r ++ value r) (pairs c)))
  = visible inputText.
Proof. apply parseContent_keeps_characters_aux. Qed.

(** ** Drawing the text *)

Lemma fillLines_text f align x ty lh (lns : list jsstring) :
  map ftText (fillLines f align x ty lh lns) = lns.
Proof.
  revert ty. induction lns as [|ln rest IH]; intros ty; [reflexivity|].
  cbn [fillLines map ftText]. now rewrite IH.
Qed.

Lemma fillLines_font f align x ty lh (lns : list jsstring) :
  Forall (fun c => ftFont c = f) (fillLines f align x ty lh lns).
Proof.
  revert ty. induction lns as [|ln rest IH]; intros ty; [constructor|].
  cbn [fillLines]. constructor; [reflexivity|apply IH].
Qed.

(** Lines drawn from [ty] down, [lh] apart, stay between [ty] and [ty] plus
    their number times [lh]. *)
Lemma fillLines_inside f align x lh (lns : list jsstring) : forall ty,
  0 <= lh ->
  Forall (fun c => ty <= ftY c /\ ftY c + lh <= ty + lengthZ lns * lh)
    (fillLines f align x ty lh lns).
Proof.
  induction lns as [|ln rest IH]; intros ty Hlh; [constructor|].
  cbn [fillLines]. unfold lengthZ in *. cbn [length]. constructor.
  - cbn [ftY]. nia.
  - eapply Forall_impl; [|apply (IH (ty + lh) Hlh)]. cbn beta. intros c [H1 H2].
    nia.
Qed.

Lemma fillRows_text quoted size lh x rightX (rows : list WrappedRow) : forall rowY,
  map ftText (fillRows quoted size lh x rightX rowY rows)
  = concat (map (fun w => left w ++ right w) rows).
Proof.
  induction rows as [|w rest IH]; intros rowY; [reflexivity|].
  cbn [fillRows map concat]. rewrite !map_app, !fillLines_text, IH.
  now rewrite <- app_assoc.
Qed.

Lemma sumZ_nonneg (l : list Z) : Forall (fun v => 0 <= v) l -> 0 <= sumZ l.
Proof.
  induction 1 as [|v l Hv Hl IH]; unfold sumZ in *; cbn [fold_right]; lia.
Qed.

(** Rows whose height is their larger line count times a non-negative line
    height, drawn with a non-negative gap, stay between the top of the first
    row and the bottom of the last one; the gap after the last row is not
    used. *)
Lemma fillRows_inside quoted size lh x rightX (rows : list WrappedRow) : forall rowY,
  0 <= lh -> 0 <= rowGap lh ->
  Forall (fun w => rowH w = Z.max (lengthZ (left w)) (lengthZ (right w)) * lh) rows ->
  Forall (fun c => rowY <= ftY c /\
                   ftY c + lh <= rowY + sumZ (map (fun w => rowH w + rowGap lh) rows)
                                 - rowGap lh)
    (fillRows quoted size lh x rightX rowY rows).
Proof.
  induction rows as [|w rest IH]; intros rowY Hlh Hgap Hrows; [constructor|].
  inversion Hrows as [|? ? Hw Hrest]; subst.
  assert (Hsum : 0 <= sumZ (map (fun w0 => rowH w0 + rowGap lh) rest)).
  { apply sumZ_nonneg. apply Forall_forall. intros v Hv.
    apply in_map_iff in Hv as (w0 & <- & Hw0).
    rewrite Forall_forall in Hrest. rewrite (Hrest w0 Hw0).
    unfold lengthZ. nia. }
  assert (HrowH : 0 <= rowH w) by (rewrite Hw; unfold lengthZ; nia).
  cbn [fillRows map]. unfold sumZ. cbn [fold_right].
  fold (sumZ (map (fun w0 => rowH w0 + rowGap lh) rest)).
  apply Forall_app. split; [|apply Forall_app; split].
  - eapply Forall_impl; [|apply (fillLines_inside _ _ _ (left w) rowY Hlh)].
    cbn beta. intros c [H1 H2]. split; [assumption|].
    assert (lengthZ (left w) * lh <= rowH w) by (rewrite Hw; nia). lia.
  - eapply Forall_impl; [|apply (fillLines_inside _ _ _ (right w) rowY Hlh)].
    cbn beta. intros c [H1 H2]. split; [assumption|].
    assert (lengthZ (right w) * lh <= rowH w) by (rewrite Hw; nia). lia.
  - eapply Forall_impl; [|apply (IH (rowY + (rowH w + rowGap lh)) Hlh Hgap Hrest)].
    cbn beta. intros c [H1 H2]. destruct rest as [|w1 rest'].
    + cbn [fillRows] in *. lia.
    + lia.
Qed.

(** The parts of the drawing, one by one: each fit is [drawOne]'s call of the
    fitter on the band of its zone, in some context, and each group of calls
    draws the lines of its fit. *)
Lemma drawOneText_parts measureText ctx (w h : Z) hasLogo fFam inputText :
  let z := zones w h hasLogo in
  let c := parseContent inputText in
  let quoted := quoteFontName fFam in
  let d := drawOneText measureText ctx w h hasLogo fFam inputText in
  titleFit d = fst (fitFontBinaryParagraph measureText ctx (title c)
                      (inject_Z (contentW z)) (titleBoxH z) 12 (maxTitlePx z) fFam (double (118 # 100)))
  /\ (exists ctx2,
        subFit d = fst (fitFontBinaryParagraph measureText ctx2 (subtitle c)
                          (inject_Z (contentW z)) (subBoxH z) 10 (maxSubPx z) fFam (double (118 # 100))))
  /\ (exists ctx4,
        tableFit d = fst (fitFontBinaryTable measureText ctx4 (pairs c)
                            (inject_Z (colLeftW z)) (inject_Z (colRightW z)) (tableBoxH z)
                            9 (maxTablePx z) fFam (double (112 # 100))))
  /\ titleDraw d = fillParagraph (mkFont (Some 700) (fontPx (titleFit d)) quoted)
                     (contentX z) (contentW z) (titleTop z) (titleBoxH z) (titleFit d)
  /\ subDraw d = fillParagraph (mkFont (Some 600) (fontPx (subFit d)) quoted)
                   (contentX z) (contentW z) (subTop z) (subBoxH z) (subFit d)
  /\ tableDraw d = fillRows quoted (tableFontPx (tableFit d)) (tableLineHeight (tableFit d))
                     (contentX z) (contentX z + colLeftW z + colGap z) (tableTop z)
                     (wrapped (tableFit d)).
Proof.
  cbv zeta. unfold drawOneText.
  destruct (fitFontBinaryParagraph measureText ctx _ _ _ 12 _ fFam (double (118 # 100)))
    as [tf ctx1] eqn:Ht.
  destruct (fitFontBinaryParagraph measureText _ _ _ _ 10 _ fFam (double (118 # 100)))
    as [sf ctx3] eqn:Hs.
  destruct (fitFontBinaryTable measureText _ _ _ _ _ 9 _ fFam (double (112 # 100)))
    as [bf ctx5] eqn:Hb.
  cbn [titleFit subFit tableFit titleDraw subDraw tableDraw fst].
  split; [reflexivity|]. split; [eexists; rewrite Hs; reflexivity|].
  split; [eexists; rewrite Hb; reflexivity|]. now repeat split.
Qed.

Lemma zones_ceilings (w h : Z) hasLogo :
  14 <= maxTitlePx (zones w h hasLogo) /\ 12 <= maxSubPx (zones w h hasLogo)
  /\ 10 <= maxTablePx (zones w h hasLogo).
Proof. unfold zones. cbn [maxTitlePx maxSubPx maxTablePx]. lia. Qed.

(** The sizes of the three fits lie within the bounds [drawOne] passes. *)
Lemma drawOneText_sizes measureText ctx (w h : Z) hasLogo fFam inputText :
  let z := zones w h hasLogo in
  let d := drawOneText measureText ctx w h hasLogo fFam inputText in
  12 <= fontPx (titleFit d) <= maxTitlePx z /\
  10 <= fontPx (subFit d) <= maxSubPx z /\
  9 <= tableFontPx (tableFit d) <= maxTablePx z.
Proof.
  cbv zeta.
  destruct (drawOneText_parts measureText ctx w h hasLogo fFam inputText)
    as (Ht & (ctx2 & Hs) & (ctx4 & Hb) & _).
  destruct (zones_ceilings w h hasLogo) as (Hc1 & Hc2 & Hc3).
  rewrite Ht, Hs, Hb, !fitFontBinaryParagraph_result, fitFontBinaryTable_size.
  cbv zeta. cbn [fontPx].
  split; [|split].
  - match goal with |- _ <= searchBest ?ok ?lo ?hi ?b <= _ =>
      destruct (searchBest_found ok lo hi b) as [->|[Hr _]]; lia end.
  - match goal with |- _ <= searchBest ?ok ?lo ?hi ?b <= _ =>
      destruct (searchBest_found ok lo hi b) as [->|[Hr _]]; lia end.
  - match goal with |- _ <= searchBest ?ok ?lo ?hi ?b <= _ =>
      destruct (searchBest_found ok lo hi b) as [->|[Hr _]]; lia end.
Qed.

Lemma fillLines_calls f align x ty lh (lns : list jsstring) :
  map (fun c => (ftFont c, ftAlign c, ftX c, ftText c)) (fillLines f align x ty lh lns)
  = map (pair (f, align, x)) lns.
Proof.
  revert ty. induction lns as [|ln rest IH]; intros ty; [reflexivity|].
  cbn [fillLines map ftFont ftAlign ftX ftText]. now rewrite IH.
Qed.

(** The calls of the table, row after row: the lines of the key in weight 700
    at [x], then the lines of the value in the regular face at [rightX]. *)
Lemma fillRows_calls quoted size lh x rightX (rows : list WrappedRow) : forall rowY,
  map (fun c => (ftFont c, ftAlign c, ftX c, ftText c))
    (fillRows quoted size lh x rightX rowY rows)
  = cellLines (mkFont (Some 700) size quoted, AlignLeft, inject_Z x)
      (mkFont None size quoted, AlignLeft, inject_Z rightX) rows.
Proof.
  unfold cellLines.
  induction rows as [|w rest IH]; intros rowY; [reflexivity|].
  cbn [fillRows map concat]. rewrite !map_app, !fillLines_calls, IH.
  now rewrite <- app_assoc.
Qed.

Lemma cellLines_map {A B : Type} (g : A -> B) (onKey onValue : A) (ws : list WrappedRow) :
  map (fun p => (g (fst p), snd p)) (cellLines onKey onValue ws)
  = cellLines (g onKey) (g onValue) ws.
Proof.
  unfold cellLines. rewrite concat_map, map_map. f_equal. apply map_ext. intros w.
  now rewrite map_app, !map_map.
Qed.

(** The rows [drawOne] draws are those of the pairs of the text, cell by
    cell. *)
Lemma drawOneText_cells measureText ctx (w h : Z) hasLogo fFam inputText :
  map visibleCells (wrapped (tableFit (drawOneText measureText ctx w h hasLogo fFam inputText)))
  = map (fun row => (visible (key row), visible (value row))) (pairs (parseContent inputText)).
Proof.
  destruct (drawOneText_parts measureText ctx w h hasLogo fFam inputText)
    as (_ & _ & (ctx4 & Hb) & _). cbv zeta in Hb. rewrite Hb.
  apply fitFontBinaryTable_cells.
Qed.

(** X17: whatever the canvas size, the logo, the text, the font family and
    the measurer, [drawOne] fits with ordered bounds and draws the title in
    weight 700 at a size from 12 to max(14, floor(0.10 s)), the subtitle in
    weight 600 at a size from 10 to max(12, floor(0.065 s)), and the table at
    one size from 9 to max(10, floor(0.055 s)), [s] the shorter side of the
    canvas: row after row, the lines of the key in weight 700, then the lines
    of the value in the regular face, the rows being those of the pairs of the
    text (the key lines of a row hold the characters of its key, the value
    lines those of its value). *)
Theorem drawOneText_fonts measureText ctx (w h : Z) hasLogo fFam inputText :
  let z := zones w h hasLogo in
  let quoted := quoteFontName fFam in
  let d := drawOneText measureText ctx w h hasLogo fFam inputText in
  (12 <= fontPx (titleFit d) <= maxTitlePx z /\
   Forall (fun c => ftFont c = mkFont (Some 700) (fontPx (titleFit d)) quoted) (titleDraw d))
  /\ (10 <= fontPx (subFit d) <= maxSubPx z /\
      Forall (fun c => ftFont c = mkFont (Some 600) (fontPx (subFit d)) quoted) (subDraw d))
  /\ (9 <= tableFontPx (tableFit d) <= maxTablePx z /\
      map (fun c => (ftFont c, ftText c)) (tableDraw d)
      = cellLines (mkFont (Some 700) (tableFontPx (tableFit d)) quoted)
          (mkFont None (tableFontPx (tableFit d)) quoted) (wrapped (tableFit d)) /\
      map visibleCells (wrapped (tableFit d))
      = map (fun row => (visible (key row), visible (value row)))
          (pairs (parseContent inputText))).
Proof.
  cbv zeta.
  destruct (drawOneText_sizes measureText ctx w h hasLogo fFam inputText) as (H1 & H2 & H3).
  destruct (drawOneText_parts measureText ctx w h hasLogo fFam inputText)
    as (_ & _ & _ & Htd & Hsd & Hbd).
  split; [split; [exact H1|]|split; [split; [exact H2|]|split; [exact H3|split]]].
  - rewrite Htd. apply fillLines_font.
  - rewrite Hsd. apply fillLines_font.
  - rewrite Hbd.
    match goal with |- map _ (fillRows ?q ?sz ?lh ?x ?rx ?y ?rows) = _ =>
      etransitivity;
        [|exact (cellLines_map (fun t : Font * TextAlign * Q => fst (fst t))
                   (mkFont (Some 700) sz q, AlignLeft, inject_Z x)
                   (mkFont None sz q, AlignLeft, inject_Z rx) rows)];
        rewrite <- (fillRows_calls q sz lh x rx rows y) end.
    rewrite map_map. reflexivity.
  - apply drawOneText_cells.
Qed.

(** The text drawn, call after call, is the lines of the three fits. *)
Lemma drawOneText_texts measureText ctx (w h : Z) hasLogo fFam inputText :
  let d := drawOneText measureText ctx w h hasLogo fFam inputText in
  map ftText (allDraw d)
  = lines (titleFit d) ++ lines (subFit d)
    ++ concat (map (fun wRow => left wRow ++ right wRow) (wrapped (tableFit d))).
Proof.
  cbv zeta.
  destruct (drawOneText_parts measureText ctx w h hasLogo fFam inputText)
    as (_ & _ & _ & Htd & Hsd & Hbd).
  unfold allDraw. rewrite !map_app, Htd, Hsd, Hbd.
  unfold fillParagraph. now rewrite !fillLines_text, fillRows_text.
Qed.

Lemma visible_app (a b : jsstring) : visible (a ++ b) = visible a ++ visible b.
Proof. apply filter_app. Qed.

Lemma visible_rows (ws : list WrappedRow) :
  visible (concat (concat (map (fun wRow => left wRow ++ right wRow) ws)))
  = concat (map (fun wRow => fst (visibleCells wRow) ++ snd (visibleCells wRow)) ws).
Proof.
  induction ws as [|wRow ws IH]; [reflexivity|].
  cbn [map concat]. rewrite concat_app, !visible_app, IH. cbn [visibleCells fst snd].
  now rewrite concat_app, visible_app.
Qed.

(** X18: [drawOne] draws the whole text and nothing else: the strings of its
    [fillText] calls, in the order of the calls, hold the characters of the
    input text other than white space, in the order of the input, for every
    canvas size, font family and measurer. *)
Theorem drawOneText_keeps_characters measureText ctx (w h : Z) hasLogo fFam inputText :
  visible (concat (map ftText
                     (allDraw (drawOneText measureText ctx w h hasLogo fFam inputText))))
  = visible inputText.
Proof.
  rewrite drawOneText_texts.
  destruct (drawOneText_parts measureText ctx w h hasLogo fFam inputText)
    as (Ht & (ctx2 & Hs) & (ctx4 & Hb) & _).
  cbv zeta in *. rewrite !concat_app, !visible_app, visible_rows.
  rewrite Ht, Hs, Hb, !fitFontBinaryParagraph_result. cbv zeta. cbn [lines].
  unfold visible at 1 2. rewrite !wrapByWidth_chars.
  fold (visible (title (parseContent inputText))).
  fold (visible (subtitle (parseContent inputText))).
  assert (Hcells : forall ws rs,
            map visibleCells ws = map (fun row => (visible (key row), visible (value row))) rs ->
            concat (map (fun wRow => fst (visibleCells wRow) ++ snd (visibleCells wRow)) ws)
            = visible (concat (map (fun r => key r ++ value r) rs))).
  { induction ws as [|wRow ws IH]; intros [|r rs] Hmap; try discriminate; [reflexivity|].
    cbn [map] in Hmap. injection Hmap as Hl Hr Htl.
    cbn [map concat]. rewrite (IH rs Htl). cbn [visibleCells fst snd].
    now rewrite Hl, Hr, !visible_app. }
  rewrite (Hcells _ _ (fitFontBinaryTable_cells measureText ctx4 _ _ _ _ _ _ fFam _)).
  rewrite <- !visible_app. apply parseContent_keeps_characters_aux.
Qed.

(** A paragraph that fits its band is drawn inside it, with top and bottom
    margins that differ by at most one pixel; in any case its first line is
    not above the top of the band. *)
Lemma fillParagraph_top f (x cw y boxH : Z) (fit : FitResult) :
  0 <= lineHeight fit ->
  Forall (fun c => y <= ftY c) (fillParagraph f x cw y boxH fit).
Proof.
  intros Hlh. unfold fillParagraph.
  eapply Forall_impl; [|apply fillLines_inside; exact Hlh]. cbn beta. intros c [H _]. lia.
Qed.

Lemma fillParagraph_inside f (x cw y boxH : Z) (fit : FitResult) :
  0 <= lineHeight fit ->
  lengthZ (lines fit) * lineHeight fit <= boxH ->
  Forall (fun c => y <= ftY c /\ ftY c + lineHeight fit <= y + boxH)
    (fillParagraph f x cw y boxH fit)
  /\ (forall c rest, fillParagraph f x cw y boxH fit = c :: rest ->
        let top := ftY c - y in
        let bottom := y + boxH - (ftY c + lengthZ (lines fit) * lineHeight fit) in
        0 <= top /\ top <= bottom <= top + 1).
Proof.
  intros Hlh Hfit. unfold fillParagraph.
  set (H := lengthZ (lines fit) * lineHeight fit) in *.
  assert (Hhalf : 0 <= (boxH - H) / 2 /\ 2 * ((boxH - H) / 2) <= boxH - H
                  /\ boxH - H <= 2 * ((boxH - H) / 2) + 1).
  { pose proof (Z.div_mod (boxH - H) 2 ltac:(lia)) as Hdm.
    pose proof (Z.mod_pos_bound (boxH - H) 2 ltac:(lia)) as Hmod.
    assert (0 <= (boxH - H) / 2) by (apply Z.div_pos; lia). lia. }
  split.
  - eapply Forall_impl; [|apply fillLines_inside; exact Hlh]. cbn beta.
    intros c [H1 H2]. fold H in H2. lia.
  - intros c rest Heq. destruct (lines fit) as [|ln lns]; [discriminate|].
    cbn [fillLines] in Heq. injection Heq as <- _. cbn [ftY]. cbv zeta. lia.
Qed.

Lemma fillRows_top quoted size lh x rightX (rows : list WrappedRow) : forall rowY,
  0 <= lh -> 0 <= rowGap lh -> Forall (fun w => 0 <= rowH w) rows ->
  Forall (fun c => rowY <= ftY c) (fillRows quoted size lh x rightX rowY rows).
Proof.
  induction rows as [|w rest IH]; intros rowY Hlh Hgap Hrows; [constructor|].
  inversion Hrows as [|? ? Hw Hrest]; subst. cbn [fillRows].
  apply Forall_app. split; [|apply Forall_app; split].
  - eapply Forall_impl; [|apply (fillLines_inside _ _ _ (left w) rowY Hlh)].
    cbn beta. now intros c [H1 _].
  - eapply Forall_impl; [|apply (fillLines_inside _ _ _ (right w) rowY Hlh)].
    cbn beta. now intros c [H1 _].
  - eapply Forall_impl; [|apply (IH (rowY + (rowH w + rowGap lh)) Hlh Hgap Hrest)].
    cbn beta. intros c H1. lia.
Qed.

(** The line heights of the three fits are positive: the sizes are. *)
Lemma drawOneText_lineHeights measureText ctx (w h : Z) hasLogo fFam inputText :
  let d := drawOneText measureText ctx w h hasLogo fFam inputText in
  0 < lineHeight (titleFit d) /\ 0 < lineHeight (subFit d)
  /\ 0 < tableLineHeight (tableFit d).
Proof.
  cbv zeta.
  destruct (drawOneText_sizes measureText ctx w h hasLogo fFam inputText) as (H1 & H2 & H3).
  destruct (drawOneText_parts measureText ctx w h hasLogo fFam inputText)
    as (Ht & (ctx2 & Hs) & (ctx4 & Hb) & _).
  cbv zeta in *. split; [|split].
  - rewrite Ht in *. rewrite fitFontBinaryParagraph_result in *. cbv zeta in *.
    cbn [lineHeight fontPx] in *. apply ceilMul_pos; [lia|apply lineGaps_ge_1].
  - rewrite Hs in *. rewrite fitFontBinaryParagraph_result in *. cbv zeta in *.
    cbn [lineHeight fontPx] in *. apply ceilMul_pos; [lia|apply lineGaps_ge_1].
  - rewrite Hb in *.
    destruct (fitFontBinaryTable_cases measureText ctx4 (pairs (parseContent inputText))
                (inject_Z (colLeftW (zones w h hasLogo)))
                (inject_Z (colRightW (zones w h hasLogo)))
                (tableBoxH (zones w h hasLogo)) 9 (maxTablePx (zones w h hasLogo))
                fFam (double (112 # 100))) as [(_ & _ & Hres)|(ctx1 & Hres & _)];
      cbv zeta in Hres.
    + rewrite Hres. cbn [tableResultAt tableLineHeight]. apply ceilMul_pos; [lia|apply lineGaps_ge_1].
    + rewrite Hres. cbn [tableLineHeight]. apply ceilMul_pos; [lia|apply lineGaps_ge_1].
Qed.

(** X19: when the title, wrapped at the size chosen for it, is no higher than
    its band, [drawOne] draws every line of it inside the band, and centres
    the block: the margin below it is the margin above it, or one pixel
    more. *)
Theorem drawOneText_title_inside measureText ctx (w h : Z) hasLogo fFam inputText
    (Hfit : lengthZ (lines (titleFit (drawOneText measureText ctx w h hasLogo fFam inputText)))
            * lineHeight (titleFit (drawOneText measureText ctx w h hasLogo fFam inputText))
            <= titleBoxH (zones w h hasLogo)) :
  let z := zones w h hasLogo in
  let d := drawOneText measureText ctx w h hasLogo fFam inputText in
  Forall (fun c => titleTop z <= ftY c
                   /\ ftY c + lineHeight (titleFit d) <= titleTop z + titleBoxH z)
    (titleDraw d)
  /\ (forall c rest, titleDraw d = c :: rest ->
        let top := ftY c - titleTop z in
        let bottom := titleTop z + titleBoxH z
                      - (ftY c + lengthZ (lines (titleFit d)) * lineHeight (titleFit d)) in
        0 <= top /\ top <= bottom <= top + 1).
Proof.
  cbv zeta.
  destruct (drawOneText_lineHeights measureText ctx w h hasLogo fFam inputText) as (Hlh & _).
  destruct (drawOneText_parts measureText ctx w h hasLogo fFam inputText)
    as (_ & _ & _ & Htd & _). cbv zeta in *.
  rewrite Htd. apply fillParagraph_inside; [lia|exact Hfit].
Qed.

Lemma drawOneText_title_inside_witness :
  let text := js "BEL Recruitment 2025" ++ [LF] ++ js "Trainees" in
  let d := drawOneText monoMeasure ctx16 1080 1080 false (js "Noto Sans") text in
  lengthZ (lines (titleFit d)) * lineHeight (titleFit d) <= titleBoxH (zones 1080 1080 false)
  /\ Forall (fun c => 114 <= ftY c /\ ftY c + lineHeight (titleFit d) <= 114 + 190)
       (titleDraw d).
Proof.
  cbv zeta.
  assert (Hfit : lengthZ (lines (titleFit (drawOneText monoMeasure ctx16 1080 1080 false
                                             (js "Noto Sans")
                                             (js "BEL Recruitment 2025" ++ [LF] ++ js "Trainees"))))
                 * lineHeight (titleFit (drawOneText monoMeasure ctx16 1080 1080 false
                                           (js "Noto Sans")
                                           (js "BEL Recruitment 2025" ++ [LF] ++ js "Trainees")))
                 <= titleBoxH (zones 1080 1080 false))
    by (vm_compute; discriminate).
  split; [exact Hfit|].
  exact (proj1 (@drawOneText_title_inside monoMeasure ctx16 1080 1080 false (js "Noto Sans")
                  (js "BEL Recruitment 2025" ++ [LF] ++ js "Trainees") Hfit)).
Defined.

(** X20: the same for the subtitle: when it is no higher than its band at the
    size chosen for it, every line of it is drawn inside the band, the block
    centred to the pixel. *)
Theorem drawOneText_subtitle_inside measureText ctx (w h : Z) hasLogo fFam inputText
    (Hfit : lengthZ (lines (subFit (drawOneText measureText ctx w h hasLogo fFam inputText)))
            * lineHeight (subFit (drawOneText measureText ctx w h hasLogo fFam inputText))
            <= subBoxH (zones w h hasLogo)) :
  let z := zones w h hasLogo in
  let d := drawOneText measureText ctx w h hasLogo fFam inputText in
  Forall (fun c => subTop z <= ftY c
                   /\ ftY c + lineHeight (subFit d) <= subTop z + subBoxH z)
    (subDraw d)
  /\ (forall c rest, subDraw d = c :: rest ->
        let top := ftY c - subTop z in
        let bottom := subTop z + subBoxH z
                      - (ftY c + lengthZ (lines (subFit d)) * lineHeight (subFit d)) in
        0 <= top /\ top <= bottom <= top + 1).
Proof.
  cbv zeta.
  destruct (drawOneText_lineHeights measureText ctx w h hasLogo fFam inputText)
    as (_ & Hlh & _).
  destruct (drawOneText_parts measureText ctx w h hasLogo fFam inputText)
    as (_ & _ & _ & _ & Hsd & _). cbv zeta in *.
  rewrite Hsd. apply fillParagraph_inside; [lia|exact Hfit].
Qed.

Lemma drawOneText_subtitle_inside_witness :
  let text := js "BEL Recruitment 2025" ++ [LF] ++ js "Trainees" in
  let d := drawOneText monoMeasure ctx16 1080 1080 false (js "Noto Sans") text in
  lengthZ (lines (subFit d)) * lineHeight (subFit d) <= subBoxH (zones 1080 1080 false)
  /\ Forall (fun c => 304 <= ftY c /\ ftY c + lineHeight (subFit d) <= 304 + 114)
       (subDraw d).
Proof.
  cbv zeta.
  assert (Hfit : lengthZ (lines (subFit (drawOneText monoMeasure ctx16 1080 1080 false
                                           (js "Noto Sans")
                                           (js "BEL Recruitment 2025" ++ [LF] ++ js "Trainees"))))
                 * lineHeight (subFit (drawOneText monoMeasure ctx16 1080 1080 false
                                         (js "Noto Sans")
                                         (js "BEL Recruitment 2025" ++ [LF] ++ js "Trainees")))
                 <= subBoxH (zones 1080 1080 false))
    by (vm_compute; discriminate).
  split; [exact Hfit|].
  exact (proj1 (@drawOneText_subtitle_inside monoMeasure ctx16 1080 1080 false (js "Noto Sans")
                  (js "BEL Recruitment 2025" ++ [LF] ++ js "Trainees") Hfit)).
Defined.

(** X21: when the table, at the size chosen for it, is no higher than its
    band (the fit did not fall back), [drawOne] draws every line of every key
    and value inside the table band: no line starts above the top of the band
    and none ends below its bottom. *)
Theorem drawOneText_table_inside measureText ctx (w h : Z) hasLogo fFam inputText
    (Hfit : tableHeight measureText (pairs (parseContent inputText))
              (inject_Z (colLeftW (zones w h hasLogo)))
              (inject_Z (colRightW (zones w h hasLogo))) (quoteFontName fFam) (double (112 # 100))
              (tableFontPx (tableFit (drawOneText measureText ctx w h hasLogo fFam inputText)))
            <= tableBoxH (zones w h hasLogo)) :
  let z := zones w h hasLogo in
  let d := drawOneText measureText ctx w h hasLogo fFam inputText in
  Forall (fun c => tableTop z <= ftY c
                   /\ ftY c + tableLineHeight (tableFit d) <= tableTop z + tableBoxH z)
    (tableDraw d).
Proof.
  cbv zeta.
  destruct (drawOneText_lineHeights measureText ctx w h hasLogo fFam inputText)
    as (_ & _ & Hlh).
  destruct (drawOneText_parts measureText ctx w h hasLogo fFam inputText)
    as (_ & _ & (ctx4 & Hb) & _ & _ & Hbd).
  destruct (zones_ceilings w h hasLogo) as (_ & _ & Hceil).
  cbv zeta in *. rewrite Hbd. rewrite Hb in *.
  assert (Hbounds : 9 <= maxTablePx (zones w h hasLogo)) by lia.
  assert (Hlh0 : 0 <= tableLineHeight
                        (fst (fitFontBinaryTable measureText ctx4 (pairs (parseContent inputText))
                                (inject_Z (colLeftW (zones w h hasLogo)))
                                (inject_Z (colRightW (zones w h hasLogo)))
                                (tableBoxH (zones w h hasLogo)) 9
                                (maxTablePx (zones w h hasLogo)) fFam (double (112 # 100))))) by lia.
  destruct (fitFontBinaryTable_success measureText ctx4 _ _ _ fFam _ Hbounds Hfit Hlh0)
    as [Hw Hstack].
  rewrite drawnTableHeight_sum in Hstack.
  eapply Forall_impl;
    [|apply fillRows_inside; [exact Hlh0|apply rowGap_nonneg; exact Hlh0|]].
  - cbn beta. intros c [H1 H2]. split; [exact H1|lia].
  - rewrite Hw. apply Forall_forall. intros wRow Hin.
    apply in_map_iff in Hin as (row & <- & _). reflexivity.
Qed.

Lemma drawOneText_table_inside_witness :
  let d := drawOneText monoMeasure ctx16 1080 1080 false (js "Noto Sans") steps3 in
  tableHeight monoMeasure (pairs (parseContent steps3))
    (inject_Z (colLeftW (zones 1080 1080 false)))
    (inject_Z (colRightW (zones 1080 1080 false))) (quoteFontName (js "Noto Sans"))
    (double (112 # 100)) (tableFontPx (tableFit d)) <= tableBoxH (zones 1080 1080 false)
  /\ Forall (fun c => 418 <= ftY c /\ ftY c + tableLineHeight (tableFit d) <= 418 + 548)
       (tableDraw d).
Proof.
  cbv zeta.
  assert (Hfit : tableHeight monoMeasure (pairs (parseContent steps3))
                   (inject_Z (colLeftW (zones 1080 1080 false)))
                   (inject_Z (colRightW (zones 1080 1080 false)))
                   (quoteFontName (js "Noto Sans")) (double (112 # 100))
                   (tableFontPx (tableFit (drawOneText monoMeasure ctx16 1080 1080 false
                                             (js "Noto Sans") steps3)))
                 <= tableBoxH (zones 1080 1080 false))
    by (vm_compute; discriminate).
  split; [exact Hfit|].
  exact (@drawOneText_table_inside monoMeasure ctx16 1080 1080 false (js "Noto Sans")
           steps3 Hfit).
Defined.

(** X22: whether the fits succeed or not, [drawOne] draws no line of the
    title, of the subtitle or of the table above the top of its band: text
    that does not fit overflows downwards only. *)
Theorem drawOneText_never_above measureText ctx (w h : Z) hasLogo fFam inputText :
  let z := zones w h hasLogo in
  let d := drawOneText measureText ctx w h hasLogo fFam inputText in
  Forall (fun c => titleTop z <= ftY c) (titleDraw d) /\
  Forall (fun c => subTop z <= ftY c) (subDraw d) /\
  Forall (fun c => tableTop z <= ftY c) (tableDraw d).
Proof.
  cbv zeta.
  destruct (drawOneText_lineHeights measureText ctx w h hasLogo fFam inputText)
    as (Hlt & Hls & Hlb).
  destruct (drawOneText_parts measureText ctx w h hasLogo fFam inputText)
    as (_ & _ & (ctx4 & Hb) & Htd & Hsd & Hbd).
  cbv zeta in *. split; [|split].
  - rewrite Htd. apply fillParagraph_top. lia.
  - rewrite Hsd. apply fillParagraph_top. lia.
  - rewrite Hbd. apply fillRows_top; [lia|apply rowGap_nonneg; lia|].
    rewrite Hb in *.
    destruct (fitFontBinaryTable_cases measureText ctx4 (pairs (parseContent inputText))
                (inject_Z (colLeftW (zones w h hasLogo)))
                (inject_Z (colRightW (zones w h hasLogo)))
                (tableBoxH (zones w h hasLogo)) 9 (maxTablePx (zones w h hasLogo))
                fFam (double (112 # 100))) as [(_ & _ & Hres)|(ctx1 & Hres & _)];
      cbv zeta in Hres.
    + rewrite Hres in Hlb |- *. cbn [tableResultAt wrapped tableLineHeight tableFontPx] in *.
      rewrite tableRows_closed. apply Forall_forall. intros wRow Hin.
      apply in_map_iff in Hin as (row & <- & _). unfold wrappedRowAt. cbn [rowH].
      unfold lengthZ. nia.
    + rewrite Hres. cbn [wrapped]. apply Forall_forall. intros wRow Hin.
      apply in_map_iff in Hin as (row & <- & _). unfold fallbackRow. cbn [rowH]. lia.
Qed.

Lemma fillLines_place f align x ty lh (lns : list jsstring) :
  Forall (fun c => ftAlign c = align /\ ftX c = x) (fillLines f align x ty lh lns).
Proof.
  revert ty. induction lns as [|ln rest IH]; intros ty; [constructor|].
  cbn [fillLines]. constructor; [now split|apply IH].
Qed.

Lemma centre_x (m cw w : Z) :
  w = 2 * m + cw -> (inject_Z m + inject_Z cw / 2 == inject_Z w / 2)%Q.
Proof.
  intros ->. rewrite inject_Z_plus, inject_Z_mult. field.
Qed.

(** X24: horizontally, [drawOne] centres the title and the subtitle on the
    middle of the canvas ([w / 2], whatever the rounding of the paddings), and
    draws the table left-aligned in two columns: row after row, the lines of
    the key at the left margin [m], then the lines of the value at
    [m + colLeftW + colGap], the rows being those of the pairs of the text;
    the value column ends at [w - m], so the left and right margins are
    equal. *)
Theorem drawOneText_horizontal measureText ctx (w h : Z) hasLogo fFam inputText :
  let z := zones w h hasLogo in
  let d := drawOneText measureText ctx w h hasLogo fFam inputText in
  Forall (fun c => ftAlign c = AlignCenter /\ (ftX c == inject_Z w / 2)%Q)
    (titleDraw d ++ subDraw d) /\
  map (fun c => (ftAlign c, ftX c, ftText c)) (tableDraw d)
  = cellLines (AlignLeft, inject_Z (contentX z))
      (AlignLeft, inject_Z (contentX z + colLeftW z + colGap z)) (wrapped (tableFit d)) /\
  map visibleCells (wrapped (tableFit d))
  = map (fun row => (visible (key row), visible (value row)))
      (pairs (parseContent inputText)) /\
  contentX z + colLeftW z + colGap z + colRightW z = w - contentX z.
Proof.
  cbv zeta.
  destruct (drawOneText_parts measureText ctx w h hasLogo fFam inputText)
    as (_ & _ & _ & Htd & Hsd & Hbd). cbv zeta in *.
  assert (Hmid : (inject_Z (contentX (zones w h hasLogo))
                  + inject_Z (contentW (zones w h hasLogo)) / 2 == inject_Z w / 2)%Q).
  { apply centre_x. unfold zones. cbn [contentX contentW]. lia. }
  split; [|split; [|split]].
  - apply Forall_app. split.
    + rewrite Htd. unfold fillParagraph.
      eapply Forall_impl; [|apply fillLines_place]. cbn beta. intros c [H1 H2].
      split; [exact H1|]. rewrite H2. exact Hmid.
    + rewrite Hsd. unfold fillParagraph.
      eapply Forall_impl; [|apply fillLines_place]. cbn beta. intros c [H1 H2].
      split; [exact H1|]. rewrite H2. exact Hmid.
  - rewrite Hbd.
    match goal with |- map _ (fillRows ?q ?sz ?lh ?x ?rx ?y ?rows) = _ =>
      etransitivity;
        [|exact (cellLines_map (fun t : Font * TextAlign * Q => (snd (fst t), snd t))
                   (mkFont (Some 700) sz q, AlignLeft, inject_Z x)
                   (mkFont None sz q, AlignLeft, inject_Z rx) rows)];
        rewrite <- (fillRows_calls q sz lh x rx rows y) end.
    rewrite map_map. reflexivity.
  - apply drawOneText_cells.
  - unfold zones. cbn [contentX colLeftW colGap colRightW]. lia.
Qed.
